(** * Galaxery: tag search, autocomplete and tag attachment

    A shallow embedding of [server.js] (Express + SQLite) and of the
    search-box handlers of [public/js/main.js].

    - JavaScript strings are modelled as [string]; a character is a code
      unit of the Latin-1 range (U+0000 to U+00FF), on which [\s], [trim]
      and [toLowerCase] are given below as the language defines them.
    - The SQLite database is a record of tables, each a list of rows in
      rowid order.  Every SQL statement of the modelled routes is one
      function on that record.  [ORDER BY] is a stable sort of the rows
      in scan order: the statements name no second key.
    - [run], [get] and [all] return promises that may reject; an [await]ed
      call is a computation in the monad [M], which threads the database
      and the log of statements issued, and may reject.
    - A request is given by its parsed parameters: the page number is the
      integer [parseInt] reads, a post identifier is the number the path
      denotes. *)

From Stdlib Require Import List ZArith Lia Bool Ascii String.
From Stdlib Require Import Permutation Sorted.
Import ListNotations.

Local Open Scope string_scope.
Local Open Scope list_scope.
Local Open Scope Z_scope.

(** ** JavaScript string built-ins *)

Module JS.

Definition code (c : ascii) : N := N_of_ascii c.

(** The class [\s] (WhiteSpace and LineTerminator), which is also what
    [trim] strips: TAB, LF, VT, FF, CR, SP and NBSP in this range. *)
Definition is_ws (c : ascii) : bool :=
  let n := code c in
  ((9 <=? n) && (n <=? 13) || (n =? 32) || (n =? 160))%N.

Definition is_hash (c : ascii) : bool := (code c =? 35)%N.

(** [toLowerCase] on one code unit: A-Z, and the Latin-1 capitals
    U+00C0 to U+00DE except the multiplication sign U+00D7. *)
Definition lower_char (c : ascii) : ascii :=
  let n := code c in
  if ((65 <=? n) && (n <=? 90))%N then ascii_of_N (n + 32)
  else if ((192 <=? n) && (n <=? 222) && negb (n =? 215))%N
       then ascii_of_N (n + 32)
       else c.

Fixpoint toLowerCase (s : string) : string :=
  match s with
  | EmptyString => EmptyString
  | String c s' => String (lower_char c) (toLowerCase s')
  end.

(** A string is truthy when it is not empty. *)
Definition truthy (s : string) : bool :=
  match s with EmptyString => false | String _ _ => true end.

(** [s.startsWith('#')]. *)
Definition startsWith_hash (s : string) : bool :=
  match s with String c _ => is_hash c | EmptyString => false end.

(** [s.startsWith(p)]. *)
Fixpoint startsWith (s p : string) {struct p} : bool :=
  match p with
  | EmptyString => true
  | String a p' =>
      match s with
      | EmptyString => false
      | String b s' => Ascii.eqb a b && startsWith s' p'
      end
  end.

Fixpoint trimStart (s : string) : string :=
  match s with
  | EmptyString => EmptyString
  | String c s' => if is_ws c then trimStart s' else s
  end.

Fixpoint trimEnd (s : string) : string :=
  match s with
  | EmptyString => EmptyString
  | String c s' =>
      match trimEnd s' with
      | EmptyString => if is_ws c then EmptyString else String c EmptyString
      | r => String c r
      end
  end.

Definition trim (s : string) : string := trimEnd (trimStart s).

(** [s.split(/\s+/)]: the pieces between maximal runs of whitespace.
    The head of the result is the rest of the piece being read;
    [in_run] tells that the previous character was whitespace. *)
Fixpoint split_ws_from (in_run : bool) (s : string) : list string :=
  match s with
  | EmptyString => [EmptyString]
  | String c s' =>
      if is_ws c then
        if in_run then split_ws_from true s'
        else EmptyString :: split_ws_from true s'
      else
        match split_ws_from false s' with
        | t :: rest => String c t :: rest
        | [] => [String c EmptyString]
        end
  end.

Definition split_ws (s : string) : list string := split_ws_from false s.

(** [s.split(',')]. *)
Fixpoint split_comma (s : string) : list string :=
  match s with
  | EmptyString => [EmptyString]
  | String c s' =>
      if (code c =? 44)%N then EmptyString :: split_comma s'
      else
        match split_comma s' with
        | t :: rest => String c t :: rest
        | [] => [String c EmptyString]
        end
  end.

Fixpoint drop_hashes (s : string) : string :=
  match s with
  | EmptyString => EmptyString
  | String c s' => if is_hash c then drop_hashes s' else s
  end.

(** [s.replace(/^#+/, r)]. *)
Definition replace_leading_hashes (r s : string) : string :=
  if startsWith_hash s then (r ++ drop_hashes s)%string else s.

(** [a.join(sep)]. *)
Fixpoint join (sep : string) (a : list string) : string :=
  match a with
  | [] => EmptyString
  | [x] => x
  | x :: rest => (x ++ sep ++ join sep rest)%string
  end.

Definition inb (x : string) (l : list string) : bool :=
  existsb (String.eqb x) l.

(** [Array.from(new Set(a))]: first occurrences, in order. *)
Fixpoint uniq_from (seen : list string) (a : list string) : list string :=
  match a with
  | [] => []
  | x :: rest =>
      if inb x seen then uniq_from seen rest
      else x :: uniq_from (x :: seen) rest
  end.

Definition array_from_set (a : list string) : list string := uniq_from [] a.

(** [a[a.length-1]]; [None] is [undefined]. *)
Definition last_elt (a : list string) : option string :=
  List.last (map Some a) None.

(** Numbers are IEEE-754 doubles.  [to_double z] is the double nearest to
    the integer [z], ties going to the even significand: what an
    arithmetic operation with the exact result [z] yields.  Integers below
    2^53 in magnitude are doubles; an integer from 2^1024 on stands for
    [Infinity]. *)
Definition to_double (z : Z) : Z :=
  let a := Z.abs z in
  if a <? 2 ^ 53 then z
  else
    let ulp := 2 ^ (Z.log2 a - 52) in
    let q := a / ulp in
    let r := a mod ulp in
    let q' := if 2 * r <? ulp then q
              else if ulp <? 2 * r then q + 1
              else if Z.even q then q else q + 1 in
    Z.sgn z * (q' * ulp).

End JS.

(** ** server.js: the tag-field normalizer *)

Definition parseTags (text : string) : list string :=
  if negb (JS.truthy text) then []
  else
    let tokens :=
      map (fun t => JS.toLowerCase (JS.replace_leading_hashes "#" t))
        (filter JS.startsWith_hash
           (map JS.trim (JS.split_ws text))) in
    JS.array_from_set tokens.

(** ** The SQLite database *)

Record user_row := { u_id : Z; u_username : string; u_password : string }.
Record post_row :=
  { p_id : Z; p_user_id : Z; p_filename : string; p_created_at : Z }.
Record tag_row := { t_id : Z; t_name : string }.
Record post_tag_row := { pt_post_id : Z; pt_tag_id : Z }.
Record like_row := { l_user_id : Z; l_post_id : Z }.

(** Tables list their rows in rowid order.  [seq_posts] and [seq_tags] are
    the [sqlite_sequence] entries of the two AUTOINCREMENT tables the
    modelled routes insert into. *)
Record DB := {
  users : list user_row;
  posts : list post_row;
  tags : list tag_row;
  post_tags : list post_tag_row;
  likes : list like_row;
  seq_posts : Z;
  seq_tags : Z
}.

(** The statements of the source, as they are issued. *)
Inductive order_by := CreatedAsc | LikesDesc | CreatedDesc.

Inductive stmt :=
| SelectTagIdByName (name : string)
| InsertTag (name : string)
| InsertOrIgnorePostTag (post_id tag_id : Z)
| SelectPosts (sort : order_by) (limit offset : Z)
| CountPosts
| SelectTagIdsIn (names : list string)
| SelectPostsTagged (tag_ids : list Z) (n : Z) (sort : order_by)
    (limit offset : Z)
| CountPostsTagged (tag_ids : list Z) (n : Z)
| SelectTagNamesOfPost (post_id : Z)
| SelectPopularTags
| SelectTagsLike (pattern : string)
| SelectPostById (id : Z)
| DeletePostTags (post_id : Z)
| DeletePost (id : Z)
| InsertPost (user_id : Z) (filename : string) (created_at : Z).

(** Whether a statement reads or writes the [post_tags] relation. *)
Definition touches_post_tags (s : stmt) : bool :=
  match s with
  | InsertOrIgnorePostTag _ _ | SelectPostsTagged _ _ _ _ _
  | CountPostsTagged _ _ | SelectTagNamesOfPost _ | SelectPopularTags
  | SelectTagsLike _ | DeletePostTags _ => true
  | _ => false
  end.

(** *** Rows returned by the post queries *)

Record post_result := {
  r_post : post_row;
  r_username : option string;
  r_likes_count : Z
}.

Module Sql.

Definition zlen {A} (l : list A) : Z := Z.of_nat (List.length l).

Definition mem (x : Z) (l : list Z) : bool := existsb (Z.eqb x) l.

(** Distinct values, for [COUNT(DISTINCT ...)]. *)
Fixpoint distinct (l : list Z) : list Z :=
  match l with
  | [] => []
  | x :: rest => if mem x rest then distinct rest else x :: distinct rest
  end.

Fixpoint max_list (l : list Z) : Z :=
  match l with
  | [] => 0
  | x :: rest => Z.max x (max_list rest)
  end.

(** The rowid an AUTOINCREMENT table gives to a new row: one more than
    the largest rowid the table holds or has ever held. *)
Definition next_rowid (seq : Z) (ids : list Z) : Z :=
  Z.max seq (max_list ids) + 1.

(** [ORDER BY]: a stable insertion sort; [le a b] tells that [a] may
    come before [b].  Rows the key does not tell apart stay in the order
    the scan produced them. *)
Fixpoint insert_by {A} (le : A -> A -> bool) (x : A) (l : list A) : list A :=
  match l with
  | [] => [x]
  | y :: rest => if le x y then x :: l else y :: insert_by le x rest
  end.

Fixpoint sort_by {A} (le : A -> A -> bool) (l : list A) : list A :=
  match l with
  | [] => []
  | x :: rest => insert_by le x (sort_by le rest)
  end.

Definition row_le (o : order_by) (a b : post_result) : bool :=
  match o with
  | CreatedAsc => p_created_at (r_post a) <=? p_created_at (r_post b)
  | CreatedDesc => p_created_at (r_post b) <=? p_created_at (r_post a)
  | LikesDesc => r_likes_count b <=? r_likes_count a
  end.

(** [LIMIT ? OFFSET ?]: a negative limit is no limit, a negative offset
    is no offset. *)
Definition limit_offset {A} (limit offset : Z) (l : list A) : list A :=
  let rest := skipn (Z.to_nat offset) l in
  if limit <? 0 then rest else firstn (Z.to_nat limit) rest.

(** [(SELECT COUNT( * ) FROM likes l WHERE l.post_id = p.id)]. *)
Definition likes_count (db : DB) (pid : Z) : Z :=
  zlen (filter (fun l => l_post_id l =? pid) (likes db)).

Definition users_of (db : DB) (uid : Z) : list user_row :=
  filter (fun u => u_id u =? uid) (users db).

Definition result_of (db : DB) (p : post_row) (u : option string)
  : post_result :=
  {| r_post := p; r_username := u; r_likes_count := likes_count db (p_id p) |}.

(** [FROM posts p LEFT JOIN users u ON u.id = p.user_id]. *)
Definition posts_left_join_users (db : DB) : list post_result :=
  flat_map (fun p =>
    match users_of db (p_user_id p) with
    | [] => [result_of db p None]
    | us => map (fun u => result_of db p (Some (u_username u))) us
    end) (posts db).

(** The [post_tags] rows joined to post [pid] that pass
    [WHERE pt.tag_id IN (...)]. *)
Definition matched_tag_ids (db : DB) (tag_ids : list Z) (pid : Z) : list Z :=
  map pt_tag_id
    (filter (fun pt => (pt_post_id pt =? pid) && mem (pt_tag_id pt) tag_ids)
       (post_tags db)).

(** [GROUP BY p.id HAVING COUNT(DISTINCT pt.tag_id) = ?]: [p.id] is the
    primary key of [posts], so a group is the joined rows of one post;
    a post without a joined row forms no group. *)
Definition having_all (db : DB) (tag_ids : list Z) (n : Z) (p : post_row)
  : bool :=
  let m := matched_tag_ids db tag_ids (p_id p) in
  negb (zlen m =? 0) && (zlen (distinct m) =? n).

(** The tagged-posts query joins [users] with an inner join: a post
    whose owner is not in [users] has no joined row. *)
Definition posts_tagged_rows (db : DB) (tag_ids : list Z) (n : Z)
  : list post_result :=
  flat_map (fun p =>
    if having_all db tag_ids n p then
      match users_of db (p_user_id p) with
      | [] => []
      | u :: _ => [result_of db p (Some (u_username u))]
      end
    else []) (posts db).

Definition q_select_posts (db : DB) (sort : order_by) (limit offset : Z)
  : list post_result :=
  limit_offset limit offset (sort_by (row_le sort) (posts_left_join_users db)).

Definition q_count_posts (db : DB) : Z := zlen (posts db).

(** [SELECT id FROM tags WHERE name IN (...)]. *)
Definition q_select_tag_ids_in (db : DB) (names : list string) : list Z :=
  map t_id (filter (fun t => JS.inb (t_name t) names) (tags db)).

(** SQL leaves the order of rows with equal keys to the engine, and for
    this grouped query it depends on the plan the engine chooses.  The
    model takes the groups in the order of [posts]; what is proved of the
    tagged search below does not depend on that order. *)
Definition q_select_posts_tagged (db : DB) (tag_ids : list Z) (n : Z)
    (sort : order_by) (limit offset : Z) : list post_result :=
  limit_offset limit offset
    (sort_by (row_le sort) (posts_tagged_rows db tag_ids n)).

(** The count query has no join with [users]. *)
Definition q_count_posts_tagged (db : DB) (tag_ids : list Z) (n : Z) : Z :=
  zlen (filter (having_all db tag_ids n) (posts db)).

(** The pairs of post [pid] as the engine reads them: through the index
    of the primary key [(post_id, tag_id)], that is by tag identifier. *)
Definition pairs_of_post (db : DB) (pid : Z) : list post_tag_row :=
  sort_by (fun a b => pt_tag_id a <=? pt_tag_id b)
    (filter (fun pt => pt_post_id pt =? pid) (post_tags db)).

(** [SELECT t.name FROM tags t JOIN post_tags pt ON pt.tag_id = t.id
    WHERE pt.post_id = ?]. *)
Definition q_select_tag_names_of_post (db : DB) (pid : Z) : list string :=
  flat_map (fun pt =>
    map t_name (filter (fun t => t_id t =? pt_tag_id pt) (tags db)))
    (pairs_of_post db pid).

(** [COUNT(pt.post_id)] over [tags t LEFT JOIN post_tags pt], grouped by
    [t.id]. *)
Definition usage_count (db : DB) (tid : Z) : Z :=
  zlen (filter (fun pt => pt_tag_id pt =? tid) (post_tags db)).

Definition cnt_le (a b : string * Z) : bool := snd b <=? snd a.

Definition q_select_popular_tags (db : DB) : list (string * Z) :=
  limit_offset 40 0
    (sort_by cnt_le
       (map (fun t => (t_name t, usage_count db (t_id t))) (tags db))).

(** SQLite's [LIKE]: [%] matches any run of characters, [_] any one
    character, and ASCII letters match without regard to case. *)
Definition like_char (c : ascii) : ascii :=
  let n := JS.code c in
  if ((65 <=? n) && (n <=? 90))%N then ascii_of_N (n + 32) else c.

Fixpoint like (pattern s : string) : bool :=
  match pattern with
  | EmptyString => negb (JS.truthy s)
  | String c pattern' =>
      if (JS.code c =? 37)%N then
        (fix any (s : string) : bool :=
           like pattern' s ||
           match s with
           | EmptyString => false
           | String _ s' => any s'
           end) s
      else
        match s with
        | EmptyString => false
        | String d s' =>
            ((JS.code c =? 95)%N
             || Ascii.eqb (like_char c) (like_char d))
            && like pattern' s'
        end
  end.

(** The engine reads the two operands of [LIKE] as NUL-terminated: what
    counts is the text before the first U+0000. *)
Fixpoint c_str (s : string) : string :=
  match s with
  | EmptyString => EmptyString
  | String c s' =>
      if (JS.code c =? 0)%N then EmptyString else String c (c_str s')
  end.

Definition q_select_tags_like (db : DB) (pattern : string)
  : list (string * Z) :=
  limit_offset 10 0
    (sort_by cnt_le
       (map (fun t => (t_name t, usage_count db (t_id t)))
          (filter (fun t => like (c_str pattern) (c_str (t_name t)))
             (tags db)))).

Definition q_select_tag_id_by_name (db : DB) (name : string) : option Z :=
  option_map t_id (find (fun t => String.eqb (t_name t) name) (tags db)).

Definition q_select_post_by_id (db : DB) (id : Z) : option post_row :=
  find (fun p => p_id p =? id) (posts db).

End Sql.

(** ** Awaited database calls *)

Inductive Res (A : Type) : Type :=
| Resolved (a : A)
| Rejected (e : string).
Arguments Resolved {A} a.
Arguments Rejected {A} e.

(** The database together with the statements issued so far. *)
Record World := { w_db : DB; w_log : list stmt }.

Definition M (A : Type) : Type := World -> Res (A * World).

Definition ret {A} (a : A) : M A := fun w => Resolved (a, w).

Definition bind {A B} (m : M A) (k : A -> M B) : M B :=
  fun w =>
    match m w with
    | Resolved (a, w') => k a w'
    | Rejected e => Rejected e
    end.

Notation "x <- m ;; k" := (bind m (fun x => k))
  (at level 61, m at next level, right associativity).
Notation "m ;;; k" := (bind m (fun _ => k))
  (at level 61, right associativity).

Definition logged (s : stmt) (w : World) (db : DB) : World :=
  {| w_db := db; w_log := w_log w ++ [s] |}.

(** [await all(...)] and [await get(...)] of a SELECT. *)
Definition select {A} (s : stmt) (q : DB -> A) : M A :=
  fun w => Resolved (q (w_db w), logged s w (w_db w)).

Definition set_tags (db : DB) (ts : list tag_row) (seq : Z) : DB :=
  {| users := users db; posts := posts db; tags := ts;
     post_tags := post_tags db; likes := likes db;
     seq_posts := seq_posts db; seq_tags := seq |}.

Definition set_post_tags (db : DB) (pts : list post_tag_row) : DB :=
  {| users := users db; posts := posts db; tags := tags db;
     post_tags := pts; likes := likes db;
     seq_posts := seq_posts db; seq_tags := seq_tags db |}.

Definition set_posts (db : DB) (ps : list post_row) (seq : Z) : DB :=
  {| users := users db; posts := ps; tags := tags db;
     post_tags := post_tags db; likes := likes db;
     seq_posts := seq; seq_tags := seq_tags db |}.

(** [run('INSERT INTO tags(name) VALUES(?)')] resolves to [lastID];
    [name] is UNIQUE, and a second row of the same name is rejected. *)
Definition insert_tag (name : string) : M Z :=
  fun w =>
    let db := w_db w in
    if JS.inb name (map t_name (tags db)) then
      Rejected "SQLITE_CONSTRAINT: UNIQUE constraint failed: tags.name"
    else
      let id := Sql.next_rowid (seq_tags db) (map t_id (tags db)) in
      Resolved (id,
        logged (InsertTag name) w
          (set_tags db (tags db ++ [{| t_id := id; t_name := name |}]) id)).

Definition has_post_tag (db : DB) (pid tid : Z) : bool :=
  existsb (fun pt => (pt_post_id pt =? pid) && (pt_tag_id pt =? tid))
    (post_tags db).

(** [run('INSERT OR IGNORE INTO post_tags(post_id, tag_id) VALUES(?,?)')]. *)
Definition insert_or_ignore_post_tag (pid tid : Z) : M unit :=
  fun w =>
    let db := w_db w in
    Resolved (tt,
      logged (InsertOrIgnorePostTag pid tid) w
        (if has_post_tag db pid tid then db
         else set_post_tags db
                (post_tags db ++ [{| pt_post_id := pid; pt_tag_id := tid |}]))).

(** [run('DELETE FROM post_tags WHERE post_id = ?')]. *)
Definition delete_post_tags (pid : Z) : M unit :=
  fun w =>
    let db := w_db w in
    Resolved (tt,
      logged (DeletePostTags pid) w
        (set_post_tags db
           (filter (fun pt => negb (pt_post_id pt =? pid)) (post_tags db)))).

(** [run('INSERT INTO posts(user_id, filename, created_at) VALUES(?,?,?)')]. *)
Definition insert_post (uid : Z) (filename : string) (created_at : Z) : M Z :=
  fun w =>
    let db := w_db w in
    let id := Sql.next_rowid (seq_posts db) (map p_id (posts db)) in
    Resolved (id,
      logged (InsertPost uid filename created_at) w
        (set_posts db
           (posts db ++ [{| p_id := id; p_user_id := uid;
                            p_filename := filename;
                            p_created_at := created_at |}]) id)).

(** ** server.js: helpers *)

Fixpoint ensureTagIds (tags : list string) : M (list Z) :=
  match tags with
  | [] => ret []
  | t :: rest =>
      row <- select (SelectTagIdByName t)
               (fun db => Sql.q_select_tag_id_by_name db t) ;;
      id <- match row with
            | Some id => ret id
            | None => insert_tag t
            end ;;
      ids <- ensureTagIds rest ;;
      ret (id :: ids)
  end.

Fixpoint attachTagsToPost (post_id : Z) (tag_ids : list Z) : M unit :=
  match tag_ids with
  | [] => ret tt
  | tid :: rest =>
      insert_or_ignore_post_tag post_id tid ;;;
      attachTagsToPost post_id rest
  end.

(** ** server.js: routes *)

(** [req.query]: a parameter that is absent is [None].  [q_page] holds the
    number [parseInt] returns for the page parameter, an integer; a page
    parameter it reads no number from is not part of the model. *)
Record query := {
  q_page : option Z;
  q_sort : option string;
  q_tags : option string;
  q_q : option string
}.

Record session_user := { s_id : Z; s_username : string }.

Record index_view := {
  v_posts : list (post_result * list string);
  v_page : Z;
  v_totalPages : Z;
  v_queryTags : list string;
  v_sort : string;
  v_popularTags : list (string * Z)
}.

Inductive response :=
| RenderIndex (v : index_view)
| Json (rows : list (string * Z))
| Status (code : Z) (text : string)
| RedirectToPost (id : Z)
| RedirectToMyPosts.

(** [x || d] on an optional string. *)
Definition or_else (x : option string) (d : string) : string :=
  match x with
  | Some s => if JS.truthy s then s else d
  | None => d
  end.

Definition is_str (x : option string) (s : string) : bool :=
  match x with Some y => String.eqb y s | None => false end.

Definition page_of (q : query) : Z :=
  Z.max 1 (match q_page q with Some n => n | None => 1 end).

Definition limit : Z := 12.

(** [(page-1)*limit], computed on doubles. *)
Definition offset_of (q : query) : Z :=
  JS.to_double (JS.to_double (page_of q - 1) * limit).

(** A statement with [LIMIT ? OFFSET ?].  A number that is no 32-bit
    integer is bound as a double, and the engine takes a double for an
    offset only if it is a 64-bit integer; otherwise the statement fails
    and the promise is rejected. *)
Definition select_paged {A} (s : stmt) (offset : Z) (q : DB -> A) : M A :=
  if offset <? 2 ^ 63 then select s q
  else fun _ => Rejected "SQLITE_MISMATCH: datatype mismatch".

Definition sort_of (q : query) : order_by :=
  if is_str (q_sort q) "oldest" then CreatedAsc
  else if is_str (q_sort q) "likes" then LikesDesc
  else CreatedDesc.

Definition tagsQuery_of (q : query) : list string :=
  filter JS.truthy (map JS.trim (JS.split_comma (or_else (q_tags q) ""))).

Definition normTag (t : string) : string :=
  if JS.startsWith_hash t then JS.toLowerCase t
  else ("#" ++ JS.toLowerCase t)%string.

(** GET /: the search proper, up to [posts] and [totalCount]. *)
Definition search (q : query) : M (list post_result * Z) :=
  let sort := sort_of q in
  let offset := offset_of q in
  let tagsQuery := tagsQuery_of q in
  if (List.length tagsQuery =? 0)%nat then
    posts <- select_paged (SelectPosts sort limit offset) offset
               (fun db => Sql.q_select_posts db sort limit offset) ;;
    c <- select CountPosts Sql.q_count_posts ;;
    ret (posts, c)
  else
    let normTags := map normTag tagsQuery in
    tagIds <- select (SelectTagIdsIn normTags)
                (fun db => Sql.q_select_tag_ids_in db normTags) ;;
    if negb (List.length tagIds =? List.length normTags)%nat then
      ret ([], 0)
    else
      let n := Sql.zlen tagIds in
      posts <- select_paged (SelectPostsTagged tagIds n sort limit offset)
                 offset
                 (fun db =>
                    Sql.q_select_posts_tagged db tagIds n sort limit offset) ;;
      total <- select (CountPostsTagged tagIds n)
                 (fun db => Sql.q_count_posts_tagged db tagIds n) ;;
      ret (posts, total).

Fixpoint with_tags (posts : list post_result)
  : M (list (post_result * list string)) :=
  match posts with
  | [] => ret []
  | p :: rest =>
      names <- select (SelectTagNamesOfPost (p_id (r_post p)))
                 (fun db =>
                    Sql.q_select_tag_names_of_post db (p_id (r_post p))) ;;
      rest' <- with_tags rest ;;
      ret ((p, names) :: rest')
  end.

(** GET /. *)
Definition get_home (q : query) : M response :=
  r <- search q ;;
  posts <- with_tags (fst r) ;;
  popularTags <- select SelectPopularTags Sql.q_select_popular_tags ;;
  ret (RenderIndex
         {| v_posts := posts;
            v_page := page_of q;
            v_totalPages := Z.max 1 ((snd r + limit - 1) / limit);
            v_queryTags := tagsQuery_of q;
            v_sort := or_else (q_sort q) "recent";
            v_popularTags := popularTags |}).

(** GET /tags/autocomplete. *)
Definition get_autocomplete (q : query) : M response :=
  let s := JS.toLowerCase (or_else (q_q q) "") in
  if negb (JS.truthy s) then ret (Json [])
  else
    let normalized :=
      if JS.startsWith_hash s then s else ("#" ++ s)%string in
    let pattern := (normalized ++ "%")%string in
    rows <- select (SelectTagsLike pattern)
              (fun db => Sql.q_select_tags_like db pattern) ;;
    ret (Json rows).

(** POST /upload, once the image is stored: [filename] is the URL the
    image host returned and [now] is [Date.now()]. *)
Definition post_upload (session : option session_user) (has_file : bool)
    (body_tags : option string) (filename : string) (now : Z) : M response :=
  match session with
  | None => ret (Status 403 "login required")
  | Some user =>
      if negb has_file then ret (Status 400 "no file uploaded")
      else
        let tags := parseTags (or_else body_tags "") in
        postId <- insert_post (s_id user) filename now ;;
        tagIds <- ensureTagIds tags ;;
        attachTagsToPost postId tagIds ;;;
        ret (RedirectToPost postId)
  end.

(** [!tagsInput || tagsInput.trim() === ''] *)
Definition blank (tagsInput : option string) : bool :=
  match tagsInput with
  | None => true
  | Some s => negb (JS.truthy s) || negb (JS.truthy (JS.trim s))
  end.

(** POST /post/:id/edit; [id] is the number the path parameter denotes. *)
Definition post_edit (session : option session_user) (id : Z)
    (body_tags : option string) : M response :=
  match session with
  | None => ret (Status 401 "login")
  | Some user =>
      post <- select (SelectPostById id)
                (fun db => Sql.q_select_post_by_id db id) ;;
      match post with
      | None => ret (Status 404 "not found")
      | Some post =>
          if negb (p_user_id post =? s_id user) then
            ret (Status 403 "not allowed")
          else
            tagsInput <-
              (if blank body_tags then
                 existing <- select (SelectTagNamesOfPost (p_id post))
                               (fun db =>
                                  Sql.q_select_tag_names_of_post db
                                    (p_id post)) ;;
                 ret (JS.join " " existing)
               else ret (or_else body_tags "")) ;;
            let tags := parseTags tagsInput in
            delete_post_tags (p_id post) ;;;
            tagIds <- ensureTagIds tags ;;
            attachTagsToPost (p_id post) tagIds ;;;
            ret (RedirectToPost (p_id post))
      end
  end.

(** [run('DELETE FROM posts WHERE id=?')]. *)
Definition delete_post (pid : Z) : M unit :=
  fun w =>
    let db := w_db w in
    Resolved (tt,
      logged (DeletePost pid) w
        (set_posts db (filter (fun p => negb (p_id p =? pid)) (posts db))
           (seq_posts db))).

(** POST /post/:id/delete; removing the image file has no effect on the
    database. *)
Definition post_delete (session : option session_user) (id : Z)
  : M response :=
  match session with
  | None => ret (Status 401 "login")
  | Some user =>
      post <- select (SelectPostById id)
                (fun db => Sql.q_select_post_by_id db id) ;;
      match post with
      | None => ret (Status 404 "not found")
      | Some post =>
          if negb (p_user_id post =? s_id user) then
            ret (Status 403 "not allowed")
          else
            delete_post_tags (p_id post) ;;;
            delete_post (p_id post) ;;;
            ret RedirectToMyPosts
      end
  end.

(** ** public/js/main.js: the input handler of the search box *)

Inductive client_action :=
| ClearList
| KeepList
| Fetch (prefix : string).

(** What the handler does for the text [value] of the search box when the
    last prefix requested was [lastQ]. *)
Definition on_input (lastQ value : string) : client_action :=
  let q := JS.trim value in
  if negb (JS.truthy q) then ClearList
  else
    match JS.last_elt (JS.split_ws q) with
    | None => ClearList
    | Some token =>
        let prefix := JS.toLowerCase (JS.replace_leading_hashes "" token) in
        if (String.length prefix =? 0)%nat then ClearList
        else if String.eqb prefix lastQ then KeepList
        else Fetch prefix
    end.

(** The [tags] parameter of the address the box goes to when the user
    presses Enter on the text [value]. *)
Definition on_enter (value : string) : string :=
  let tokens := filter JS.truthy (map JS.trim (JS.split_ws value)) in
  JS.join ","
    (map (fun t => if JS.startsWith_hash t then t else ("#" ++ t)%string)
       tokens).

(** ** Integrity of the database *)

Fixpoint all_chars (f : ascii -> bool) (s : string) : bool :=
  match s with
  | EmptyString => true
  | String c s' => f c && all_chars f s'
  end.

(** A canonical tag name: one marker, then characters that are neither
    whitespace nor capitals, the first of them not a marker. *)
Definition canonical (name : string) : bool :=
  match name with
  | String c rest =>
      JS.is_hash c && negb (JS.startsWith_hash rest)
      && all_chars (fun d => negb (JS.is_ws d)) rest
      && String.eqb (JS.toLowerCase rest) rest
  | EmptyString => false
  end.

Fixpoint nodupb {A} (eqb : A -> A -> bool) (l : list A) : bool :=
  match l with
  | [] => true
  | x :: rest => negb (existsb (eqb x) rest) && nodupb eqb rest
  end.

Definition post_tag_eqb (a b : post_tag_row) : bool :=
  (pt_post_id a =? pt_post_id b) && (pt_tag_id a =? pt_tag_id b).

(** The constraints the schema declares (primary keys, [name TEXT UNIQUE])
    and the two facts the routes maintain: the owner of a post is a
    registered user, and a vocabulary name is canonical. *)
Definition wf_db (db : DB) : bool :=
  nodupb Z.eqb (map u_id (users db))
  && nodupb Z.eqb (map p_id (posts db))
  && nodupb Z.eqb (map t_id (tags db))
  && nodupb String.eqb (map t_name (tags db))
  && nodupb post_tag_eqb (post_tags db)
  && forallb (fun p => Sql.mem (p_user_id p) (map u_id (users db))) (posts db)
  && forallb (fun t => canonical (t_name t)) (tags db).

(** ** Notions used to state the properties *)

(** The vocabulary has an entry named [name]. *)
Definition in_vocabulary (db : DB) (name : string) : bool :=
  JS.inb name (map t_name (tags db)).

(** Post [pid] is tagged with the tag named [name]. *)
Definition tagged (db : DB) (pid : Z) (name : string) : bool :=
  existsb (fun t => String.eqb (t_name t) name && has_post_tag db pid (t_id t))
    (tags db).

Definition at_page (q : query) (page : Z) : query :=
  {| q_page := Some page; q_sort := q_sort q; q_tags := q_tags q;
     q_q := q_q q |}.

Definition with_tags_param (q : query) (t : string) : query :=
  {| q_page := q_page q; q_sort := q_sort q; q_tags := Some t;
     q_q := q_q q |}.

Definition normTags_of (q : query) : list string :=
  map normTag (tagsQuery_of q).

Definition world (db : DB) (log : list stmt) : World :=
  {| w_db := db; w_log := log |}.

(** The rows a search selects, before ORDER BY and LIMIT. *)
Definition matching (db : DB) (q : query) : list post_result :=
  match tagsQuery_of q with
  | [] => Sql.posts_left_join_users db
  | _ =>
      let tagIds := Sql.q_select_tag_ids_in db (normTags_of q) in
      if (List.length tagIds =? List.length (normTags_of q))%nat
      then Sql.posts_tagged_rows db tagIds (Sql.zlen tagIds)
      else []
  end.

(** The whole result of a search, in the order requested. *)
Definition full_result (db : DB) (q : query) : list post_result :=
  Sql.sort_by (Sql.row_le (sort_of q)) (matching db q).

(** The slice of [l] that page [page] shows. *)
Definition page_slice {A} (page : Z) (l : list A) : list A :=
  firstn 12 (skipn (Z.to_nat ((Z.max 1 page - 1) * 12)) l).

Definition created (r : post_result) : Z := p_created_at (r_post r).

(** ** Sample databases *)

Definition alice : user_row :=
  {| u_id := 1; u_username := "alice"; u_password := "$2b$10$hash" |}.

Definition mk_post (id created_at : Z) : post_row :=
  {| p_id := id; p_user_id := 1; p_filename := "https://img/p.png";
     p_created_at := created_at |}.

Definition mk_tag (id : Z) (name : string) : tag_row :=
  {| t_id := id; t_name := name |}.

Definition mk_pt (pid tid : Z) : post_tag_row :=
  {| pt_post_id := pid; pt_tag_id := tid |}.

(** P1 tagged [#cat #dog], P2 tagged [#cat]; nobody liked anything. *)
Definition db_cats : DB :=
  {| users := [alice];
     posts := [mk_post 1 100; mk_post 2 200];
     tags := [mk_tag 1 "#cat"; mk_tag 2 "#dog"];
     post_tags := [mk_pt 1 1; mk_pt 1 2; mk_pt 2 1];
     likes := [];
     seq_posts := 2; seq_tags := 2 |}.

Definition db_birds : DB :=
  {| users := [alice];
     posts := [mk_post 1 100];
     tags := [mk_tag 1 "#bluebird"; mk_tag 2 "#blue_sky"];
     post_tags := [mk_pt 1 1];
     likes := [];
     seq_posts := 1; seq_tags := 2 |}.

Definition q_empty : query :=
  {| q_page := None; q_sort := None; q_tags := None; q_q := None |}.

Definition session_alice : session_user :=
  {| s_id := 1; s_username := "alice" |}.

(** The number of vocabulary rows named [name]. *)
Definition rows_named (db : DB) (name : string) : nat :=
  List.length (filter (fun t => String.eqb (t_name t) name) (tags db)).

(** The same constraints as propositions. *)
Record integrity (db : DB) : Prop := {
  users_key : NoDup (map u_id (users db));
  posts_key : NoDup (map p_id (posts db));
  tags_key : NoDup (map t_id (tags db));
  tags_name_unique : NoDup (map t_name (tags db));
  post_tags_key : NoDup (post_tags db);
  owners_exist :
    forall p, In p (posts db) -> In (p_user_id p) (map u_id (users db));
  names_canonical :
    forall t, In t (tags db) -> canonical (t_name t) = true
}.

(** A non-empty string made of marker characters only. *)
Definition only_hashes (s : string) : bool :=
  JS.truthy s && all_chars JS.is_hash s.

(** The vocabulary rows whose name is among [names]. *)
Definition resolved_rows (db : DB) (names : list string) : list tag_row :=
  filter (fun t => JS.inb (t_name t) names) (tags db).

(** The [posts] a search resolves to, on a fresh log. *)
Definition search_posts (db : DB) (q : query) : list post_result :=
  match search q (world db []) with
  | Resolved (ps, _, _) => ps
  | Rejected _ => []
  end.

(** Among rows with the same like count, the newer comes first. *)
Definition ties_newest_first (ps : list post_result) : Prop :=
  forall i j a b, (i < j)%nat ->
    nth_error ps i = Some a -> nth_error ps j = Some b ->
    r_likes_count a = r_likes_count b -> created b <= created a.

Definition q_likes : query :=
  {| q_page := None; q_sort := Some "likes"; q_tags := None; q_q := None |}.

Definition q_cat_dog : query := with_tags_param q_empty "cat,dog".
Definition q_cat_zzz : query := with_tags_param q_empty "cat,zzz".
Definition q_cat_cat : query := with_tags_param q_empty "cat,cat".
Definition q_cat : query := with_tags_param q_empty "cat".

Definition q_blue : query :=
  {| q_page := None; q_sort := None; q_tags := None; q_q := Some "blue_" |}.

(** A string without whitespace. *)
Definition no_ws (s : string) : bool :=
  all_chars (fun d => negb (JS.is_ws d)) s.

(** Thirteen posts, all tagged [#cat]. *)
Definition db_many : DB :=
  {| users := [alice];
     posts := map (fun i => mk_post (Z.of_nat i) (Z.of_nat i)) (seq 1 13);
     tags := [mk_tag 1 "#cat"];
     post_tags := map (fun i => mk_pt (Z.of_nat i) 1) (seq 1 13);
     likes := [];
     seq_posts := 13; seq_tags := 1 |}.

(** The wildcards of LIKE. *)
Definition is_wildcard (c : ascii) : bool :=
  ((JS.code c =? 37) || (JS.code c =? 95))%N.

(** A text without U+0000. *)
Definition no_nul (s : string) : bool :=
  all_chars (fun c => negb (JS.code c =? 0)%N) s.

(** The prefix the autocomplete route looks for. *)
Definition normalized_prefix (q : query) : string :=
  let s := JS.toLowerCase (or_else (q_q q) "") in
  if JS.startsWith_hash s then s else ("#" ++ s)%string.

(** A database without posts and tags, where only [alice] registered. *)
Definition db_fresh : DB :=
  {| users := [alice]; posts := []; tags := []; post_tags := [];
     likes := []; seq_posts := 0; seq_tags := 0 |}.

(** * The rest of server.js

    The routes below issue statements that [stmt] does not list; they are
    computations over the database alone. *)

Definition D (A : Type) : Type := DB -> Res (A * DB).

Definition dret {A} (a : A) : D A := fun db => Resolved (a, db).

Definition dbind {A B} (m : D A) (k : A -> D B) : D B :=
  fun db =>
    match m db with
    | Resolved (a, db') => k a db'
    | Rejected e => Rejected e
    end.

Notation "x <~ m ;; k" := (dbind m (fun x => k))
  (at level 61, m at next level, right associativity).
Notation "m ;;~ k" := (dbind m (fun _ => k))
  (at level 61, right associativity).

(** [try { m } catch(e) { h }]: a rejected statement changes nothing. *)
Definition dcatch {A} (m : D A) (h : D A) : D A :=
  fun db =>
    match m db with
    | Resolved r => Resolved r
    | Rejected _ => h db
    end.

Definition dselect {A} (q : DB -> A) : D A := fun db => Resolved (q db, db).

Definition set_likes (db : DB) (ls : list like_row) : DB :=
  {| users := users db; posts := posts db; tags := tags db;
     post_tags := post_tags db; likes := ls;
     seq_posts := seq_posts db; seq_tags := seq_tags db |}.

Definition set_users (db : DB) (us : list user_row) : DB :=
  {| users := us; posts := posts db; tags := tags db;
     post_tags := post_tags db; likes := likes db;
     seq_posts := seq_posts db; seq_tags := seq_tags db |}.

(** What the remaining routes answer. *)
Inductive reply :=
| JsonLikes (likes : Z)
| JsonError (code : Z) (error : string)
| Send (code : Z) (text : string)
| Redirect (url : string)
| RenderPosts (view : string) (posts : list (post_result * list string))
| RenderUser (user : Z * string) (posts : list (post_result * list string))
| RenderUpload (post : option post_row) (tags : list string) (isEdit : bool).

(** ** Likes *)

Definition is_like (uid pid : Z) (l : like_row) : bool :=
  (l_user_id l =? uid) && (l_post_id l =? pid).

(** [get('SELECT 1 FROM likes WHERE user_id=? AND post_id=?')], as the
    truth value of the row. *)
Definition q_like_exists (db : DB) (uid pid : Z) : bool :=
  existsb (is_like uid pid) (likes db).

(** [get('SELECT COUNT( * ) AS c FROM likes WHERE post_id=?')]. *)
Definition q_count_likes (db : DB) (pid : Z) : Z := Sql.likes_count db pid.

(** [run('DELETE FROM likes WHERE user_id=? AND post_id=?')]. *)
Definition delete_like (uid pid : Z) : D unit :=
  fun db =>
    Resolved (tt,
      set_likes db (filter (fun l => negb (is_like uid pid l)) (likes db))).

(** [run('INSERT INTO likes(user_id, post_id) VALUES(?,?)')]; the pair is
    the primary key. *)
Definition insert_like (uid pid : Z) : D unit :=
  fun db =>
    if q_like_exists db uid pid then
      Rejected "SQLITE_CONSTRAINT: UNIQUE constraint failed: likes.user_id, likes.post_id"
    else
      Resolved (tt,
        set_likes db (likes db ++ [{| l_user_id := uid; l_post_id := pid |}])).

(** POST /post/:id/like; [postId] is the number the path parameter
    denotes. *)
Definition post_like (session : option session_user) (postId : Z) : D reply :=
  match session with
  | None => dret (JsonError 401 "login")
  | Some user =>
      exists_ <~ dselect (fun db => q_like_exists db (s_id user) postId) ;;
      (if exists_ then delete_like (s_id user) postId
       else insert_like (s_id user) postId) ;;~
      likes <~ dselect (fun db => q_count_likes db postId) ;;
      dret (JsonLikes likes)
  end.

(** ** Accounts *)

Inductive auth_reply :=
| SignedIn (user : session_user)
| RenderForm (view error : string).

(** [get('SELECT * FROM users WHERE username=?')]. *)
Definition q_select_user_by_name (db : DB) (username : string)
  : option user_row :=
  find (fun u => String.eqb (u_username u) username) (users db).

(** [run('INSERT INTO users(username,password) VALUES(?,?)')] resolves to
    [lastID]; [username] is UNIQUE.  No statement of the source deletes a
    user, so the largest rowid the table ever held is the largest it
    holds. *)
Definition insert_user (username password : string) : D Z :=
  fun db =>
    if existsb (fun u => String.eqb (u_username u) username) (users db) then
      Rejected "SQLITE_CONSTRAINT: UNIQUE constraint failed: users.username"
    else
      let id := Sql.next_rowid 0 (map u_id (users db)) in
      Resolved (id,
        set_users db
          (users db ++ [{| u_id := id; u_username := username;
                           u_password := password |}])).

(** POST /register; [hashed] is what [bcrypt.hash(password,10)] resolved
    to.  [SignedIn] stores the user in the session and redirects to [/]. *)
Definition post_register (body_username body_password : option string)
    (hashed : string) : D auth_reply :=
  let username := JS.trim (or_else body_username "") in
  let password := or_else body_password "" in
  if negb (JS.truthy username) || negb (JS.truthy password) then
    dret (RenderForm "register" "fill both")
  else
    dcatch
      (id <~ insert_user username hashed ;;
       dret (SignedIn {| s_id := id; s_username := username |}))
      (dret (RenderForm "register" "username taken")).

(** POST /login; [compare] is [bcrypt.compare]. *)
Definition post_login (compare : string -> string -> bool)
    (body_username body_password : option string) : D auth_reply :=
  let username := JS.trim (or_else body_username "") in
  let password := or_else body_password "" in
  user <~ dselect (fun db => q_select_user_by_name db username) ;;
  match user with
  | None => dret (RenderForm "login" "invalid")
  | Some user =>
      if negb (compare password (u_password user)) then
        dret (RenderForm "login" "invalid")
      else
        dret (SignedIn {| s_id := u_id user; s_username := u_username user |})
  end.

(** ** Pages of a user *)

(** [SELECT p.*, (SELECT COUNT( * ) FROM likes ...) AS likes_count
    FROM posts p WHERE p.user_id=? ORDER BY created_at DESC]. *)
Definition q_select_posts_of_user (db : DB) (uid : Z) : list post_result :=
  Sql.sort_by (Sql.row_le CreatedDesc)
    (map (fun p => Sql.result_of db p None)
       (filter (fun p => p_user_id p =? uid) (posts db))).

(** [for(const p of posts) p.tags = ...]. *)
Definition tags_of_posts (db : DB) (posts : list post_result)
  : list (post_result * list string) :=
  map (fun p => (p, Sql.q_select_tag_names_of_post db (p_id (r_post p))))
    posts.

(** GET /myposts. *)
Definition get_myposts (session : option session_user) : D reply :=
  match session with
  | None => dret (Redirect "/login")
  | Some user =>
      posts <~ dselect (fun db => q_select_posts_of_user db (s_id user)) ;;
      posts <~ dselect (fun db => tags_of_posts db posts) ;;
      dret (RenderPosts "myposts" posts)
  end.

(** GET /user/:id. *)
Definition get_user (uid : Z) : D reply :=
  user <~ dselect (fun db => find (fun u => u_id u =? uid) (users db)) ;;
  match user with
  | None => dret (Send 404 "no user")
  | Some user =>
      posts <~ dselect (fun db => q_select_posts_of_user db uid) ;;
      posts <~ dselect (fun db => tags_of_posts db posts) ;;
      dret (RenderUser (u_id user, u_username user) posts)
  end.

(** ** The edit form and the tag link *)

(** GET /post/:id/edit. *)
Definition get_edit (session : option session_user) (postId : Z) : M reply :=
  match session with
  | None => ret (Redirect "/login")
  | Some user =>
      post <- select (SelectPostById postId)
                (fun db => Sql.q_select_post_by_id db postId) ;;
      match post with
      | None => ret (Send 404 "Post not found")
      | Some post =>
          if negb (p_user_id post =? s_id user) then
            ret (Send 403 "not allowed")
          else
            tags <- select (SelectTagNamesOfPost postId)
                      (fun db => Sql.q_select_tag_names_of_post db postId) ;;
            ret (RenderUpload (Some post) tags true)
      end
  end.

(** GET /tag/:name redirects to [/?tags=] followed by the encoded tag; the
    query of that address is given here as the home route receives it. *)
Definition get_tag (name : string) : query :=
  let t := if JS.startsWith_hash name then name
           else ("#" ++ name)%string in
  {| q_page := None; q_sort := None; q_tags := Some t; q_q := None |}.

(** ** Notions used to state the further properties *)

Definition with_q (q : query) (s : string) : query :=
  {| q_page := q_page q; q_sort := q_sort q; q_tags := q_tags q;
     q_q := Some s |}.

(** The foreign keys of [post_tags]: the post and the tag of a pair
    exist. *)
Definition refs_ok (db : DB) : bool :=
  forallb (fun pt =>
             Sql.mem (pt_post_id pt) (map p_id (posts db))
             && Sql.mem (pt_tag_id pt) (map t_id (tags db)))
    (post_tags db).

Definition like_eqb (a b : like_row) : bool :=
  (l_user_id a =? l_user_id b) && (l_post_id a =? l_post_id b).

(** The primary key of [likes] and [username TEXT UNIQUE]. *)
Definition likes_ok (db : DB) : bool := nodupb like_eqb (likes db).

Definition accounts_ok (db : DB) : bool :=
  nodupb String.eqb (map u_username (users db)).

(** Every constraint at once. *)
Definition sound (db : DB) : bool :=
  wf_db db && refs_ok db && likes_ok db && accounts_ok db.

(** The database [initDB] leaves when the file is new. *)
Definition db_empty : DB :=
  {| users := []; posts := []; tags := []; post_tags := []; likes := [];
     seq_posts := 0; seq_tags := 0 |}.

Definition mk_like (uid pid : Z) : like_row :=
  {| l_user_id := uid; l_post_id := pid |}.

(** The likes table after one request to the like route. *)
Definition toggled (db : DB) (uid pid : Z) : DB :=
  if q_like_exists db uid pid then
    set_likes db (filter (fun l => negb (is_like uid pid l)) (likes db))
  else set_likes db (likes db ++ [mk_like uid pid]).

(** P1 liked by users 1 and 2. *)
Definition db_liked : DB :=
  {| users := [alice];
     posts := [mk_post 1 100; mk_post 2 200];
     tags := [mk_tag 1 "#cat"];
     post_tags := [mk_pt 1 1];
     likes := [mk_like 1 1; mk_like 2 1];
     seq_posts := 2; seq_tags := 1 |}.

(** [rows] lists the posts of user [uid]: each of them once, the newest
    first, with its like count and with the names of its tags and no
    other name; a name comes once when the keys of the schema hold. *)
Definition lists_posts_of (db : DB) (uid : Z)
    (rows : list (post_result * list string)) : Prop :=
  Permutation (map (fun x => r_post (fst x)) rows)
    (filter (fun p => p_user_id p =? uid) (posts db)) /\
  StronglySorted (fun a b => created (fst b) <= created (fst a)) rows /\
  forall r names, In (r, names) rows ->
    r_likes_count r = Sql.likes_count db (p_id (r_post r)) /\
    (forall n, In n names <-> tagged db (p_id (r_post r)) n = true) /\
    (wf_db db = true -> NoDup names).

Definition is_comma (c : ascii) : bool := (JS.code c =? 44)%N.

(** [t.startsWith('#') ? t : '#'+t], as the search box and the tag link
    write it. *)
Definition with_marker (t : string) : string :=
  if JS.startsWith_hash t then t else ("#" ++ t)%string.

(** The tokens the search box reads from its text. *)
Definition box_tokens (value : string) : list string :=
  filter JS.truthy (map JS.trim (JS.split_ws value)).

(** ** The site as a whole

    The requests that write to the database, and the user objects the
    server has stored in sessions so far.  A request comes without a
    session or with one of these. *)

Inductive request :=
| Register (username password : option string) (hashed : string)
| Login (username password : option string)
| Upload (has_file : bool) (tags : option string) (filename : string)
    (now : Z)
| Edit (id : Z) (tags : option string)
| Delete (id : Z)
| Like (id : Z).

Record site := { site_db : DB; site_sessions : list session_user }.

Definition db_after {A} (r : Res (A * World)) : option DB :=
  match r with
  | Resolved (_, w) => Some (w_db w)
  | Rejected _ => None
  end.

Definition signed (s : site) (r : Res (auth_reply * DB)) : option site :=
  match r with
  | Resolved (SignedIn user, db) =>
      Some {| site_db := db; site_sessions := user :: site_sessions s |}
  | Resolved (RenderForm _ _, db) =>
      Some {| site_db := db; site_sessions := site_sessions s |}
  | Rejected _ => None
  end.

Definition stored (s : site) (db : option DB) : option site :=
  option_map
    (fun db => {| site_db := db; site_sessions := site_sessions s |}) db.

(** The site after a request; [None] when a statement failed. *)
Definition serve (compare : string -> string -> bool)
    (session : option session_user) (r : request) (s : site) : option site :=
  let db := site_db s in
  match r with
  | Register u p hashed => signed s (post_register u p hashed db)
  | Login u p => signed s (post_login compare u p db)
  | Upload has_file t filename now =>
      stored s
        (db_after (post_upload session has_file t filename now (world db [])))
  | Edit id t => stored s (db_after (post_edit session id t (world db [])))
  | Delete id => stored s (db_after (post_delete session id (world db [])))
  | Like id =>
      match post_like session id db with
      | Resolved (_, db') => stored s (Some db')
      | Rejected _ => None
      end
  end.

(** The sites that requests lead to from the empty database. *)
Inductive reachable (compare : string -> string -> bool) : site -> Prop :=
| reach_start :
    reachable compare {| site_db := db_empty; site_sessions := [] |}
| reach_step (s s' : site) (session : option session_user) (r : request) :
    reachable compare s ->
    (forall u, session = Some u -> In u (site_sessions s)) ->
    serve compare session r s = Some s' ->
    reachable compare s'.

(** Every session holds the identifier and the name of a user. *)
Definition sessions_ok (s : site) : Prop :=
  forall u, In u (site_sessions s) ->
    exists row, In row (users (site_db s)) /\
                u_id row = s_id u /\ u_username row = s_username u.

(** The pages with an offset below 2^53: up to there the doubles of the
    home route are the integers themselves. *)
Definition max_page : Z := 2 ^ 53 / 12.

(** Three posts: P2 has two likes, P3 one and P1 none. *)
Definition db_votes : DB :=
  {| users := [alice];
     posts := [mk_post 1 100; mk_post 2 200; mk_post 3 300];
     tags := [mk_tag 1 "#cat"];
     post_tags := [mk_pt 1 1; mk_pt 2 1; mk_pt 3 1];
     likes := [mk_like 1 2; mk_like 2 2; mk_like 1 3];
     seq_posts := 3; seq_tags := 1 |}.

(** The site after [bob] registered on the empty database. *)
Definition bob : session_user := {| s_id := 1; s_username := "bob" |}.

Definition site_bob : site :=
  {| site_db :=
       {| users := [{| u_id := 1; u_username := "bob";
                       u_password := "$2b$10$h" |}];
          posts := []; tags := []; post_tags := []; likes := [];
          seq_posts := 0; seq_tags := 0 |};
     site_sessions := [bob] |}.

(** * Properties *)

(** ** Membership tests and duplicate-freeness *)

Lemma inb_In (x : string) (l : list string) : JS.inb x l = true <-> In x l.
Proof.
  unfold JS.inb. rewrite existsb_exists. split.
  - intros [y [Hy E]]. apply String.eqb_eq in E. now subst.
  - intros H. exists x. split; [assumption | apply String.eqb_refl].
Qed.

Lemma inb_false (x : string) (l : list string) :
  JS.inb x l = false <-> ~ In x l.
Proof.
  rewrite <- inb_In. destruct (JS.inb x l); split; congruence.
Qed.

Lemma mem_In (x : Z) (l : list Z) : Sql.mem x l = true <-> In x l.
Proof.
  unfold Sql.mem. rewrite existsb_exists. split.
  - intros [y [Hy E]]. apply Z.eqb_eq in E. now subst.
  - intros H. exists x. split; [assumption | apply Z.eqb_refl].
Qed.

Lemma mem_false (x : Z) (l : list Z) : Sql.mem x l = false <-> ~ In x l.
Proof.
  rewrite <- mem_In. destruct (Sql.mem x l); split; congruence.
Qed.

Section Nodupb.
Context {A : Type} (eqb : A -> A -> bool).
Hypothesis eqb_spec : forall a b, eqb a b = true <-> a = b.

Lemma existsb_eqb_In (x : A) (l : list A) :
  existsb (eqb x) l = true <-> In x l.
Proof.
  rewrite existsb_exists. split.
  - intros [y [Hy E]]. apply eqb_spec in E. now subst.
  - intros H. exists x. split; [assumption | now apply eqb_spec].
Qed.

Lemma nodupb_NoDup (l : list A) : nodupb eqb l = true <-> NoDup l.
Proof.
  induction l as [|x l IH]; simpl.
  - split; [constructor | reflexivity].
  - rewrite andb_true_iff, negb_true_iff, IH. split.
    + intros [Hx Hl]. constructor; [|assumption].
      rewrite <- existsb_eqb_In. congruence.
    + intros H. inversion H; subst. split; [|assumption].
      destruct (existsb (eqb x) l) eqn:E; [|reflexivity].
      apply existsb_eqb_In in E. contradiction.
Qed.
End Nodupb.

Lemma post_tag_eqb_spec (a b : post_tag_row) :
  post_tag_eqb a b = true <-> a = b.
Proof.
  unfold post_tag_eqb. rewrite andb_true_iff, !Z.eqb_eq.
  destruct a, b; simpl. split.
  - intros [-> ->]. reflexivity.
  - intros E. injection E. auto.
Qed.

Lemma wf_db_integrity (db : DB) : wf_db db = true <-> integrity db.
Proof.
  unfold wf_db. rewrite !andb_true_iff, !forallb_forall.
  rewrite !(nodupb_NoDup Z.eqb Z.eqb_eq).
  rewrite (nodupb_NoDup String.eqb String.eqb_eq).
  rewrite (nodupb_NoDup post_tag_eqb post_tag_eqb_spec).
  split.
  - intros [[[[[[H1 H2] H3] H4] H5] H6] H7].
    constructor; auto. intros p Hp. apply mem_In. auto.
  - intros [H1 H2 H3 H4 H5 H6 H7]. repeat split; auto.
    intros p Hp. apply mem_In. auto.
Qed.

(** ** The tag vocabulary: lookup-or-insert *)

Lemma find_name_none (ts : list tag_row) (n : string) :
  find (fun t => String.eqb (t_name t) n) ts = None <->
  ~ In n (map t_name ts).
Proof.
  induction ts as [|t ts IH]; simpl.
  - split; [intros _ [] | reflexivity].
  - destruct (String.eqb_spec (t_name t) n) as [E|E].
    + split; [discriminate | intros H; exfalso; auto].
    + rewrite IH. split; [intros H [F|F]; auto | auto].
Qed.

Lemma find_name_some (ts : list tag_row) (n : string) (t : tag_row) :
  find (fun t => String.eqb (t_name t) n) ts = Some t ->
  In t ts /\ t_name t = n.
Proof.
  intros H. apply find_some in H. destruct H as [H E].
  apply String.eqb_eq in E. auto.
Qed.

Lemma find_name_app_new (ts : list tag_row) (n : string) (t : tag_row) :
  ~ In n (map t_name ts) -> t_name t = n ->
  find (fun t => String.eqb (t_name t) n) (ts ++ [t]) = Some t.
Proof.
  intros Hn Ht. induction ts as [|u ts IH]; simpl in *.
  - rewrite Ht, String.eqb_refl. reflexivity.
  - destruct (String.eqb_spec (t_name u) n) as [E|E].
    + exfalso. auto.
    + apply IH. auto.
Qed.

Lemma filter_name_absent (ts : list tag_row) (n : string) :
  ~ In n (map t_name ts) ->
  filter (fun t => String.eqb (t_name t) n) ts = [].
Proof.
  induction ts as [|t ts IH]; simpl; intros H; [reflexivity|].
  destruct (String.eqb_spec (t_name t) n) as [E|E].
  - exfalso. auto.
  - apply IH. auto.
Qed.

(** One step of [ensureTagIds] on a name the vocabulary has. *)
Lemma ensureTagIds_known (n : string) (rest : list string) (w : World)
    (t : tag_row) :
  find (fun t => String.eqb (t_name t) n) (tags (w_db w)) = Some t ->
  ensureTagIds (n :: rest) w =
  (ids <- ensureTagIds rest ;; ret (t_id t :: ids))
    (logged (SelectTagIdByName n) w (w_db w)).
Proof.
  intros H. simpl. unfold bind at 1, select, Sql.q_select_tag_id_by_name.
  rewrite H. simpl. unfold bind at 1, ret at 1. reflexivity.
Qed.

(** One step of [ensureTagIds] on a name the vocabulary lacks. *)
Lemma ensureTagIds_new (n : string) (rest : list string) (w : World) :
  ~ In n (map t_name (tags (w_db w))) ->
  let id := Sql.next_rowid (seq_tags (w_db w)) (map t_id (tags (w_db w))) in
  ensureTagIds (n :: rest) w =
  (ids <- ensureTagIds rest ;; ret (id :: ids))
    (logged (InsertTag n) (logged (SelectTagIdByName n) w (w_db w))
       (set_tags (w_db w) (tags (w_db w) ++ [mk_tag id n]) id)).
Proof.
  intros H id. simpl. unfold bind at 1, select, Sql.q_select_tag_id_by_name.
  apply find_name_none in H as F. rewrite F. simpl.
  unfold bind at 1, insert_tag. simpl.
  apply inb_false in H. rewrite H. reflexivity.
Qed.

(** C9. [ensureTagIds [n]] called twice in succession resolves both times,
    to the same identifier; over both calls the vocabulary gains at most
    one row, and ends with one row named [n] if it had none, and with as
    many as before otherwise. *)
Theorem ensureTagIds_idempotent (n : string) (w : World) :
  exists id w1 w2,
    ensureTagIds [n] w = Resolved ([id], w1) /\
    ensureTagIds [n] w1 = Resolved ([id], w2) /\
    (List.length (tags (w_db w2)) <= List.length (tags (w_db w)) + 1)%nat /\
    tags (w_db w2) = tags (w_db w1) /\
    rows_named (w_db w2) n = Nat.max 1 (rows_named (w_db w) n).
Proof.
  destruct (find (fun t => String.eqb (t_name t) n) (tags (w_db w)))
    as [t|] eqn:F.
  - set (w1 := logged (SelectTagIdByName n) w (w_db w)).
    assert (F1 : find (fun t => String.eqb (t_name t) n) (tags (w_db w1))
                 = Some t) by exact F.
    exists (t_id t), w1, (logged (SelectTagIdByName n) w1 (w_db w1)).
    rewrite (ensureTagIds_known n [] w t F).
    rewrite (ensureTagIds_known n [] w1 t F1).
    repeat split; simpl; try lia.
    unfold rows_named.
    apply find_name_some in F. destruct F as [Hin Hn].
    assert (In t (filter (fun t => String.eqb (t_name t) n) (tags (w_db w)))).
    { apply filter_In. split; [assumption|]. now apply String.eqb_eq. }
    destruct (filter _ (tags (w_db w))); [contradiction | simpl; lia].
  - apply find_name_none in F.
    set (id := Sql.next_rowid (seq_tags (w_db w)) (map t_id (tags (w_db w)))).
    set (db1 := set_tags (w_db w) (tags (w_db w) ++ [mk_tag id n]) id).
    set (w1 := logged (InsertTag n) (logged (SelectTagIdByName n) w (w_db w))
                 db1).
    assert (F1 : find (fun t => String.eqb (t_name t) n) (tags (w_db w1))
                 = Some (mk_tag id n)).
    { simpl. apply find_name_app_new; [assumption | reflexivity]. }
    exists id, w1, (logged (SelectTagIdByName n) w1 (w_db w1)).
    rewrite (ensureTagIds_new n [] w F).
    rewrite (ensureTagIds_known n [] w1 _ F1).
    repeat split; simpl.
    + rewrite length_app. simpl. lia.
    + unfold rows_named. simpl. rewrite filter_app.
      rewrite (filter_name_absent _ _ F). simpl.
      rewrite String.eqb_refl. reflexivity.
Qed.

(** ** The tag-field normalizer *)

Lemma uniq_from_In (a seen : list string) (x : string) :
  In x (JS.uniq_from seen a) <-> In x a /\ ~ In x seen.
Proof.
  revert seen. induction a as [|y a IH]; intros seen; simpl.
  - tauto.
  - destruct (JS.inb y seen) eqn:E.
    + apply inb_In in E. rewrite IH. split.
      * tauto.
      * intros [[->|H] N]; [contradiction | auto].
    + apply inb_false in E. simpl. rewrite IH. simpl. split.
      * intros [->|[H N]]; [auto | tauto].
      * intros [[->|H] N]; [auto|].
        destruct (string_dec y x) as [->|D]; [auto | right; tauto].
Qed.

Lemma array_from_set_In (a : list string) (x : string) :
  In x (JS.array_from_set a) <-> In x a.
Proof. unfold JS.array_from_set. rewrite uniq_from_In. simpl. tauto. Qed.

Lemma uniq_from_NoDup (a seen : list string) : NoDup (JS.uniq_from seen a).
Proof.
  revert seen. induction a as [|y a IH]; intros seen; simpl.
  - constructor.
  - destruct (JS.inb y seen); [apply IH|].
    constructor; [|apply IH]. rewrite uniq_from_In. simpl. tauto.
Qed.

Lemma is_hash_not_ws (c : ascii) : JS.is_hash c = true -> JS.is_ws c = false.
Proof.
  unfold JS.is_hash, JS.is_ws. intros H. apply N.eqb_eq in H. rewrite H.
  reflexivity.
Qed.

Lemma is_hash_eq (c : ascii) : JS.is_hash c = true -> c = "#"%char.
Proof.
  unfold JS.is_hash, JS.code. intros H. apply N.eqb_eq in H.
  rewrite <- (ascii_N_embedding c), H. reflexivity.
Qed.

Lemma lower_char_hash (c : ascii) :
  JS.is_hash (JS.lower_char c) = JS.is_hash c.
Proof.
  destruct c as [[] [] [] [] [] [] [] []]; reflexivity.
Qed.

Lemma lower_char_ws (c : ascii) : JS.is_ws (JS.lower_char c) = JS.is_ws c.
Proof.
  destruct c as [[] [] [] [] [] [] [] []]; reflexivity.
Qed.

Lemma lower_char_idem (c : ascii) :
  JS.lower_char (JS.lower_char c) = JS.lower_char c.
Proof.
  destruct c as [[] [] [] [] [] [] [] []]; reflexivity.
Qed.

Lemma trimStart_no_ws (s : string) :
  all_chars (fun d => negb (JS.is_ws d)) s = true -> JS.trimStart s = s.
Proof.
  destruct s as [|c s]; simpl; [reflexivity|].
  rewrite andb_true_iff, negb_true_iff. intros [-> _]. reflexivity.
Qed.

Lemma trimEnd_no_ws (s : string) :
  all_chars (fun d => negb (JS.is_ws d)) s = true -> JS.trimEnd s = s.
Proof.
  induction s as [|c s IH]; simpl; [reflexivity|].
  rewrite andb_true_iff, negb_true_iff. intros [Hc Hs].
  rewrite (IH Hs), Hc. destruct s; reflexivity.
Qed.

Lemma trim_no_ws (s : string) :
  all_chars (fun d => negb (JS.is_ws d)) s = true -> JS.trim s = s.
Proof.
  intros H. unfold JS.trim. rewrite (trimStart_no_ws s H).
  apply trimEnd_no_ws, H.
Qed.

Lemma all_hash_no_ws (s : string) :
  all_chars JS.is_hash s = true ->
  all_chars (fun d => negb (JS.is_ws d)) s = true.
Proof.
  induction s as [|c s IH]; simpl; [reflexivity|].
  rewrite !andb_true_iff. intros [Hc Hs].
  rewrite (is_hash_not_ws c Hc). auto.
Qed.

Lemma drop_hashes_all (s : string) :
  all_chars JS.is_hash s = true -> JS.drop_hashes s = EmptyString.
Proof.
  induction s as [|c s IH]; simpl; [reflexivity|].
  rewrite andb_true_iff. intros [-> Hs]. auto.
Qed.

Lemma drop_hashes_head (s : string) :
  JS.startsWith_hash (JS.drop_hashes s) = false.
Proof.
  induction s as [|c s IH]; simpl; [reflexivity|].
  destruct (JS.is_hash c) eqn:E; [assumption | simpl; assumption].
Qed.

Lemma toLowerCase_head (s : string) :
  JS.startsWith_hash (JS.toLowerCase s) = JS.startsWith_hash s.
Proof. destruct s; simpl; [reflexivity | apply lower_char_hash]. Qed.

(** Every piece of a whitespace-only text is empty. *)
Lemma split_ws_blank (s : string) (b : bool) (t : string) :
  all_chars JS.is_ws s = true -> In t (JS.split_ws_from b s) ->
  t = EmptyString.
Proof.
  revert b. induction s as [|c s IH]; intros b; simpl.
  - intros _ [<-|[]]. reflexivity.
  - rewrite andb_true_iff. intros [-> Hs]. destruct b; simpl.
    + apply IH, Hs.
    + intros [<-|H]; [reflexivity | apply (IH true Hs H)].
Qed.

(** The normal form of a token that starts with the marker. *)
Lemma normalize_marker_token (tok : string) :
  JS.startsWith_hash tok = true ->
  JS.toLowerCase (JS.replace_leading_hashes "#" tok) =
  String "#" (JS.toLowerCase (JS.drop_hashes tok)).
Proof.
  intros H. unfold JS.replace_leading_hashes. rewrite H. reflexivity.
Qed.

Lemma parseTags_In (text t : string) :
  In t (parseTags text) <->
  JS.truthy text = true /\
  exists tok, In tok (JS.split_ws text) /\
              JS.startsWith_hash (JS.trim tok) = true /\
              t = String "#" (JS.toLowerCase (JS.drop_hashes (JS.trim tok))).
Proof.
  unfold parseTags. destruct (JS.truthy text); simpl.
  - rewrite array_from_set_In, in_map_iff. split.
    + intros [x [E Hx]]. apply filter_In in Hx. destruct Hx as [Hx Hh].
      apply in_map_iff in Hx. destruct Hx as [tok [<- Htok]].
      split; [reflexivity|]. exists tok. repeat split; auto.
      rewrite <- E. apply normalize_marker_token, Hh.
    + intros [_ [tok [Htok [Hh ->]]]]. exists (JS.trim tok). split.
      * apply normalize_marker_token, Hh.
      * apply filter_In. split; [|assumption]. apply in_map, Htok.
  - split; [intros [] | intros [F _]; discriminate].
Qed.

(** C8, as the claim states it, fails: the token [##] is not discarded,
    it is kept as the tag [#]. *)
Lemma parseTags_keeps_marker_token :
  parseTags "##" = ["#"] /\
  ~ (forall text t, In t (parseTags text) -> only_hashes t = false).
Proof.
  split; [reflexivity|].
  intros H. specialize (H "##" "#" (or_introl eq_refl)). discriminate.
Qed.

(** C8, amended.  A token made of marker characters only is collapsed to
    the single marker [#], which is kept in the output, and no other
    marker-only string is ever in the output; an empty or whitespace-only
    input yields the empty sequence. *)
Theorem parseTags_marker_tokens (text : string) :
  (forall tok, In tok (JS.split_ws text) -> only_hashes tok = true ->
               In "#" (parseTags text)) /\
  (forall t, In t (parseTags text) -> only_hashes t = true -> t = "#") /\
  (all_chars JS.is_ws text = true -> parseTags text = []).
Proof.
  split; [|split].
  - intros tok Htok Hm. unfold only_hashes in Hm.
    apply andb_true_iff in Hm. destruct Hm as [Hne Hall].
    assert (Htrim : JS.trim tok = tok) by (apply trim_no_ws, all_hash_no_ws, Hall).
    apply parseTags_In. split.
    + destruct text; [|reflexivity]. simpl in Htok.
      destruct Htok as [<-|[]]. discriminate.
    + exists tok. rewrite Htrim, (drop_hashes_all tok Hall).
      repeat split; auto. destruct tok; [discriminate|].
      simpl in *. apply andb_true_iff in Hall. tauto.
  - intros t Ht Hm. apply parseTags_In in Ht.
    destruct Ht as [_ [tok [_ [_ ->]]]].
    unfold only_hashes in Hm. simpl in Hm. rename Hm into Hall.
    pose proof (drop_hashes_head (JS.trim tok)) as Hd.
    rewrite <- toLowerCase_head in Hd.
    destruct (JS.toLowerCase (JS.drop_hashes (JS.trim tok))) as [|c r];
      [reflexivity|].
    simpl in *. apply andb_true_iff in Hall. destruct Hall as [Hc _].
    congruence.
  - intros Hb. destruct (parseTags text) as [|t l] eqn:E; [reflexivity|].
    exfalso. assert (Ht : In t (parseTags text)) by (rewrite E; left; auto).
    apply parseTags_In in Ht. destruct Ht as [_ [tok [Htok [Hh _]]]].
    rewrite (split_ws_blank text false tok Hb Htok) in Hh. discriminate.
Qed.

Lemma parseTags_marker_tokens_witness :
  In "#" (parseTags "#a ## b") /\ parseTags "  " = [].
Proof.
  destruct (parseTags_marker_tokens "#a ## b") as [H1 _].
  destruct (parseTags_marker_tokens "  ") as [_ [_ H3]].
  split.
  - apply (H1 "##"); [simpl; auto | reflexivity].
  - apply H3. reflexivity.
Defined.

(** ** The search, branch by branch *)

Lemma to_double_small (z : Z) : Z.abs z < 2 ^ 53 -> JS.to_double z = z.
Proof.
  intros H. unfold JS.to_double.
  destruct (Z.ltb_spec (Z.abs z) (2 ^ 53)); [reflexivity | lia].
Qed.

(** Up to [max_page] the offset is the exact product, and the engine
    takes it. *)
Lemma offset_exact (q : query) :
  page_of q <= max_page ->
  offset_of q = (page_of q - 1) * limit /\ offset_of q < 2 ^ 63.
Proof.
  intros H. assert (H1 : 1 <= page_of q) by (unfold page_of; lia).
  change max_page with 750599937895082 in H.
  unfold offset_of, limit.
  rewrite (to_double_small (page_of q - 1))
    by (change (2 ^ 53) with 9007199254740992; lia).
  rewrite to_double_small by (change (2 ^ 53) with 9007199254740992; lia).
  change (2 ^ 63) with 9223372036854775808. lia.
Qed.

Lemma page_of_at_page (q : query) (page : Z) :
  page_of (at_page q page) = Z.max 1 page.
Proof. reflexivity. Qed.

Lemma at_page_exact (q : query) (page : Z) :
  page <= max_page -> page_of (at_page q page) <= max_page.
Proof.
  rewrite page_of_at_page. change max_page with 750599937895082. lia.
Qed.

Lemma limit_offset_page {A} (q : query) (page : Z) (l : list A) :
  page <= max_page ->
  Sql.limit_offset limit (offset_of (at_page q page)) l = page_slice page l.
Proof.
  intros H. destruct (offset_exact _ (at_page_exact q page H)) as [-> _].
  reflexivity.
Qed.

Lemma select_paged_resolved {A} (s : stmt) (offset : Z) (f : DB -> A) :
  offset < 2 ^ 63 -> select_paged s offset f = select s f.
Proof.
  intros H. unfold select_paged.
  destruct (Z.ltb_spec offset (2 ^ 63)); [reflexivity | lia].
Qed.

Lemma select_paged_rejected {A} (s : stmt) (offset : Z) (f : DB -> A)
    (w : World) :
  2 ^ 63 <= offset ->
  select_paged s offset f w = Rejected "SQLITE_MISMATCH: datatype mismatch".
Proof.
  intros H. unfold select_paged.
  destruct (Z.ltb_spec offset (2 ^ 63)); [lia | reflexivity].
Qed.

Lemma search_no_tags (q : query) (db : DB) (log : list stmt) :
  tagsQuery_of q = [] ->
  offset_of q < 2 ^ 63 ->
  search q (world db log) =
  Resolved
    ((Sql.limit_offset limit (offset_of q)
        (Sql.sort_by (Sql.row_le (sort_of q)) (Sql.posts_left_join_users db)),
      Sql.q_count_posts db),
     world db (log ++ [SelectPosts (sort_of q) limit (offset_of q)]
                   ++ [CountPosts])).
Proof.
  intros H Ho. unfold search. rewrite H. cbn [List.length Nat.eqb].
  rewrite (select_paged_resolved _ _ _ Ho).
  unfold bind, select, ret, logged, world. simpl.
  rewrite <- app_assoc. reflexivity.
Qed.

Lemma search_unresolved (q : query) (db : DB) (log : list stmt) :
  tagsQuery_of q <> [] ->
  List.length (Sql.q_select_tag_ids_in db (normTags_of q))
  <> List.length (normTags_of q) ->
  search q (world db log) =
  Resolved (([], 0), world db (log ++ [SelectTagIdsIn (normTags_of q)])).
Proof.
  intros Hne Hlen. unfold search, normTags_of in *.
  destruct (tagsQuery_of q) as [|t ts] eqn:E; [congruence|].
  replace (List.length (t :: ts) =? 0)%nat with false by reflexivity.
  unfold bind, select, ret, logged, world. cbn [w_db w_log].
  apply Nat.eqb_neq in Hlen. rewrite Hlen. reflexivity.
Qed.

Lemma search_resolved (q : query) (db : DB) (log : list stmt) :
  tagsQuery_of q <> [] ->
  List.length (Sql.q_select_tag_ids_in db (normTags_of q))
  = List.length (normTags_of q) ->
  offset_of q < 2 ^ 63 ->
  let tagIds := Sql.q_select_tag_ids_in db (normTags_of q) in
  let n := Sql.zlen tagIds in
  search q (world db log) =
  Resolved
    ((Sql.limit_offset limit (offset_of q)
        (Sql.sort_by (Sql.row_le (sort_of q))
           (Sql.posts_tagged_rows db tagIds n)),
      Sql.q_count_posts_tagged db tagIds n),
     world db (log ++ [SelectTagIdsIn (normTags_of q)]
                   ++ [SelectPostsTagged tagIds n (sort_of q) limit
                         (offset_of q)]
                   ++ [CountPostsTagged tagIds n])).
Proof.
  intros Hne Hlen Ho tagIds n. subst n tagIds.
  unfold search, normTags_of in *.
  destruct (tagsQuery_of q) as [|t ts] eqn:E; [congruence|].
  replace (List.length (t :: ts) =? 0)%nat with false by reflexivity.
  unfold select_paged.
  destruct (Z.ltb_spec (offset_of q) (2 ^ 63)) as [_|F]; [|lia].
  unfold bind, select, ret, logged, world. cbn [w_db w_log].
  apply Nat.eqb_eq in Hlen. rewrite Hlen. cbn [negb w_db w_log].
  rewrite <- !app_assoc. reflexivity.
Qed.

(** Past the 64-bit integers the statement with the offset fails, unless
    a requested name is unknown and the statement is never issued. *)
Lemma search_rejected (q : query) (db : DB) (log : list stmt) :
  2 ^ 63 <= offset_of q ->
  (tagsQuery_of q <> [] ->
   List.length (Sql.q_select_tag_ids_in db (normTags_of q))
   = List.length (normTags_of q)) ->
  search q (world db log) = Rejected "SQLITE_MISMATCH: datatype mismatch".
Proof.
  intros Ho Hlen. unfold search, normTags_of in *.
  destruct (tagsQuery_of q) as [|t ts] eqn:E.
  - cbn [List.length Nat.eqb]. unfold bind.
    now rewrite (select_paged_rejected _ _ _ _ Ho).
  - replace (List.length (t :: ts) =? 0)%nat with false by reflexivity.
    unfold select_paged.
    destruct (Z.ltb_spec (offset_of q) (2 ^ 63)) as [F|_]; [lia|].
    unfold bind, select. cbn [w_db world].
    rewrite (proj2 (Nat.eqb_eq _ _) (Hlen ltac:(discriminate))).
    reflexivity.
Qed.

(** ** Resolving the requested names *)

(** A key of a table is a key of every selection of its rows. *)
Lemma NoDup_map_filter {Row Key} (key : Row -> Key) (keep : Row -> bool)
    (rows : list Row) (Hkey : NoDup (map key rows)) :
  NoDup (map key (filter keep rows)).
Proof.
  induction rows as [|r rows IH]; simpl in *; [constructor|].
  inversion Hkey; subst. destruct (keep r); simpl; [|auto].
  constructor; [|auto]. intros F. apply in_map_iff in F.
  destruct F as [y [E Hy]]. apply filter_In in Hy.
  apply H1. rewrite <- E. apply in_map. tauto.
Qed.

Lemma NoDup_map_inj {A B} (f : A -> B) (l : list A) (x y : A) :
  NoDup (map f l) -> In x l -> In y l -> f x = f y -> x = y.
Proof.
  induction l as [|z l IH]; simpl; intros H Hx Hy E; [contradiction|].
  inversion H; subst.
  destruct Hx as [->|Hx], Hy as [->|Hy]; auto.
  - exfalso. apply H2. rewrite E. apply in_map, Hy.
  - exfalso. apply H2. rewrite <- E. apply in_map, Hx.
Qed.

Lemma tag_ids_in_length (db : DB) (names : list string) :
  List.length (Sql.q_select_tag_ids_in db names)
  = List.length (map t_name (resolved_rows db names)).
Proof. unfold Sql.q_select_tag_ids_in, resolved_rows. now rewrite !length_map. Qed.

Lemma resolved_names_incl (db : DB) (names : list string) :
  incl (map t_name (resolved_rows db names)) names.
Proof.
  intros n H. apply in_map_iff in H. destruct H as [t [<- Ht]].
  apply filter_In in Ht. apply inb_In. tauto.
Qed.

(** A requested name without a vocabulary entry makes the resolved
    identifiers fewer than the requested names. *)
Lemma unresolved_shorter (db : DB) (names : list string) (n : string) :
  integrity db -> In n names -> in_vocabulary db n = false ->
  (List.length (Sql.q_select_tag_ids_in db names) < List.length names)%nat.
Proof.
  intros I Hn Habs. rewrite tag_ids_in_length.
  apply Nat.le_lt_trans with (List.length (remove string_dec n names)).
  - apply NoDup_incl_length.
    + apply NoDup_map_filter, (tags_name_unique db I).
    + intros m Hm. apply in_in_remove.
      * intros ->. apply inb_false in Habs. apply Habs.
        apply in_map_iff in Hm. destruct Hm as [t [E Ht]].
        apply filter_In in Ht. rewrite <- E. apply in_map. tauto.
      * apply (resolved_names_incl db names m Hm).
  - apply remove_length_lt, Hn.
Qed.

(** Distinct requested names that all have an entry resolve to as many
    identifiers. *)
Lemma resolved_same_length (db : DB) (names : list string) :
  integrity db -> NoDup names ->
  (forall n, In n names -> in_vocabulary db n = true) ->
  List.length (Sql.q_select_tag_ids_in db names) = List.length names.
Proof.
  intros I Hnd Hall. rewrite tag_ids_in_length. apply Nat.le_antisymm.
  - apply NoDup_incl_length.
    + apply NoDup_map_filter, (tags_name_unique db I).
    + apply resolved_names_incl.
  - apply NoDup_incl_length; [assumption|].
    intros n Hn. specialize (Hall n Hn). apply inb_In in Hall.
    apply in_map_iff in Hall. destruct Hall as [t [E Ht]].
    apply in_map_iff. exists t. split; [assumption|].
    apply filter_In. split; [assumption|]. apply inb_In. now rewrite E.
Qed.

(** ** Sorting and paging *)

Section Sorting.
Context {A : Type} (le : A -> A -> bool).

Lemma insert_by_perm (x : A) (l : list A) :
  Permutation (Sql.insert_by le x l) (x :: l).
Proof.
  induction l as [|y l IH]; simpl; [reflexivity|].
  destruct (le x y); [reflexivity|].
  rewrite IH. apply perm_swap.
Qed.

Lemma sort_by_perm (l : list A) : Permutation (Sql.sort_by le l) l.
Proof.
  induction l as [|x l IH]; simpl; [reflexivity|].
  rewrite insert_by_perm. now constructor.
Qed.

Lemma sort_by_In (l : list A) (x : A) : In x (Sql.sort_by le l) <-> In x l.
Proof.
  split; apply Permutation_in;
    [apply sort_by_perm | symmetry; apply sort_by_perm].
Qed.

Lemma sort_by_length (l : list A) :
  List.length (Sql.sort_by le l) = List.length l.
Proof. apply Permutation_length, sort_by_perm. Qed.

Hypothesis le_total : forall a b, le a b = true \/ le b a = true.
Hypothesis le_trans :
  forall a b c, le a b = true -> le b c = true -> le a c = true.

Let R (a b : A) : Prop := le a b = true.

Lemma insert_by_sorted (x : A) (l : list A) :
  StronglySorted R l -> StronglySorted R (Sql.insert_by le x l).
Proof.
  induction 1 as [|y l Hs IH Hy]; simpl.
  - repeat constructor.
  - destruct (le x y) eqn:E.
    + constructor; [constructor; assumption|].
      constructor; [exact E|].
      eapply Forall_impl; [|exact Hy]. intros z Hz. exact (le_trans _ _ _ E Hz).
    + constructor; [assumption|].
      assert (Hyx : le y x = true)
        by (destruct (le_total x y); [congruence | assumption]).
      eapply Permutation_Forall; [symmetry; apply insert_by_perm|].
      constructor; assumption.
Qed.

Lemma sort_by_sorted (l : list A) : StronglySorted R (Sql.sort_by le l).
Proof.
  induction l as [|x l IH]; simpl; [constructor|].
  apply insert_by_sorted, IH.
Qed.
End Sorting.

Lemma firstn_In {A} (n : nat) (l : list A) (x : A) :
  In x (firstn n l) -> In x l.
Proof.
  intros H. rewrite <- (firstn_skipn n l). apply in_or_app. now left.
Qed.

Lemma skipn_In {A} (n : nat) (l : list A) (x : A) :
  In x (skipn n l) -> In x l.
Proof.
  intros H. rewrite <- (firstn_skipn n l). apply in_or_app. now right.
Qed.

Lemma StronglySorted_skipn {A} (R : A -> A -> Prop) (n : nat) (l : list A) :
  StronglySorted R l -> StronglySorted R (skipn n l).
Proof.
  revert l. induction n as [|n IH]; intros l H; [assumption|].
  destruct l as [|x l]; [constructor|]. simpl. apply IH.
  now inversion H.
Qed.

Lemma StronglySorted_firstn {A} (R : A -> A -> Prop) (n : nat) (l : list A) :
  StronglySorted R l -> StronglySorted R (firstn n l).
Proof.
  revert l. induction n as [|n IH]; intros l H; [constructor|].
  destruct l as [|x l]; [constructor|]. simpl.
  inversion H; subst. constructor; [auto|].
  apply Forall_forall. intros y Hy. rewrite Forall_forall in H3.
  apply H3. eapply firstn_In; eauto.
Qed.

Lemma StronglySorted_impl {A} (R S : A -> A -> Prop) (l : list A) :
  (forall a b, R a b -> S a b) -> StronglySorted R l -> StronglySorted S l.
Proof.
  intros HRS. induction 1 as [|x l Hs IH Hx]; constructor; [assumption|].
  eapply Forall_impl; [|exact Hx]. intros y. apply HRS.
Qed.

Lemma page_slice_incl {A} (page : Z) (l : list A) (x : A) :
  In x (page_slice page l) -> In x l.
Proof.
  unfold page_slice. intros H. apply firstn_In in H.
  eapply skipn_In; eauto.
Qed.

(** Every element of a list is on one of its pages, and that page starts
    inside the list. *)
Lemma page_slice_covers {A} (l : list A) (x : A) :
  In x l ->
  exists page, 1 <= page /\ 12 * (page - 1) < Sql.zlen l /\
               In x (page_slice page l).
Proof.
  intros H. apply In_nth_error in H. destruct H as [i Hi].
  assert (Hlt : (i < List.length l)%nat).
  { apply nth_error_Some. congruence. }
  pose proof (Nat.div_mod_eq i 12) as Hdm.
  exists (Z.of_nat (i / 12) + 1). split; [lia|]. split.
  { unfold Sql.zlen. lia. }
  unfold page_slice.
  replace (Z.to_nat ((Z.max 1 (Z.of_nat (i / 12) + 1) - 1) * 12))
    with (12 * (i / 12))%nat by lia.
  apply (nth_error_In _ (i mod 12)).
  rewrite nth_error_firstn.
  assert (i mod 12 < 12)%nat by (apply Nat.mod_upper_bound; lia).
  destruct (Nat.ltb_spec (i mod 12) 12) as [_|F]; [|lia].
  rewrite nth_error_skipn, <- Nat.div_mod_eq. exact Hi.
Qed.


(** ** The rows a search selects *)

Lemma filter_key_le1 {A} (f : A -> Z) (v : Z) (l : list A) :
  NoDup (map f l) ->
  (List.length (filter (fun x => Z.eqb (f x) v) l) <= 1)%nat.
Proof.
  induction l as [|x l IH]; simpl; intros H; [lia|].
  inversion H; subst. destruct (Z.eqb_spec (f x) v) as [E|E]; [|auto].
  simpl. replace (filter (fun x => f x =? v) l) with (@nil A); [simpl; lia|].
  symmetry. destruct (filter (fun x => f x =? v) l) as [|y r] eqn:F;
    [reflexivity|].
  exfalso. assert (Hy : In y (filter (fun x => f x =? v) l))
    by (rewrite F; left; reflexivity).
  apply filter_In in Hy. destruct Hy as [Hy Ey]. apply Z.eqb_eq in Ey.
  apply H2. rewrite E, <- Ey. apply in_map, Hy.
Qed.

Lemma users_of_owner (db : DB) (p : post_row) :
  integrity db -> In p (posts db) ->
  exists u, Sql.users_of db (p_user_id p) = [u].
Proof.
  intros I Hp. pose proof (owners_exist db I p Hp) as Ho.
  pose proof (filter_key_le1 u_id (p_user_id p) (users db) (users_key db I))
    as Hle.
  apply in_map_iff in Ho. destruct Ho as [u [E Hu]].
  assert (Hin : In u (Sql.users_of db (p_user_id p))).
  { apply filter_In. split; [assumption|]. now apply Z.eqb_eq. }
  unfold Sql.users_of in *.
  destruct (filter _ (users db)) as [|a [|b r]]; simpl in *;
    [contradiction | eauto | lia].
Qed.

(** With every owner registered once, the left join yields one row per
    post. *)
Lemma left_join_posts (db : DB) :
  integrity db -> map r_post (Sql.posts_left_join_users db) = posts db.
Proof.
  intros I. unfold Sql.posts_left_join_users.
  assert (H : forall p, In p (posts db) -> In p (posts db)) by auto.
  revert H. generalize (posts db) at 1 3 4. intros l.
  induction l as [|p l IH]; intros H; simpl; [reflexivity|].
  destruct (users_of_owner db p I (H p (or_introl eq_refl))) as [u ->].
  simpl. f_equal. apply IH. intros x Hx. apply H. now right.
Qed.

(** ... and the inner join of the tagged query drops no post. *)
Lemma tagged_rows_posts (db : DB) (ids : list Z) (n : Z) :
  integrity db ->
  map r_post (Sql.posts_tagged_rows db ids n)
  = filter (Sql.having_all db ids n) (posts db).
Proof.
  intros I. unfold Sql.posts_tagged_rows.
  assert (H : forall p, In p (posts db) -> In p (posts db)) by auto.
  revert H. generalize (posts db) at 1 3 4. intros l.
  induction l as [|p l IH]; intros H; simpl; [reflexivity|].
  destruct (Sql.having_all db ids n p).
  - destruct (users_of_owner db p I (H p (or_introl eq_refl))) as [u ->].
    simpl. f_equal. apply IH. intros x Hx. apply H. now right.
  - simpl. apply IH. intros x Hx. apply H. now right.
Qed.

Lemma distinct_In (l : list Z) (x : Z) : In x (Sql.distinct l) <-> In x l.
Proof.
  induction l as [|y l IH]; simpl; [tauto|].
  destruct (Sql.mem y l) eqn:E.
  - apply mem_In in E. rewrite IH. split; [auto | intros [->|H]; auto].
  - simpl. rewrite IH. tauto.
Qed.

Lemma distinct_NoDup (l : list Z) : NoDup (Sql.distinct l).
Proof.
  induction l as [|y l IH]; simpl; [constructor|].
  destruct (Sql.mem y l) eqn:E; [assumption|].
  constructor; [|assumption]. rewrite distinct_In. now apply mem_false.
Qed.

Lemma has_post_tag_In (db : DB) (pid tid : Z) :
  has_post_tag db pid tid = true <-> In (mk_pt pid tid) (post_tags db).
Proof.
  unfold has_post_tag. rewrite existsb_exists. split.
  - intros [pt [Hpt E]]. apply andb_true_iff in E.
    destruct E as [E1 E2]. apply Z.eqb_eq in E1, E2.
    destruct pt; simpl in *. subst. exact Hpt.
  - intros H. exists (mk_pt pid tid). simpl. rewrite !Z.eqb_refl. auto.
Qed.

Lemma matched_tag_ids_In (db : DB) (ids : list Z) (pid tid : Z) :
  In tid (Sql.matched_tag_ids db ids pid) <->
  In tid ids /\ has_post_tag db pid tid = true.
Proof.
  unfold Sql.matched_tag_ids. rewrite in_map_iff, has_post_tag_In. split.
  - intros [pt [<- Hpt]]. apply filter_In in Hpt. destruct Hpt as [Hpt E].
    apply andb_true_iff in E. destruct E as [E1 E2].
    apply Z.eqb_eq in E1. apply mem_In in E2. split; [assumption|].
    destruct pt; simpl in *. now subst.
  - intros [Hi Hpt]. exists (mk_pt pid tid). split; [reflexivity|].
    apply filter_In. split; [assumption|]. simpl.
    rewrite Z.eqb_refl. simpl. now apply mem_In.
Qed.

(** The HAVING clause keeps the posts attached to every identifier. *)
Lemma having_all_spec (db : DB) (ids : list Z) (p : post_row) :
  NoDup ids -> ids <> [] ->
  (Sql.having_all db ids (Sql.zlen ids) p = true <->
   forall tid, In tid ids -> has_post_tag db (p_id p) tid = true).
Proof.
  intros Hnd Hne. unfold Sql.having_all, Sql.zlen.
  set (m := Sql.matched_tag_ids db ids (p_id p)).
  assert (Hincl : incl (Sql.distinct m) ids).
  { intros x Hx. apply (proj1 (distinct_In _ _)) in Hx.
    apply (proj1 (matched_tag_ids_In _ _ _ _)) in Hx. tauto. }
  rewrite andb_true_iff, negb_true_iff, Z.eqb_neq, Z.eqb_eq. split.
  - intros [_ Hlen] tid Htid.
    assert (Hrev : incl ids (Sql.distinct m)).
    { apply NoDup_length_incl; [apply distinct_NoDup | lia | assumption]. }
    apply Hrev in Htid. apply (proj1 (distinct_In _ _)) in Htid.
    apply (proj1 (matched_tag_ids_In _ _ _ _)) in Htid. tauto.
  - intros Hall.
    assert (Hrev : incl ids (Sql.distinct m)).
    { intros x Hx. apply (proj2 (distinct_In _ _)).
      apply (proj2 (matched_tag_ids_In _ _ _ _)). auto. }
    split.
    + destruct ids as [|x ids]; [congruence|].
      assert (Hx : In x m)
        by (apply (proj1 (distinct_In _ _)), Hrev; now left).
      destruct m; [contradiction | simpl; lia].
    + f_equal. apply Nat.le_antisymm; apply NoDup_incl_length;
        auto using distinct_NoDup.
Qed.

Lemma tagged_spec (db : DB) (pid : Z) (name : string) :
  tagged db pid name = true <->
  exists t, In t (tags db) /\ t_name t = name /\
            has_post_tag db pid (t_id t) = true.
Proof.
  unfold tagged. rewrite existsb_exists. split.
  - intros [t [Ht E]]. apply andb_true_iff in E. destruct E as [E1 E2].
    apply String.eqb_eq in E1. eauto.
  - intros [t [Ht [E1 E2]]]. exists t. split; [assumption|].
    apply andb_true_iff. split; [now apply String.eqb_eq | assumption].
Qed.

Lemma tag_ids_in_In (db : DB) (names : list string) (tid : Z) :
  In tid (Sql.q_select_tag_ids_in db names) <->
  exists t, In t (tags db) /\ In (t_name t) names /\ t_id t = tid.
Proof.
  unfold Sql.q_select_tag_ids_in. rewrite in_map_iff. split.
  - intros [t [E Ht]]. apply filter_In in Ht. destruct Ht as [Ht Hn].
    apply inb_In in Hn. eauto.
  - intros [t [Ht [Hn E]]]. exists t. split; [assumption|].
    apply filter_In. split; [assumption | now apply inb_In].
Qed.

(** Being attached to every resolved identifier is being tagged with
    every requested name. *)
Lemma all_ids_all_names (db : DB) (names : list string) (pid : Z) :
  integrity db ->
  (forall n, In n names -> in_vocabulary db n = true) ->
  ((forall tid, In tid (Sql.q_select_tag_ids_in db names) ->
                has_post_tag db pid tid = true) <->
   (forall n, In n names -> tagged db pid n = true)).
Proof.
  intros I Hvoc. split.
  - intros H n Hn. specialize (Hvoc n Hn). apply inb_In in Hvoc.
    apply in_map_iff in Hvoc. destruct Hvoc as [t [E Ht]].
    apply tagged_spec. exists t. repeat split; auto.
    apply H, tag_ids_in_In. exists t. rewrite E. auto.
  - intros H tid Htid. apply tag_ids_in_In in Htid.
    destruct Htid as [t [Ht [Hn <-]]].
    specialize (H _ Hn). apply tagged_spec in H.
    destruct H as [t' [Ht' [E H]]].
    now rewrite (NoDup_map_inj t_name (tags db) t t'
                   (tags_name_unique db I) Ht Ht' (eq_sym E)).
Qed.

Lemma tag_ids_in_NoDup (db : DB) (names : list string) :
  integrity db -> NoDup (Sql.q_select_tag_ids_in db names).
Proof. intros I. apply NoDup_map_filter, (tags_key db I). Qed.

Lemma having_all_names (db : DB) (names : list string) (p : post_row) :
  integrity db -> names <> [] -> NoDup names ->
  (forall n, In n names -> in_vocabulary db n = true) ->
  let ids := Sql.q_select_tag_ids_in db names in
  Sql.having_all db ids (Sql.zlen ids) p
  = forallb (tagged db (p_id p)) names.
Proof.
  intros I Hne Hnd Hvoc ids.
  assert (Hlen := resolved_same_length db names I Hnd Hvoc).
  assert (Hids : ids <> []).
  { subst ids. intros E. rewrite E in Hlen. destruct names; [congruence|].
    discriminate. }
  apply eq_true_iff_eq.
  rewrite (having_all_spec db ids p (tag_ids_in_NoDup db names I) Hids).
  subst ids. rewrite (all_ids_all_names db names (p_id p) I Hvoc).
  rewrite forallb_forall. tauto.
Qed.

(** ** The search as a whole *)

Lemma matching_at_page (db : DB) (q : query) (page : Z) :
  full_result db (at_page q page) = full_result db q.
Proof. reflexivity. Qed.

(** What a search resolves to: the page's slice of the full result; the
    count is the size of the full result when the database is sound. *)
Lemma search_form (db : DB) (q : query) (log : list stmt) :
  offset_of q < 2 ^ 63 ->
  exists total w',
    search q (world db log) =
    Resolved
      ((Sql.limit_offset limit (offset_of q) (full_result db q), total), w') /\
    w_db w' = db /\
    (integrity db -> total = Sql.zlen (full_result db q)).
Proof.
  intros Ho. unfold full_result, matching.
  destruct (tagsQuery_of q) as [|t ts] eqn:E.
  - do 2 eexists. split; [apply (search_no_tags q db log E Ho)|].
    split; [reflexivity|]. intros I. unfold Sql.q_count_posts, Sql.zlen.
    rewrite sort_by_length, <- (left_join_posts db I), length_map.
    reflexivity.
  - assert (Hne : tagsQuery_of q <> []) by (rewrite E; discriminate).
    destruct (Nat.eqb_spec
                (List.length (Sql.q_select_tag_ids_in db (normTags_of q)))
                (List.length (normTags_of q))) as [Hlen|Hlen].
    + do 2 eexists. split; [apply (search_resolved q db log Hne Hlen Ho)|].
      split; [reflexivity|]. intros I.
      unfold Sql.q_count_posts_tagged, Sql.zlen at 1 3.
      rewrite sort_by_length, <- (tagged_rows_posts db _ _ I), length_map.
      reflexivity.
    + rewrite (search_unresolved q db log Hne Hlen).
      exists 0, (world db (log ++ [SelectTagIdsIn (normTags_of q)])).
      split; [|split; reflexivity].
      simpl Sql.sort_by. unfold Sql.limit_offset, limit. simpl (12 <? 0).
      rewrite skipn_nil, firstn_nil. reflexivity.
Qed.

(** Whenever a search resolves, it resolves to that form. *)
Lemma search_resolved_inv (db : DB) (q : query) (log : list stmt)
    (ps : list post_result) (total : Z) (w' : World) :
  search q (world db log) = Resolved ((ps, total), w') ->
  ps = Sql.limit_offset limit (offset_of q) (full_result db q) /\
  w_db w' = db /\
  (integrity db -> total = Sql.zlen (full_result db q)).
Proof.
  intros E. destruct (Z.lt_ge_cases (offset_of q) (2 ^ 63)) as [Ho|Ho].
  - destruct (search_form db q log Ho) as [t [w1 [E1 [Hdb Ht]]]].
    rewrite E1 in E. injection E as <- <- <-. auto.
  - destruct (tagsQuery_of q) as [|t ts] eqn:Et.
    + rewrite (search_rejected q db log Ho) in E; [discriminate|].
      rewrite Et. congruence.
    + assert (Hne : tagsQuery_of q <> []) by (rewrite Et; discriminate).
      destruct (Nat.eqb_spec
                  (List.length (Sql.q_select_tag_ids_in db (normTags_of q)))
                  (List.length (normTags_of q))) as [Hlen|Hlen].
      * rewrite (search_rejected q db log Ho) in E; [discriminate | auto].
      * rewrite (search_unresolved q db log Hne Hlen) in E.
        injection E as <- <- <-.
        assert (Hf : full_result db q = []).
        { unfold full_result, matching. rewrite Et.
          apply Nat.eqb_neq in Hlen. rewrite Hlen. reflexivity. }
        rewrite Hf. split; [|split; [reflexivity | reflexivity]].
        unfold Sql.limit_offset, limit. simpl (12 <? 0).
        now rewrite skipn_nil, firstn_nil.
Qed.



Lemma search_page (db : DB) (q : query) (log : list stmt) (page : Z) :
  page <= max_page ->
  exists total w',
    search (at_page q page) (world db log) =
    Resolved ((page_slice page (full_result db q), total), w') /\
    w_db w' = db /\
    (integrity db -> total = Sql.zlen (full_result db q)).
Proof.
  intros H.
  destruct (search_form db (at_page q page) log) as [t [w' [E Hr]]].
  { apply (offset_exact _ (at_page_exact q page H)). }
  rewrite limit_offset_page in E by exact H.
  exists t, w'. split; [exact E | exact Hr].
Qed.

Lemma sort_by_map_In {A B} (le : A -> A -> bool) (f : A -> B) (l : list A)
    (y : B) :
  In y (map f (Sql.sort_by le l)) <-> In y (map f l).
Proof.
  rewrite !in_map_iff. split; intros [x [E H]]; exists x;
    (split; [assumption|]); now apply (sort_by_In le l x).
Qed.

(** The posts of the full result, when distinct names all resolve. *)
Lemma full_result_posts (db : DB) (q : query) (p : post_row) :
  integrity db -> normTags_of q <> [] -> NoDup (normTags_of q) ->
  (forall n, In n (normTags_of q) -> in_vocabulary db n = true) ->
  (In p (map r_post (full_result db q)) <->
   In p (posts db) /\
   forall n, In n (normTags_of q) -> tagged db (p_id p) n = true).
Proof.
  intros I Hne Hnd Hvoc.
  assert (Hlen := resolved_same_length db _ I Hnd Hvoc).
  unfold full_result, matching.
  destruct (tagsQuery_of q) as [|t ts] eqn:E.
  { unfold normTags_of in Hne. rewrite E in Hne. now contradiction Hne. }
  apply Nat.eqb_eq in Hlen. rewrite Hlen.
  rewrite sort_by_map_In.
  rewrite (tagged_rows_posts db _ _ I), filter_In.
  rewrite (having_all_names db _ p I Hne Hnd Hvoc), forallb_forall.
  tauto.
Qed.

Lemma full_result_perm (db : DB) (q : query) :
  integrity db -> normTags_of q <> [] -> NoDup (normTags_of q) ->
  (forall n, In n (normTags_of q) -> in_vocabulary db n = true) ->
  Permutation (map r_post (full_result db q))
    (filter (fun p => forallb (tagged db (p_id p)) (normTags_of q))
       (posts db)).
Proof.
  intros I Hne Hnd Hvoc.
  assert (Hlen := resolved_same_length db _ I Hnd Hvoc).
  unfold full_result, matching.
  destruct (tagsQuery_of q) as [|t ts] eqn:E.
  { unfold normTags_of in Hne. rewrite E in Hne. now contradiction Hne. }
  apply Nat.eqb_eq in Hlen. rewrite Hlen.
  rewrite (Permutation_map r_post (sort_by_perm _ _)).
  rewrite (tagged_rows_posts db _ _ I).
  erewrite filter_ext; [reflexivity|].
  intros p. apply (having_all_names db _ p I Hne Hnd Hvoc).
Qed.

(** C1, as the claim states it, fails twice.  On a list that repeats a
    name: [#cat] resolves, P1 and P2 are tagged with it, and the search
    for [cat,cat] returns no post, whatever the page.  And by pagination:
    of thirteen posts tagged [#cat], the search for [cat] returns twelve,
    and the oldest is not among them. *)
Lemma search_misses_tagged_posts :
  wf_db db_cats = true /\ wf_db db_many = true /\
  (forall n, In n (normTags_of q_cat_cat) ->
             in_vocabulary db_cats n = true) /\
  (forall page, search_posts db_cats (at_page q_cat_cat page) = []) /\
  (exists p, In p (posts db_cats) /\
     forall n, In n (normTags_of q_cat_cat) ->
               tagged db_cats (p_id p) n = true) /\
  (exists p, In p (posts db_many) /\
     (forall n, In n (normTags_of q_cat) ->
                tagged db_many (p_id p) n = true) /\
     ~ In p (map r_post (search_posts db_many q_cat))).
Proof.
  do 2 (split; [reflexivity|]). split; [|split; [|split]].
  - intros n [<-|[<-|[]]]; reflexivity.
  - intros page. unfold search_posts.
    rewrite (search_unresolved (at_page q_cat_cat page) db_cats []);
      [reflexivity | discriminate | vm_compute; lia].
  - exists (mk_post 1 100). split; [now left|].
    intros n [<-|[<-|[]]]; reflexivity.
  - exists (mk_post 1 1). split; [now left|]. split.
    + intros n [<-|[]]. reflexivity.
    + intros H. vm_compute in H.
      repeat (destruct H as [H|H]; [discriminate|]). exact H.
Qed.

(** C1, amended: for a non-empty list of tag names, pairwise distinct once
    normalized, that all resolve, on a table of at most [12 * max_page]
    posts.  The search resolves on every page up to [max_page]; whenever
    it resolves, the count is the number of posts tagged with every
    requested name and a returned row is a post tagged with every
    requested name; every such post is returned on some page up to
    [max_page]. *)
Theorem search_contains_all (db : DB) (q : query) (log : list stmt) :
  wf_db db = true ->
  normTags_of q <> [] ->
  NoDup (normTags_of q) ->
  (forall n, In n (normTags_of q) -> in_vocabulary db n = true) ->
  Sql.zlen (posts db) <= 12 * max_page ->
  (forall page, page <= max_page -> exists ps total w',
      search (at_page q page) (world db log) = Resolved ((ps, total), w')) /\
  (forall page ps total w',
      search (at_page q page) (world db log) = Resolved ((ps, total), w') ->
      total = Sql.zlen (filter (fun p => forallb (tagged db (p_id p))
                                           (normTags_of q)) (posts db)) /\
      forall r, In r ps ->
        In (r_post r) (posts db) /\
        forall n, In n (normTags_of q) ->
          tagged db (p_id (r_post r)) n = true) /\
  (forall p, In p (posts db) ->
      (forall n, In n (normTags_of q) -> tagged db (p_id p) n = true) ->
      exists page ps total w',
        1 <= page <= max_page /\
        search (at_page q page) (world db log) = Resolved ((ps, total), w') /\
        In p (map r_post ps)).
Proof.
  intros Hwf Hne Hnd Hvoc Hsize. apply wf_db_integrity in Hwf.
  pose proof (fun p => full_result_posts db q p Hwf Hne Hnd Hvoc) as Hfull.
  assert (Hlen : Sql.zlen (full_result db q)
                 = Sql.zlen (filter (fun p => forallb (tagged db (p_id p))
                                              (normTags_of q)) (posts db))).
  { unfold Sql.zlen. f_equal. rewrite <- (length_map r_post).
    apply Permutation_length, full_result_perm; assumption. }
  split; [|split].
  - intros page Hpage.
    destruct (search_page db q log page Hpage) as [total [w' [E _]]]. eauto.
  - intros page ps total w' E.
    apply search_resolved_inv in E. destruct E as [-> [_ Ht]].
    split.
    + rewrite (Ht Hwf), matching_at_page. exact Hlen.
    + intros r Hr. unfold Sql.limit_offset, limit in Hr.
      simpl (12 <? 0) in Hr. apply firstn_In, skipn_In in Hr.
      rewrite matching_at_page in Hr. apply Hfull, in_map, Hr.
  - intros p Hp Hall.
    assert (Hin : In p (map r_post (full_result db q))) by (apply Hfull; auto).
    apply in_map_iff in Hin. destruct Hin as [r [<- Hr]].
    destruct (page_slice_covers _ r Hr) as [page [Hpage [Hstart Hslice]]].
    assert (Hmax : page <= max_page).
    { rewrite Hlen in Hstart.
      assert (Sql.zlen (filter (fun p => forallb (tagged db (p_id p))
                                           (normTags_of q)) (posts db))
              <= Sql.zlen (posts db)).
      { unfold Sql.zlen. apply inj_le, filter_length_le. }
      lia. }
    destruct (search_page db q log page Hmax) as [total [w' [E _]]].
    exists page, (page_slice page (full_result db q)), total, w'.
    repeat split; auto. apply in_map, Hslice.
Qed.

Lemma search_contains_all_witness :
  wf_db db_cats = true /\
  forall p, In p (posts db_cats) ->
    (forall n, In n (normTags_of q_cat_dog) ->
               tagged db_cats (p_id p) n = true) ->
    exists page ps total w',
      1 <= page <= max_page /\
      search (at_page q_cat_dog page) (world db_cats [])
      = Resolved ((ps, total), w') /\
      In p (map r_post ps).
Proof.
  split; [reflexivity|].
  apply (search_contains_all db_cats q_cat_dog []).
  - reflexivity.
  - discriminate.
  - apply (nodupb_NoDup String.eqb String.eqb_eq). reflexivity.
  - intros n [<-|[<-|[]]]; reflexivity.
  - vm_compute. discriminate.
Defined.

(** C2.  When a requested name, once normalized, has no vocabulary entry,
    the search resolves to no posts and a count of zero, after the one
    statement that resolves the names: no statement over [post_tags] is
    issued; and the page is rendered, without posts. *)
Theorem search_unknown_tag_is_empty (db : DB) (q : query) (log : list stmt)
    (n : string) :
  wf_db db = true ->
  In n (normTags_of q) ->
  in_vocabulary db n = false ->
  (exists w',
      search q (world db log) = Resolved (([], 0), w') /\
      w_db w' = db /\
      w_log w' = log ++ [SelectTagIdsIn (normTags_of q)] /\
      existsb touches_post_tags [SelectTagIdsIn (normTags_of q)] = false) /\
  (exists v w'',
      get_home q (world db log) = Resolved (RenderIndex v, w'') /\
      v_posts v = [] /\ v_totalPages v = 1).
Proof.
  intros Hwf Hn Habs. apply wf_db_integrity in Hwf.
  assert (Hne : tagsQuery_of q <> []).
  { unfold normTags_of in Hn. destruct (tagsQuery_of q); [contradiction|].
    discriminate. }
  pose proof (unresolved_shorter db _ n Hwf Hn Habs) as Hlt.
  assert (Hlen : List.length (Sql.q_select_tag_ids_in db (normTags_of q))
                 <> List.length (normTags_of q)) by lia.
  pose proof (search_unresolved q db log Hne Hlen) as E.
  split.
  - eexists. split; [exact E|]. repeat split.
  - unfold get_home. unfold bind at 1. rewrite E.
    cbn [fst snd with_tags]. unfold bind, ret, select. cbn.
    do 2 eexists. split; [reflexivity|]. split; reflexivity.
Qed.

Lemma search_unknown_tag_is_empty_witness :
  in_vocabulary db_cats "#zzz" = false /\
  exists w',
    search q_cat_zzz (world db_cats []) = Resolved (([], 0), w') /\
    w_db w' = db_cats /\
    w_log w' = [] ++ [SelectTagIdsIn (normTags_of q_cat_zzz)] /\
    existsb touches_post_tags [SelectTagIdsIn (normTags_of q_cat_zzz)] = false.
Proof.
  split; [reflexivity|].
  apply (search_unknown_tag_is_empty db_cats q_cat_zzz [] "#zzz").
  - reflexivity.
  - simpl. auto.
  - reflexivity.
Defined.

(** C3 at the failing input: the search for [cat,cat] (what the search
    box sends for the text [cat cat]) resolves to nothing while the search
    for [cat] resolves to both posts. *)
Theorem search_repeated_name_differs :
  wf_db db_cats = true /\
  on_enter "cat cat" = "#cat,#cat" /\
  normTags_of q_cat_cat = ["#cat"; "#cat"] /\
  normTags_of (with_tags_param q_empty (on_enter "cat cat"))
  = ["#cat"; "#cat"] /\
  search q_cat_cat (world db_cats [])
  = Resolved (([], 0), world db_cats [SelectTagIdsIn ["#cat"; "#cat"]]) /\
  exists r2 r1 w',
    search q_cat (world db_cats []) = Resolved (([r2; r1], 2), w') /\
    p_id (r_post r2) = 2 /\ p_id (r_post r1) = 1.
Proof.
  do 5 (split; [reflexivity|]).
  do 3 eexists. split; [vm_compute; reflexivity|]. split; reflexivity.
Qed.

(** A search without tags matches every post: the full result holds each
    post of the table once, and the count is the size of the table. *)
Lemma search_no_tags_matches_every_post (db : DB) (q : query) :
  integrity db -> tagsQuery_of q = [] ->
  Permutation (map r_post (full_result db q)) (posts db) /\
  forall page log, page <= max_page -> exists w',
    search (at_page q page) (world db log)
    = Resolved ((page_slice page (full_result db q),
                 Sql.zlen (posts db)), w').
Proof.
  intros I E. split.
  - unfold full_result, matching. rewrite E.
    rewrite (Permutation_map r_post (sort_by_perm _ _)).
    now rewrite (left_join_posts db I).
  - intros page log Hpage.
    rewrite (search_no_tags (at_page q page) db log E)
      by apply (offset_exact _ (at_page_exact q page Hpage)).
    eexists. rewrite limit_offset_page by exact Hpage.
    unfold full_result, matching. rewrite E. reflexivity.
Qed.


Lemma row_le_total (o : order_by) (a b : post_result) :
  Sql.row_le o a b = true \/ Sql.row_le o b a = true.
Proof. destruct o; simpl; lia. Qed.

Lemma row_le_trans (o : order_by) (a b c : post_result) :
  Sql.row_le o a b = true -> Sql.row_le o b c = true ->
  Sql.row_le o a c = true.
Proof. destruct o; simpl; lia. Qed.



(** C6, as the claim states it, fails: sorted by likes, two posts nobody
    liked come out with the older one first. *)
Lemma search_likes_ties_oldest_first :
  wf_db db_cats = true /\
  exists ps total w',
    search q_likes (world db_cats []) = Resolved ((ps, total), w') /\
    map created ps = [100; 200] /\
    map r_likes_count ps = [0; 0] /\
    ~ ties_newest_first ps.
Proof.
  split; [reflexivity|].
  do 3 eexists. split; [vm_compute; reflexivity|].
  split; [reflexivity|]. split; [reflexivity|].
  intros H. specialize (H 0%nat 1%nat _ _ (Nat.lt_0_1) eq_refl eq_refl eq_refl).
  vm_compute in H. apply H. reflexivity.
Qed.

(** C6, amended: the tie-break is dropped.  A search resolves on every
    page up to [max_page]; and whenever a search resolves, its rows are
    in the order of the requested key: creation time ascending for
    [oldest], like count descending for [likes], creation time descending
    for anything else. *)
Theorem search_ordered (db : DB) (q : query) (log : list stmt) :
  (page_of q <= max_page ->
   exists ps total w',
     search q (world db log) = Resolved ((ps, total), w')) /\
  forall ps total w',
    search q (world db log) = Resolved ((ps, total), w') ->
    (q_sort q = Some "oldest" ->
     StronglySorted (fun a b => created a <= created b) ps) /\
    (q_sort q = Some "likes" ->
     StronglySorted (fun a b => r_likes_count b <= r_likes_count a) ps) /\
    (q_sort q <> Some "oldest" -> q_sort q <> Some "likes" ->
     StronglySorted (fun a b => created b <= created a) ps).
Proof.
  split.
  { intros Hpage.
    destruct (search_form db q log (proj2 (offset_exact q Hpage)))
      as [total [w' [E _]]].
    eauto. }
  intros ps total w' E. apply search_resolved_inv in E.
  destruct E as [-> _].
  assert (Hs : StronglySorted
                 (fun a b => Sql.row_le (sort_of q) a b = true)
                 (Sql.limit_offset limit (offset_of q) (full_result db q))).
  { unfold Sql.limit_offset, limit. simpl (12 <? 0).
    apply StronglySorted_firstn, StronglySorted_skipn.
    apply sort_by_sorted; [apply row_le_total | apply row_le_trans]. }
  unfold sort_of, is_str in Hs. repeat split.
  - intros Eq. rewrite Eq in Hs. simpl in Hs.
    eapply StronglySorted_impl; [|exact Hs].
    intros a b. unfold created. apply Z.leb_le.
  - intros Eq. rewrite Eq in Hs. simpl in Hs.
    eapply StronglySorted_impl; [|exact Hs].
    intros a b. apply Z.leb_le.
  - intros N1 N2.
    assert (Hd : forall s, q_sort q <> Some s ->
               match q_sort q with
               | Some y => String.eqb y s
               | None => false
               end = false).
    { intros s N. destruct (q_sort q) as [y|]; [|reflexivity].
      apply String.eqb_neq. congruence. }
    rewrite (Hd _ N1), (Hd _ N2) in Hs. simpl in Hs.
    eapply StronglySorted_impl; [|exact Hs].
    intros a b. unfold created. apply Z.leb_le.
Qed.

Lemma search_ordered_witness :
  exists ps total w',
    search q_likes (world db_votes []) = Resolved ((ps, total), w') /\
    map (fun r => p_id (r_post r)) ps = [2; 3; 1] /\
    map r_likes_count ps = [2; 1; 0] /\
    StronglySorted (fun a b => r_likes_count b <= r_likes_count a) ps.
Proof.
  destruct (search_ordered db_votes q_likes []) as [Hres Hsorted].
  destruct Hres as [ps [total [w' E]]]; [vm_compute; discriminate|].
  pose proof (proj1 (proj2 (Hsorted ps total w' E)) eq_refl) as Hs.
  exists ps, total, w'. split; [exact E|].
  vm_compute in E. injection E as <- <- <-.
  split; [reflexivity|]. split; [reflexivity | exact Hs].
Defined.

(** ** Replacing the tags of a post *)

Lemma max_list_ge (l : list Z) (x : Z) : In x l -> x <= Sql.max_list l.
Proof.
  induction l as [|y l IH]; simpl; [contradiction|].
  intros [->|H]; [lia | specialize (IH H); lia].
Qed.

Lemma next_rowid_fresh (seq : Z) (ids : list Z) :
  ~ In (Sql.next_rowid seq ids) ids.
Proof.
  intros H. apply max_list_ge in H. unfold Sql.next_rowid in H. lia.
Qed.

Lemma NoDup_snoc {A} (l : list A) (x : A) :
  NoDup l -> ~ In x l -> NoDup (l ++ [x]).
Proof.
  intros Hl Hx. apply NoDup_app; [assumption | repeat constructor; auto |].
  intros y Hy [<-|[]]. contradiction.
Qed.

Lemma tag_row_eta (t : tag_row) : mk_tag (t_id t) (t_name t) = t.
Proof. destruct t. reflexivity. Qed.

(** [ensureTagIds] resolves; it only appends rows, named after requested
    names, keeps both keys of the vocabulary, and gives each name the
    identifier of its row. *)
Lemma ensureTagIds_spec (names : list string) (w : World) :
  NoDup (map t_id (tags (w_db w))) ->
  NoDup (map t_name (tags (w_db w))) ->
  exists ids w',
    ensureTagIds names w = Resolved (ids, w') /\
    NoDup (map t_id (tags (w_db w'))) /\
    NoDup (map t_name (tags (w_db w'))) /\
    (exists new, tags (w_db w') = tags (w_db w) ++ new /\
                 forall t, In t new -> In (t_name t) names) /\
    Forall2 (fun n id => In (mk_tag id n) (tags (w_db w'))) names ids /\
    users (w_db w') = users (w_db w) /\
    posts (w_db w') = posts (w_db w) /\
    post_tags (w_db w') = post_tags (w_db w).
Proof.
  revert w. induction names as [|n rest IH]; intros w Hid Hname.
  - exists [], w. simpl. unfold ret. repeat split; auto.
    exists []. rewrite app_nil_r. split; [reflexivity | intros t []].
  - destruct (find (fun t => String.eqb (t_name t) n) (tags (w_db w)))
      as [t|] eqn:F.
    + rewrite (ensureTagIds_known n rest w t F).
      set (w1 := logged (SelectTagIdByName n) w (w_db w)).
      destruct (IH w1 Hid Hname)
        as [ids [w' [E [Hid' [Hname' [[new [Hnew Hin]] [Hf [Hu [Hp Hpt]]]]]]]]].
      exists (t_id t :: ids), w'. unfold bind. rewrite E. unfold ret.
      repeat split; auto.
      * exists new. split; [exact Hnew|]. intros x Hx. right. auto.
      * constructor; [|assumption].
        apply find_name_some in F. destruct F as [Ht <-].
        rewrite tag_row_eta, Hnew. apply in_or_app. now left.
    + apply find_name_none in F. rewrite (ensureTagIds_new n rest w F).
      set (id := Sql.next_rowid (seq_tags (w_db w))
                   (map t_id (tags (w_db w)))).
      set (w1 := logged (InsertTag n)
                   (logged (SelectTagIdByName n) w (w_db w))
                   (set_tags (w_db w) (tags (w_db w) ++ [mk_tag id n]) id)).
      assert (Hid1 : NoDup (map t_id (tags (w_db w1)))).
      { simpl. rewrite map_app. apply NoDup_snoc; [assumption|].
        apply next_rowid_fresh. }
      assert (Hname1 : NoDup (map t_name (tags (w_db w1)))).
      { simpl. rewrite map_app. apply NoDup_snoc; assumption. }
      destruct (IH w1 Hid1 Hname1)
        as [ids [w' [E [Hid' [Hname' [[new [Hnew Hin]] [Hf [Hu [Hp Hpt]]]]]]]]].
      exists (id :: ids), w'. unfold bind. rewrite E. unfold ret.
      repeat split; auto.
      * exists (mk_tag id n :: new). split.
        -- rewrite Hnew. simpl. rewrite <- app_assoc. reflexivity.
        -- intros x [<-|Hx]; [now left | right; auto].
      * constructor; [|assumption].
        rewrite Hnew. simpl. apply in_or_app. left.
        apply in_or_app. right. now left.
Qed.

Lemma pt_row_eta (pt : post_tag_row) :
  mk_pt (pt_post_id pt) (pt_tag_id pt) = pt.
Proof. destruct pt. reflexivity. Qed.

(** [attachTagsToPost] resolves; it adds the missing pairs and nothing
    else. *)
Lemma attachTagsToPost_spec (pid : Z) (ids : list Z) (w : World) :
  exists w',
    attachTagsToPost pid ids w = Resolved (tt, w') /\
    tags (w_db w') = tags (w_db w) /\
    users (w_db w') = users (w_db w) /\
    posts (w_db w') = posts (w_db w) /\
    (NoDup (post_tags (w_db w)) -> NoDup (post_tags (w_db w'))) /\
    (forall pt, In pt (post_tags (w_db w')) <->
                In pt (post_tags (w_db w)) \/
                (pt_post_id pt = pid /\ In (pt_tag_id pt) ids)).
Proof.
  revert w. induction ids as [|tid rest IH]; intros w.
  - exists w. simpl. unfold ret. repeat split; auto. tauto.
  - simpl. unfold bind at 1, insert_or_ignore_post_tag.
    set (db1 := if has_post_tag (w_db w) pid tid then w_db w
                else set_post_tags (w_db w)
                       (post_tags (w_db w) ++ [mk_pt pid tid])).
    set (w1 := logged (InsertOrIgnorePostTag pid tid) w db1).
    destruct (IH w1) as [w' [E [Ht [Hu [Hp [Hnd Hin]]]]]].
    exists w'. split; [exact E|].
    assert (H1 : tags db1 = tags (w_db w) /\ users db1 = users (w_db w) /\
                 posts db1 = posts (w_db w) /\
                 (NoDup (post_tags (w_db w)) -> NoDup (post_tags db1)) /\
                 forall pt, In pt (post_tags db1) <->
                            In pt (post_tags (w_db w)) \/ pt = mk_pt pid tid).
    { subst db1. destruct (has_post_tag (w_db w) pid tid) eqn:Eh.
      - do 4 (split; [auto|]). intros pt. split; [tauto|].
        intros [H| ->]; [assumption | now apply has_post_tag_In].
      - simpl. do 3 (split; [reflexivity|]). split.
        + intros H. apply NoDup_snoc; [assumption|].
          intros F. apply has_post_tag_In in F. congruence.
        + intros pt. rewrite in_app_iff. simpl. split.
          * intros [H|[<-|[]]]; auto.
          * intros [H| ->]; auto. }
    destruct H1 as [Ht1 [Hu1 [Hp1 [Hnd1 Hin1]]]].
    simpl w_db in *. do 3 (split; [congruence|]). split; [auto|].
    intros pt. split.
    + intros H. apply Hin in H. destruct H as [H|[H1 H2]].
      * apply Hin1 in H. destruct H as [H| ->]; [now left|].
        right. simpl. auto.
      * right. simpl. auto.
    + intros [H|[H1 H2]]; apply Hin.
      * left. apply Hin1. now left.
      * destruct H2 as [H2|H2].
        -- left. apply Hin1. right. rewrite <- H1, H2. symmetry.
           apply pt_row_eta.
        -- right. auto.
Qed.

Lemma pairs_of_post_In (db : DB) (pid : Z) (pt : post_tag_row) :
  In pt (Sql.pairs_of_post db pid) <->
  In pt (post_tags db) /\ (pt_post_id pt =? pid) = true.
Proof. unfold Sql.pairs_of_post. now rewrite sort_by_In, filter_In. Qed.

(** The order apart, the names are those of the pairs of the post as the
    table lists them. *)
Lemma tag_names_of_post_perm (db : DB) (pid : Z) :
  Permutation (Sql.q_select_tag_names_of_post db pid)
    (flat_map (fun pt =>
       map t_name (filter (fun t => t_id t =? pt_tag_id pt) (tags db)))
       (filter (fun pt => pt_post_id pt =? pid) (post_tags db))).
Proof.
  unfold Sql.q_select_tag_names_of_post, Sql.pairs_of_post.
  apply Permutation_flat_map, sort_by_perm.
Qed.

(** The names the tag query of a post returns. *)
Lemma tag_names_of_post_In (db : DB) (pid : Z) (n : string) :
  In n (Sql.q_select_tag_names_of_post db pid) <->
  exists t, In t (tags db) /\ t_name t = n /\
            In (mk_pt pid (t_id t)) (post_tags db).
Proof.
  unfold Sql.q_select_tag_names_of_post. rewrite in_flat_map. split.
  - intros [pt [Hpt Hn]]. apply pairs_of_post_In in Hpt.
    destruct Hpt as [Hpt E].
    apply Z.eqb_eq in E. apply in_map_iff in Hn. destruct Hn as [t [Et Ht]].
    apply filter_In in Ht. destruct Ht as [Ht Eid]. apply Z.eqb_eq in Eid.
    exists t. repeat split; auto. rewrite Eid, <- E, pt_row_eta. exact Hpt.
  - intros [t [Ht [En Hpt]]]. exists (mk_pt pid (t_id t)). split.
    + apply pairs_of_post_In. split; [assumption | apply Z.eqb_refl].
    + apply in_map_iff. exists t. split; [assumption|].
      apply filter_In. split; [assumption | apply Z.eqb_refl].
Qed.

Lemma tag_names_of_post_NoDup_aux (ts : list tag_row) (pid : Z)
    (l : list post_tag_row) :
  NoDup (map t_id ts) -> NoDup (map t_name ts) -> NoDup l ->
  NoDup (flat_map (fun pt =>
           map t_name (filter (fun t => t_id t =? pt_tag_id pt) ts))
           (filter (fun pt => pt_post_id pt =? pid) l)).
Proof.
  intros Hid Hname. induction 1 as [|pt l Hpt Hl IH]; simpl; [constructor|].
  destruct (Z.eqb_spec (pt_post_id pt) pid) as [E|E]; [|assumption].
  simpl. apply NoDup_app.
  - apply NoDup_map_filter, Hname.
  - assumption.
  - intros n Hn1 Hn2. apply Hpt.
    apply in_map_iff in Hn1. destruct Hn1 as [t [Et Ht]].
    apply filter_In in Ht. destruct Ht as [Ht Eid]. apply Z.eqb_eq in Eid.
    apply in_flat_map in Hn2. destruct Hn2 as [pt' [Hpt' Hn2]].
    apply filter_In in Hpt'. destruct Hpt' as [Hpt' E'].
    apply Z.eqb_eq in E'.
    apply in_map_iff in Hn2. destruct Hn2 as [t' [Et' Ht']].
    apply filter_In in Ht'. destruct Ht' as [Ht' Eid'].
    apply Z.eqb_eq in Eid'.
    assert (t = t')
      by (apply (NoDup_map_inj t_name ts); auto; congruence).
    subst t'. rewrite <- (pt_row_eta pt), E, <- Eid, Eid', <- E', pt_row_eta.
    exact Hpt'.
Qed.

Lemma tag_names_of_post_NoDup (db : DB) (pid : Z) :
  NoDup (map t_id (tags db)) -> NoDup (map t_name (tags db)) ->
  NoDup (post_tags db) ->
  NoDup (Sql.q_select_tag_names_of_post db pid).
Proof.
  intros H1 H2 H3.
  eapply Permutation_NoDup;
    [symmetry; apply tag_names_of_post_perm|].
  now apply tag_names_of_post_NoDup_aux.
Qed.

(** ** Canonical names and the normalizer *)

Lemma split_ws_no_ws (s : string) (b : bool) (t : string) :
  In t (JS.split_ws_from b s) -> no_ws t = true.
Proof.
  revert b t. induction s as [|c s IH]; intros b t; simpl.
  - intros [<-|[]]. reflexivity.
  - destruct (JS.is_ws c) eqn:Ec.
    + destruct b; [apply IH|]. intros [<-|H]; [reflexivity | eapply IH, H].
    + destruct (JS.split_ws_from false s) as [|t0 r] eqn:Es.
      * intros [<-|[]]. unfold no_ws. simpl. now rewrite Ec.
      * intros [<-|H].
        -- unfold no_ws. simpl. rewrite Ec. simpl.
           apply (IH false t0). rewrite Es. now left.
        -- apply (IH false t). rewrite Es. now right.
Qed.

Lemma all_chars_drop_hashes (f : ascii -> bool) (s : string) :
  all_chars f s = true -> all_chars f (JS.drop_hashes s) = true.
Proof.
  induction s as [|c s IH]; simpl; [auto|].
  rewrite andb_true_iff. intros [Hc Hs].
  destruct (JS.is_hash c); [auto | simpl; now rewrite Hc, Hs].
Qed.

Lemma toLowerCase_no_ws (s : string) :
  no_ws s = true -> no_ws (JS.toLowerCase s) = true.
Proof.
  unfold no_ws. induction s as [|c s IH]; simpl; [auto|].
  rewrite !andb_true_iff, lower_char_ws. intuition.
Qed.

Lemma toLowerCase_idem (s : string) :
  JS.toLowerCase (JS.toLowerCase s) = JS.toLowerCase s.
Proof.
  induction s as [|c s IH]; simpl; [reflexivity|].
  now rewrite lower_char_idem, IH.
Qed.

(** The normalizer yields canonical names only. *)
Lemma parseTags_canonical (text t : string) :
  In t (parseTags text) -> canonical t = true.
Proof.
  intros H. apply parseTags_In in H.
  destruct H as [_ [tok [Htok [_ ->]]]].
  apply split_ws_no_ws in Htok. unfold no_ws in Htok.
  rewrite (trim_no_ws tok Htok).
  unfold canonical. rewrite !andb_true_iff. repeat split.
  - rewrite toLowerCase_head, drop_hashes_head. reflexivity.
  - apply toLowerCase_no_ws, all_chars_drop_hashes, Htok.
  - apply String.eqb_eq, toLowerCase_idem.
Qed.

Lemma parseTags_NoDup (text : string) : NoDup (parseTags text).
Proof.
  unfold parseTags. destruct (JS.truthy text); simpl; [|constructor].
  apply uniq_from_NoDup.
Qed.

Lemma canonical_parts (n : string) :
  canonical n = true ->
  exists rest, n = String "#" rest /\ JS.startsWith_hash rest = false /\
               no_ws rest = true /\ JS.toLowerCase rest = rest.
Proof.
  destruct n as [|c rest]; simpl; [discriminate|].
  rewrite !andb_true_iff, negb_true_iff. intros [[[Hc Hh] Hw] Hl].
  apply is_hash_eq in Hc. apply String.eqb_eq in Hl. subst c. eauto.
Qed.

Lemma drop_hashes_id (s : string) :
  JS.startsWith_hash s = false -> JS.drop_hashes s = s.
Proof. destruct s as [|c s]; simpl; [auto | intros ->; reflexivity]. Qed.

Lemma canonical_no_ws (n : string) : canonical n = true -> no_ws n = true.
Proof.
  intros H. destruct (canonical_parts n H) as [rest [-> [_ [Hw _]]]].
  exact Hw.
Qed.

(** A canonical name is left as it is by the normalization of a token. *)
Lemma canonical_fixed (n : string) :
  canonical n = true ->
  JS.trim n = n /\ JS.startsWith_hash n = true /\
  JS.toLowerCase (JS.replace_leading_hashes "#" n) = n.
Proof.
  intros H. pose proof (canonical_no_ws n H) as Hw.
  destruct (canonical_parts n H) as [rest [-> [Hh [_ Hl]]]].
  split; [apply trim_no_ws, Hw|]. split; [reflexivity|].
  rewrite normalize_marker_token by reflexivity.
  simpl. rewrite (drop_hashes_id rest Hh), Hl. reflexivity.
Qed.

Lemma append_empty (s : string) : (s ++ "")%string = s.
Proof. induction s as [|c s IH]; simpl; [reflexivity | now rewrite IH]. Qed.

Lemma split_ws_from_app (x s : string) :
  no_ws x = true ->
  JS.split_ws_from false (x ++ s)
  = match JS.split_ws_from false s with
    | t :: r => (x ++ t)%string :: r
    | [] => [x]
    end.
Proof.
  unfold no_ws. induction x as [|c x IH]; simpl.
  - intros _. destruct (JS.split_ws_from false s) eqn:E; [|reflexivity].
    exfalso. destruct s as [|d s]; simpl in E; [discriminate|].
    destruct (JS.is_ws d); [discriminate|].
    destruct (JS.split_ws_from false s); discriminate.
  - rewrite andb_true_iff, negb_true_iff. intros [Hc Hx].
    rewrite Hc, (IH Hx).
    destruct (JS.split_ws_from false s); reflexivity.
Qed.

Lemma join_head (x : string) (rest : list string) :
  exists tl, JS.join " " (x :: rest) = (x ++ tl)%string.
Proof.
  destruct rest as [|y rest].
  - exists "". simpl. now rewrite append_empty.
  - eexists. reflexivity.
Qed.

(** Joining whitespace-free, non-empty names with a space and splitting
    on whitespace gives the names back. *)
Lemma split_ws_join (names : list string) :
  names <> [] ->
  (forall n, In n names -> no_ws n = true /\ JS.truthy n = true) ->
  JS.split_ws (JS.join " " names) = names.
Proof.
  unfold JS.split_ws. induction names as [|x rest IH]; [congruence|].
  intros _ H. destruct (H x (or_introl eq_refl)) as [Hx _].
  destruct rest as [|y rest].
  - simpl. rewrite <- (append_empty x) at 1.
    rewrite (split_ws_from_app x "" Hx). simpl. now rewrite append_empty.
  - change (JS.join " " (x :: y :: rest))
      with (x ++ String " " (JS.join " " (y :: rest)))%string.
    rewrite (split_ws_from_app x _ Hx).
    assert (Hy : JS.split_ws_from true (JS.join " " (y :: rest))
                 = y :: rest).
    { transitivity (JS.split_ws_from false (JS.join " " (y :: rest)));
        [|apply IH; [discriminate | intros n Hn; apply H; now right]].
      destruct (H y (or_intror (or_introl eq_refl))) as [Hyw Hyt].
      destruct (join_head y rest) as [tl ->].
      destruct y as [|c y]; [discriminate|]. simpl.
      unfold no_ws in Hyw. simpl in Hyw. apply andb_true_iff in Hyw.
      destruct Hyw as [Hc _]. apply negb_true_iff in Hc. now rewrite Hc. }
    change (JS.split_ws_from false (String " " (JS.join " " (y :: rest))))
      with (EmptyString :: JS.split_ws_from true (JS.join " " (y :: rest))).
    rewrite Hy, append_empty. reflexivity.
Qed.

Lemma uniq_from_id (a seen : list string) :
  NoDup a -> (forall x, In x a -> ~ In x seen) -> JS.uniq_from seen a = a.
Proof.
  revert seen. induction a as [|x a IH]; intros seen Hnd Hs; simpl;
    [reflexivity|].
  inversion Hnd; subst.
  assert (E : JS.inb x seen = false) by (apply inb_false, Hs; now left).
  rewrite E. f_equal. apply IH; [assumption|].
  intros y Hy [<-|F]; [contradiction | apply (Hs y); [now right | assumption]].
Qed.

Lemma filter_all {A} (f : A -> bool) (l : list A) :
  (forall x, In x l -> f x = true) -> filter f l = l.
Proof.
  induction l as [|x l IH]; simpl; intros H; [reflexivity|].
  rewrite (H x (or_introl eq_refl)). f_equal. apply IH. auto.
Qed.

Lemma map_fixed {A} (f : A -> A) (l : list A) :
  (forall x, In x l -> f x = x) -> map f l = l.
Proof.
  induction l as [|x l IH]; simpl; intros H; [reflexivity|].
  rewrite (H x (or_introl eq_refl)). f_equal. apply IH. auto.
Qed.

(** The fallback of the edit route reads canonical names back as they
    are. *)
Lemma parseTags_join (names : list string) :
  NoDup names -> (forall n, In n names -> canonical n = true) ->
  parseTags (JS.join " " names) = names.
Proof.
  intros Hnd Hc. destruct names as [|x rest]; [reflexivity|].
  assert (Hne : x :: rest <> []) by discriminate.
  unfold parseTags.
  assert (Ht : JS.truthy (JS.join " " (x :: rest)) = true).
  { destruct (join_head x rest) as [tl ->].
    destruct (canonical_parts x (Hc x (or_introl eq_refl))) as [r [-> _]].
    reflexivity. }
  rewrite Ht. simpl negb. cbv iota.
  rewrite split_ws_join; [|assumption|].
  - rewrite (map_fixed JS.trim) by (intros n Hn; apply canonical_fixed; auto).
    rewrite filter_all by (intros n Hn; apply canonical_fixed; auto).
    rewrite map_fixed by (intros n Hn; apply canonical_fixed; auto).
    apply uniq_from_id; [assumption | intros y _ []].
  - intros n Hn. split; [apply canonical_no_ws; auto|].
    destruct (canonical_parts n (Hc n Hn)) as [r [-> _]]. reflexivity.
Qed.

(** ** The edit route *)

Lemma Forall2_In_l {A B} (P : A -> B -> Prop) (l : list A) (l' : list B)
    (x : A) :
  Forall2 P l l' -> In x l -> exists y, In y l' /\ P x y.
Proof.
  induction 1 as [|a b l l' Hab Hl IH]; simpl; [contradiction|].
  intros [<-|H]; [eauto|]. destruct (IH H) as [y [Hy Hp]]. eauto.
Qed.

Lemma Forall2_In_r {A B} (P : A -> B -> Prop) (l : list A) (l' : list B)
    (y : B) :
  Forall2 P l l' -> In y l' -> exists x, In x l /\ P x y.
Proof.
  induction 1 as [|a b l l' Hab Hl IH]; simpl; [contradiction|].
  intros [<-|H]; [eauto|]. destruct (IH H) as [x [Hx Hp]]. eauto.
Qed.

(** Delete, resolve-or-create, attach: the tail of the edit route.  On a
    sound database it resolves, leaves the database sound, keeps every
    vocabulary row, and leaves the post with exactly the given names. *)
Lemma retag_spec (pid : Z) (names : list string) (w : World) :
  integrity (w_db w) -> NoDup names ->
  (forall n, In n names -> canonical n = true) ->
  exists w',
    (delete_post_tags pid ;;;
     tagIds <- ensureTagIds names ;;
     attachTagsToPost pid tagIds ;;;
     ret (RedirectToPost pid)) w = Resolved (RedirectToPost pid, w') /\
    integrity (w_db w') /\
    (exists new, tags (w_db w') = tags (w_db w) ++ new) /\
    Permutation (Sql.q_select_tag_names_of_post (w_db w') pid) names.
Proof.
  intros I Hnd Hcan. unfold bind at 1, delete_post_tags.
  set (db1 := set_post_tags (w_db w)
                (filter (fun pt => negb (pt_post_id pt =? pid))
                   (post_tags (w_db w)))).
  set (w1 := logged (DeletePostTags pid) w db1).
  destruct (ensureTagIds_spec names w1 (tags_key _ I) (tags_name_unique _ I))
    as [ids [w2 [E2 [Hid2 [Hname2 [[new [Hnew Hin]] [Hf [Hu2 [Hp2 Hpt2]]]]]]]]].
  unfold bind at 1. rewrite E2.
  destruct (attachTagsToPost_spec pid ids w2)
    as [w3 [E3 [Ht3 [Hu3 [Hp3 [Hnd3 Hin3]]]]]].
  unfold bind at 1. rewrite E3. unfold ret. exists w3.
  simpl w_db in *.
  assert (Hpt1 : NoDup (post_tags (w_db w3))).
  { apply Hnd3. rewrite Hpt2. simpl. apply NoDup_filter, (post_tags_key _ I). }
  assert (Hmine : forall tid,
             In (mk_pt pid tid) (post_tags (w_db w3)) <-> In tid ids).
  { intros tid. rewrite Hin3, Hpt2. simpl. rewrite filter_In. simpl.
    rewrite Z.eqb_refl. simpl. intuition discriminate. }
  split; [reflexivity|]. split; [|split].
  - constructor.
    + rewrite Hu3, Hu2. apply (users_key _ I).
    + rewrite Hp3, Hp2. apply (posts_key _ I).
    + now rewrite Ht3.
    + now rewrite Ht3.
    + exact Hpt1.
    + rewrite Hu3, Hu2, Hp3, Hp2. apply (owners_exist _ I).
    + rewrite Ht3, Hnew. simpl. intros t Ht. apply in_app_or in Ht.
      destruct Ht as [Ht|Ht]; [apply (names_canonical _ I t Ht)|].
      apply Hcan, Hin, Ht.
  - exists new. now rewrite Ht3, Hnew.
  - apply NoDup_Permutation.
    + apply tag_names_of_post_NoDup; [rewrite Ht3| rewrite Ht3|]; assumption.
    + exact Hnd.
    + intros n. rewrite tag_names_of_post_In. split.
      * intros [t [Ht [<- Hpt]]]. apply Hmine in Hpt.
        destruct (Forall2_In_r _ _ _ _ Hf Hpt) as [n' [Hn' Hrow]].
        rewrite Ht3 in Ht.
        assert (E : mk_tag (t_id t) n' = t)
          by (apply (NoDup_map_inj t_id (tags (w_db w2))); auto).
        rewrite <- E. exact Hn'.
      * intros Hn. destruct (Forall2_In_l _ _ _ _ Hf Hn) as [id [Hid Hrow]].
        exists (mk_tag id n). rewrite Ht3.
        split; [exact Hrow|]. split; [reflexivity|]. now apply Hmine.
Qed.

Lemma select_post_by_id_spec (db : DB) (id : Z) (post : post_row) :
  Sql.q_select_post_by_id db id = Some post ->
  In post (posts db) /\ p_id post = id.
Proof.
  unfold Sql.q_select_post_by_id. intros H. apply find_some in H.
  destruct H as [H E]. apply Z.eqb_eq in E. auto.
Qed.

(** The edit route answers with the redirect only for the owner of an
    existing post. *)
Lemma post_edit_success_inv (session : option session_user) (id : Z)
    (body_tags : option string) (w w' : World) (pid : Z) :
  post_edit session id body_tags w = Resolved (RedirectToPost pid, w') ->
  exists user post,
    session = Some user /\
    Sql.q_select_post_by_id (w_db w) id = Some post /\
    p_user_id post = s_id user /\ pid = id.
Proof.
  unfold post_edit. destruct session as [user|]; [|discriminate].
  unfold bind at 1, select at 1.
  destruct (Sql.q_select_post_by_id (w_db w) id) as [post|] eqn:F;
    [|discriminate].
  destruct (Z.eqb_spec (p_user_id post) (s_id user)) as [E|E];
    [|discriminate].
  intros H. cbn [negb] in H. cbv beta iota in H. exists user, post.
  repeat split; auto.
  apply select_post_by_id_spec in F. destruct F as [_ <-].
  unfold bind in H.
  repeat match type of H with
         | context [match ?m with Resolved _ => _ | Rejected _ => _ end] =>
             destruct m as [[? ?]|]; [|discriminate]
         end.
  unfold ret in H. congruence.
Qed.

Lemma tagged_names (db : DB) (pid : Z) (n : string) :
  tagged db pid n = true <-> In n (Sql.q_select_tag_names_of_post db pid).
Proof.
  rewrite tagged_spec, tag_names_of_post_In.
  split; intros [t [Ht [E H]]]; exists t; repeat split; auto;
    now apply has_post_tag_In.
Qed.

Lemma or_else_some (text : string) : or_else (Some text) "" = text.
Proof. destruct text; reflexivity. Qed.

(** The edit route on an existing post of the session's user: its tail
    runs on the names [parseTags] yields for the chosen tag text. *)
Lemma post_edit_owner (db : DB) (log : list stmt) (user : session_user)
    (id : Z) (post : post_row) (body_tags : option string) :
  Sql.q_select_post_by_id db id = Some post ->
  p_user_id post = s_id user ->
  let w1 := logged (SelectPostById id) (world db log) db in
  post_edit (Some user) id body_tags (world db log) =
  if blank body_tags then
    (delete_post_tags id ;;;
     tagIds <- ensureTagIds
                 (parseTags (JS.join " " (Sql.q_select_tag_names_of_post db id))) ;;
     attachTagsToPost id tagIds ;;;
     ret (RedirectToPost id))
      (logged (SelectTagNamesOfPost id) w1 db)
  else
    (delete_post_tags id ;;;
     tagIds <- ensureTagIds (parseTags (or_else body_tags "")) ;;
     attachTagsToPost id tagIds ;;;
     ret (RedirectToPost id)) w1.
Proof.
  intros F Ho w1. unfold post_edit. unfold bind at 1, select at 1.
  change (w_db (world db log)) with db. rewrite F.
  destruct (select_post_by_id_spec db id post F) as [_ Hid].
  rewrite Hid, Ho, Z.eqb_refl. cbn [negb].
  destruct (blank body_tags); unfold bind at 1; [unfold bind at 1|];
    reflexivity.
Qed.

(** C4.  An edit with non-blank tag text, by the owner of the post, on a
    sound database: the route answers with the redirect, the post is then
    tagged with exactly the names [parseTags] yields for that text, every
    vocabulary row is still there, and the database is still sound. *)
Theorem edit_replaces_tags (db : DB) (log : list stmt) (user : session_user)
    (id : Z) (post : post_row) (text : string) :
  wf_db db = true ->
  Sql.q_select_post_by_id db id = Some post ->
  p_user_id post = s_id user ->
  blank (Some text) = false ->
  exists w',
    post_edit (Some user) id (Some text) (world db log)
    = Resolved (RedirectToPost id, w') /\
    Permutation (Sql.q_select_tag_names_of_post (w_db w') id)
      (parseTags text) /\
    (forall n, tagged (w_db w') id n = true <-> In n (parseTags text)) /\
    (forall t, In t (tags db) -> In t (tags (w_db w'))) /\
    wf_db (w_db w') = true.
Proof.
  intros Hwf F Ho Hb. apply wf_db_integrity in Hwf.
  rewrite (post_edit_owner db log user id post (Some text) F Ho), Hb.
  rewrite or_else_some.
  destruct (retag_spec id (parseTags text)
              (logged (SelectPostById id) (world db log) db) Hwf
              (parseTags_NoDup text)
              (fun n => parseTags_canonical text n))
    as [w' [E [I' [[new Hnew] Hperm]]]].
  exists w'. split; [exact E|]. split; [exact Hperm|]. split; [|split].
  - intros n. rewrite tagged_names. split; apply Permutation_in;
      [exact Hperm | symmetry; exact Hperm].
  - intros t Ht. rewrite Hnew. apply in_or_app. now left.
  - now apply wf_db_integrity.
Qed.

Lemma edit_replaces_tags_witness :
  wf_db db_cats = true /\
  exists w',
    post_edit (Some session_alice) 1 (Some "#Bird") (world db_cats [])
    = Resolved (RedirectToPost 1, w') /\
    Permutation (Sql.q_select_tag_names_of_post (w_db w') 1)
      (parseTags "#Bird") /\
    (forall n, tagged (w_db w') 1 n = true <-> In n (parseTags "#Bird")) /\
    (forall t, In t (tags db_cats) -> In t (tags (w_db w'))) /\
    wf_db (w_db w') = true.
Proof.
  split; [reflexivity|].
  apply (edit_replaces_tags db_cats [] session_alice 1 (mk_post 1 100));
    reflexivity.
Defined.

(** C10.  An edit whose tag text is missing or blank, by the owner of the
    post, on a sound database: the route answers with the redirect and
    the post is tagged afterwards with the names it was tagged with
    before. *)
Theorem edit_blank_keeps_tags (db : DB) (log : list stmt)
    (user : session_user) (id : Z) (post : post_row)
    (body_tags : option string) :
  wf_db db = true ->
  Sql.q_select_post_by_id db id = Some post ->
  p_user_id post = s_id user ->
  blank body_tags = true ->
  exists w',
    post_edit (Some user) id body_tags (world db log)
    = Resolved (RedirectToPost id, w') /\
    Permutation (Sql.q_select_tag_names_of_post (w_db w') id)
      (Sql.q_select_tag_names_of_post db id) /\
    (forall n, tagged (w_db w') id n = tagged db id n) /\
    (forall t, In t (tags db) -> In t (tags (w_db w'))) /\
    wf_db (w_db w') = true.
Proof.
  intros Hwf F Ho Hb. apply wf_db_integrity in Hwf.
  rewrite (post_edit_owner db log user id post body_tags F Ho), Hb.
  set (names := Sql.q_select_tag_names_of_post db id).
  assert (Hnd : NoDup names).
  { apply tag_names_of_post_NoDup;
      [apply (tags_key _ Hwf) | apply (tags_name_unique _ Hwf)
       | apply (post_tags_key _ Hwf)]. }
  assert (Hcan : forall n, In n names -> canonical n = true).
  { intros n Hn. apply tag_names_of_post_In in Hn.
    destruct Hn as [t [Ht [<- _]]]. apply (names_canonical _ Hwf t Ht). }
  rewrite (parseTags_join names Hnd Hcan).
  destruct (retag_spec id names
              (logged (SelectTagNamesOfPost id)
                 (logged (SelectPostById id) (world db log) db) db)
              Hwf Hnd Hcan)
    as [w' [E [I' [[new Hnew] Hperm]]]].
  exists w'. split; [exact E|]. split; [exact Hperm|]. split; [|split].
  - intros n. apply eq_true_iff_eq. rewrite !tagged_names.
    split; apply Permutation_in; [exact Hperm | symmetry; exact Hperm].
  - intros t Ht. rewrite Hnew. apply in_or_app. now left.
  - now apply wf_db_integrity.
Qed.

Lemma edit_blank_keeps_tags_witness :
  wf_db db_cats = true /\
  exists w',
    post_edit (Some session_alice) 1 (Some "   ") (world db_cats [])
    = Resolved (RedirectToPost 1, w') /\
    Permutation (Sql.q_select_tag_names_of_post (w_db w') 1)
      (Sql.q_select_tag_names_of_post db_cats 1) /\
    (forall n, tagged (w_db w') 1 n = tagged db_cats 1 n) /\
    (forall t, In t (tags db_cats) -> In t (tags (w_db w'))) /\
    wf_db (w_db w') = true.
Proof.
  split; [reflexivity|].
  apply (edit_blank_keeps_tags db_cats [] session_alice 1 (mk_post 1 100));
    reflexivity.
Defined.

(** ** Autocomplete *)

(** C7 at the failing input.  The search box sends the prefix [blue_];
    the route answers with [#bluebird], which does not start with
    [#blue_]: the underscore is a wildcard of LIKE. *)
Theorem autocomplete_underscore_is_wildcard :
  wf_db db_birds = true /\
  on_input "" "blue_" = Fetch "blue_" /\
  (exists w',
      get_autocomplete q_blue (world db_birds [])
      = Resolved (Json [("#bluebird", 1); ("#blue_sky", 0)], w') /\
      w_log w' = [SelectTagsLike "#blue_%"]) /\
  JS.startsWith "#bluebird" "#blue_" = false.
Proof.
  do 2 (split; [reflexivity|]). split; [|reflexivity].
  eexists. split; [vm_compute; reflexivity | reflexivity].
Qed.

Lemma firstn_length_le {A} (n : nat) (l : list A) :
  (List.length (firstn n l) <= n)%nat.
Proof. rewrite length_firstn. lia. Qed.

Lemma cnt_le_total (a b : string * Z) :
  Sql.cnt_le a b = true \/ Sql.cnt_le b a = true.
Proof. unfold Sql.cnt_le. lia. Qed.

Lemma cnt_le_trans (a b c : string * Z) :
  Sql.cnt_le a b = true -> Sql.cnt_le b c = true -> Sql.cnt_le a c = true.
Proof. unfold Sql.cnt_le. lia. Qed.

(** The rows of the LIKE query: vocabulary rows whose name matches, with
    their usage count, best first, ten at most. *)
Lemma select_tags_like_spec (db : DB) (pattern : string) :
  let rows := Sql.q_select_tags_like db pattern in
  (List.length rows <= 10)%nat /\
  StronglySorted (fun a b => snd b <= snd a) rows /\
  forall r, In r rows ->
    exists t, In t (tags db) /\
              Sql.like (Sql.c_str pattern) (Sql.c_str (t_name t)) = true /\
              r = (t_name t, Sql.usage_count db (t_id t)).
Proof.
  unfold Sql.q_select_tags_like.
  change (Sql.limit_offset 10 0) with (@firstn (string * Z) 10). cbv zeta.
  split; [apply firstn_length_le|]. split.
  - apply StronglySorted_firstn.
    eapply StronglySorted_impl;
      [|apply sort_by_sorted; [apply cnt_le_total | apply cnt_le_trans]].
    intros a b. apply Z.leb_le.
  - intros r Hr. apply firstn_In in Hr. apply sort_by_In in Hr.
    apply in_map_iff in Hr. destruct Hr as [t [<- Ht]].
    apply filter_In in Ht. destruct Ht as [Ht Hl]. eauto.
Qed.

(** What the autocomplete route answers: nothing for an empty prefix;
    otherwise at most ten vocabulary entries with their usage count, the
    most used first, each matching the LIKE pattern made of the prefix. *)
Lemma autocomplete_shape (db : DB) (q : query) (log : list stmt) :
  exists rows w',
    get_autocomplete q (world db log) = Resolved (Json rows, w') /\
    w_db w' = db /\
    (JS.truthy (or_else (q_q q) "") = false -> rows = []) /\
    (List.length rows <= 10)%nat /\
    StronglySorted (fun a b => snd b <= snd a) rows /\
    forall r, In r rows ->
      exists t, In t (tags db) /\
                Sql.like (Sql.c_str (normalized_prefix q ++ "%"))
                  (Sql.c_str (t_name t)) = true /\
                r = (t_name t, Sql.usage_count db (t_id t)).
Proof.
  unfold get_autocomplete, normalized_prefix.
  destruct (JS.truthy (JS.toLowerCase (or_else (q_q q) ""))) eqn:E.
  - cbn [negb]. unfold bind, select, ret. cbn [w_db world].
    do 2 eexists. split; [reflexivity|]. split; [reflexivity|].
    split.
    + intros F. destruct (or_else (q_q q) ""); discriminate.
    + apply select_tags_like_spec.
  - cbn [negb]. unfold ret. exists [], (world db log).
    repeat split; auto; try (simpl; lia); try constructor.
Qed.

Lemma lower_char_like (c : ascii) :
  Sql.like_char (JS.lower_char c) = JS.lower_char c.
Proof. destruct c as [[] [] [] [] [] [] [] []]; reflexivity. Qed.

Lemma like_char_fixed (c : ascii) :
  JS.lower_char c = c -> Sql.like_char c = c.
Proof. intros <-. apply lower_char_like. Qed.

Lemma toLowerCase_fixed_chars (s : string) :
  JS.toLowerCase s = s ->
  all_chars (fun c => Ascii.eqb (Sql.like_char c) c) s = true.
Proof.
  induction s as [|c s IH]; simpl; [reflexivity|].
  intros E. injection E as Ec Es.
  rewrite (like_char_fixed c Ec), Ascii.eqb_refl. auto.
Qed.

Lemma toLowerCase_like_chars (s : string) :
  all_chars (fun c => Ascii.eqb (Sql.like_char c) c) (JS.toLowerCase s)
  = true.
Proof. apply toLowerCase_fixed_chars, toLowerCase_idem. Qed.

(** Without wildcards, and on lower-case text, [LIKE 'p%'] is
    [startsWith(p)]. *)
Lemma like_prefix (p s : string) :
  all_chars (fun c => negb (is_wildcard c)) p = true ->
  all_chars (fun c => Ascii.eqb (Sql.like_char c) c) p = true ->
  all_chars (fun c => Ascii.eqb (Sql.like_char c) c) s = true ->
  Sql.like (p ++ "%") s = true -> JS.startsWith s p = true.
Proof.
  revert s. induction p as [|c p IH]; intros s; [reflexivity|].
  cbn [all_chars append]. rewrite !andb_true_iff.
  intros [Hw Hp] [Hc Hlow] Hs. cbn [Sql.like].
  unfold is_wildcard in Hw. apply negb_true_iff, orb_false_iff in Hw.
  destruct Hw as [-> ->]. destruct s as [|d s]; [discriminate|].
  cbn [all_chars] in Hs. apply andb_true_iff in Hs. destruct Hs as [Hd Hs].
  cbn [orb JS.startsWith]. rewrite !andb_true_iff. intros [E Hl].
  apply Ascii.eqb_eq in E, Hc, Hd. split.
  - apply Ascii.eqb_eq. congruence.
  - apply IH; assumption.
Qed.

Lemma c_str_app (p s : string) :
  no_nul p = true -> Sql.c_str (p ++ s) = (p ++ Sql.c_str s)%string.
Proof.
  unfold no_nul. induction p as [|c p IH]; simpl; [reflexivity|].
  rewrite andb_true_iff, negb_true_iff. intros [-> Hp]. now rewrite IH.
Qed.

Lemma startsWith_c_str (s p : string) :
  JS.startsWith (Sql.c_str s) p = true -> JS.startsWith s p = true.
Proof.
  revert s. induction p as [|c p IH]; intros s; [reflexivity|].
  destruct s as [|d s]; simpl; [discriminate|].
  destruct (JS.code d =? 0)%N; [discriminate|]. simpl.
  rewrite !andb_true_iff. intros [E H]. auto.
Qed.

Lemma all_chars_c_str (f : ascii -> bool) (s : string) :
  all_chars f s = true -> all_chars f (Sql.c_str s) = true.
Proof.
  induction s as [|c s IH]; simpl; [reflexivity|].
  rewrite andb_true_iff. intros [Hc Hs].
  destruct (JS.code c =? 0)%N; [reflexivity|]. simpl. now rewrite Hc, IH.
Qed.

Lemma toLowerCase_no_nul (s : string) :
  no_nul s = true -> no_nul (JS.toLowerCase s) = true.
Proof.
  unfold no_nul. induction s as [|c s IH]; simpl; [reflexivity|].
  rewrite !andb_true_iff. intros [Hc Hs]. split; [|auto].
  revert Hc. destruct c as [[] [] [] [] [] [] [] []]; auto.
Qed.

(** On a sound database, for a prefix without [%], [_] and U+0000, every
    entry the autocomplete route returns starts with the normalized
    prefix. *)
Lemma autocomplete_prefix_without_wildcards (db : DB) (q : query)
    (log : list stmt) (rows : list (string * Z)) (w' : World) :
  integrity db ->
  all_chars (fun c => negb (is_wildcard c)) (or_else (q_q q) "") = true ->
  no_nul (or_else (q_q q) "") = true ->
  get_autocomplete q (world db log) = Resolved (Json rows, w') ->
  forall r, In r rows -> JS.startsWith (fst r) (normalized_prefix q) = true.
Proof.
  intros I Hw Hz E r Hr.
  destruct (autocomplete_shape db q log) as [rows' [w'' [E' [_ [_ [_ [_ H]]]]]]].
  rewrite E in E'. injection E' as <- <-.
  destruct (H r Hr) as [t [Ht [Hl ->]]]. simpl.
  assert (Hlow : all_chars (fun c => Ascii.eqb (Sql.like_char c) c)
                   (normalized_prefix q) = true).
  { unfold normalized_prefix.
    destruct (JS.startsWith_hash _); [apply toLowerCase_like_chars|].
    simpl. apply toLowerCase_like_chars. }
  assert (Hplain : all_chars (fun c => negb (is_wildcard c))
                     (normalized_prefix q) = true).
  { assert (Hl' : all_chars (fun c => negb (is_wildcard c))
                    (JS.toLowerCase (or_else (q_q q) "")) = true).
    { revert Hw. generalize (or_else (q_q q) ""). intros s.
      induction s as [|c s IH]; simpl; [auto|].
      rewrite !andb_true_iff. intros [Hc Hs]. split; [|auto].
      revert Hc. destruct c as [[] [] [] [] [] [] [] []]; auto. }
    unfold normalized_prefix.
    destruct (JS.startsWith_hash _); [exact Hl'|]. simpl. exact Hl'. }
  assert (Hnul : no_nul (normalized_prefix q) = true).
  { apply toLowerCase_no_nul in Hz. unfold normalized_prefix.
    destruct (JS.startsWith_hash _); [exact Hz|]. exact Hz. }
  rewrite (c_str_app _ _ Hnul) in Hl.
  apply startsWith_c_str. apply like_prefix; auto.
  apply all_chars_c_str.
  destruct (canonical_parts _ (names_canonical db I t Ht))
    as [rest [-> [_ [_ Hrest]]]].
  simpl. apply toLowerCase_fixed_chars, Hrest.
Qed.

(** ** The routes keep the database sound *)

Lemma attach_names_sound (pid : Z) (names : list string) (r : response)
    (w : World) :
  integrity (w_db w) ->
  (forall n, In n names -> canonical n = true) ->
  exists w',
    (tagIds <- ensureTagIds names ;;
     attachTagsToPost pid tagIds ;;;
     ret r) w = Resolved (r, w') /\
    integrity (w_db w').
Proof.
  intros I Hcan.
  destruct (ensureTagIds_spec names w (tags_key _ I) (tags_name_unique _ I))
    as [ids [w2 [E2 [Hid2 [Hname2 [[new [Hnew Hin]] [_ [Hu2 [Hp2 Hpt2]]]]]]]]].
  unfold bind at 1. rewrite E2.
  destruct (attachTagsToPost_spec pid ids w2)
    as [w3 [E3 [Ht3 [Hu3 [Hp3 [Hnd3 _]]]]]].
  unfold bind at 1. rewrite E3. unfold ret. exists w3.
  split; [reflexivity|]. constructor.
  - rewrite Hu3, Hu2. apply (users_key _ I).
  - rewrite Hp3, Hp2. apply (posts_key _ I).
  - now rewrite Ht3.
  - now rewrite Ht3.
  - apply Hnd3. rewrite Hpt2. apply (post_tags_key _ I).
  - rewrite Hu3, Hu2, Hp3, Hp2. apply (owners_exist _ I).
  - rewrite Ht3, Hnew. intros t Ht. apply in_app_or in Ht.
    destruct Ht as [Ht|Ht]; [apply (names_canonical _ I t Ht)|].
    apply Hcan, Hin, Ht.
Qed.

(** POST /upload by a registered user resolves and keeps the database
    sound. *)
Lemma post_upload_sound (db : DB) (log : list stmt)
    (session : option session_user) (has_file : bool)
    (body_tags : option string) (filename : string) (now : Z) :
  integrity db ->
  (forall user, session = Some user -> In (s_id user) (map u_id (users db))) ->
  exists r w',
    post_upload session has_file body_tags filename now (world db log)
    = Resolved (r, w') /\
    integrity (w_db w').
Proof.
  intros I Hreg. unfold post_upload.
  destruct session as [user|]; [|exists (Status 403 "login required");
                                  eexists; split; [reflexivity | exact I]].
  destruct has_file; cbn [negb];
    [|exists (Status 400 "no file uploaded"); eexists;
      split; [reflexivity | exact I]].
  unfold bind at 1, insert_post. cbn [w_db world].
  set (id := Sql.next_rowid (seq_posts db) (map p_id (posts db))).
  set (w1 := logged _ _ _).
  assert (I1 : integrity (w_db w1)).
  { destruct I as [H1 H2 H3 H4 H5 H6 H7]. constructor; simpl; auto.
    - rewrite map_app. apply NoDup_snoc; [assumption|].
      apply next_rowid_fresh.
    - intros p Hp. apply in_app_or in Hp. destruct Hp as [Hp|[<-|[]]];
        [auto|]. simpl. apply Hreg. reflexivity. }
  destruct (attach_names_sound id (parseTags (or_else body_tags ""))
              (RedirectToPost id) w1 I1
              (fun n => parseTags_canonical _ n)) as [w' [E I']].
  exists (RedirectToPost id), w'. split; [exact E | exact I'].
Qed.

(** POST /post/:id/edit resolves and keeps the database sound. *)
Lemma post_edit_sound (db : DB) (log : list stmt)
    (session : option session_user) (id : Z) (body_tags : option string) :
  integrity db ->
  exists r w',
    post_edit session id body_tags (world db log) = Resolved (r, w') /\
    integrity (w_db w').
Proof.
  intros I. destruct session as [user|];
    [|exists (Status 401 "login"); eexists; split; [reflexivity | exact I]].
  destruct (Sql.q_select_post_by_id db id) as [post|] eqn:F.
  - destruct (Z.eqb_spec (p_user_id post) (s_id user)) as [Ho|Ho].
    + rewrite (post_edit_owner db log user id post body_tags F Ho).
      destruct (blank body_tags).
      * set (text := JS.join " " (Sql.q_select_tag_names_of_post db id)).
        destruct (retag_spec id (parseTags text)
                    (logged (SelectTagNamesOfPost id)
                       (logged (SelectPostById id) (world db log) db) db) I
                    (parseTags_NoDup text)
                    (fun n => parseTags_canonical text n))
          as [w' [E [I' _]]]. eauto.
      * set (text := or_else body_tags "").
        destruct (retag_spec id (parseTags text)
                    (logged (SelectPostById id) (world db log) db) I
                    (parseTags_NoDup text)
                    (fun n => parseTags_canonical text n))
          as [w' [E [I' _]]]. eauto.
    + exists (Status 403 "not allowed"). eexists. unfold post_edit.
      unfold bind at 1, select at 1. cbn [w_db world]. rewrite F.
      apply Z.eqb_neq in Ho. rewrite Ho. split; [reflexivity | exact I].
  - exists (Status 404 "not found"). eexists. unfold post_edit.
    unfold bind at 1, select at 1. cbn [w_db world]. rewrite F.
    split; [reflexivity | exact I].
Qed.

(** POST /post/:id/delete resolves and keeps the database sound. *)
Lemma post_delete_sound (db : DB) (log : list stmt)
    (session : option session_user) (id : Z) :
  integrity db ->
  exists r w',
    post_delete session id (world db log) = Resolved (r, w') /\
    integrity (w_db w').
Proof.
  intros I. unfold post_delete. destruct session as [user|];
    [|exists (Status 401 "login"); eexists; split; [reflexivity | exact I]].
  unfold bind at 1, select at 1. cbn [w_db world].
  destruct (Sql.q_select_post_by_id db id) as [post|];
    [|exists (Status 404 "not found"); eexists;
      split; [reflexivity | exact I]].
  destruct (negb (p_user_id post =? s_id user));
    [exists (Status 403 "not allowed"); eexists;
     split; [reflexivity | exact I]|].
  exists RedirectToMyPosts. eexists. split; [reflexivity|].
  destruct I as [H1 H2 H3 H4 H5 H6 H7]. constructor; simpl; auto.
  - apply NoDup_map_filter, H2.
  - apply NoDup_filter, H5.
  - intros p Hp. apply filter_In in Hp. apply H6. tauto.
Qed.

Lemma db_fresh_sound : integrity db_fresh.
Proof. now apply wf_db_integrity. Qed.

(** * Further properties of the helpers *)

(** ** [parseTags] *)

(** X1.  The tags [parseTags] yields are pairwise distinct and canonical,
    and each is the normal form of a token of the text that starts with
    the marker. *)
Theorem parseTags_output (text : string) :
  NoDup (parseTags text) /\
  forall t, In t (parseTags text) ->
    canonical t = true /\
    exists tok, In tok (JS.split_ws text) /\
                JS.startsWith_hash tok = true /\
                t = JS.toLowerCase (JS.replace_leading_hashes "#" tok).
Proof.
  split; [apply parseTags_NoDup|]. intros t Ht.
  split; [apply (parseTags_canonical text t Ht)|].
  apply parseTags_In in Ht. destruct Ht as [_ [tok [Htok [Hh ->]]]].
  pose proof (split_ws_no_ws _ _ _ Htok) as Hw.
  rewrite (trim_no_ws tok Hw) in *.
  exists tok. repeat split; auto.
  symmetry. apply normalize_marker_token, Hh.
Qed.

(** X2.  Parsing the tags [parseTags] yields, joined by spaces, gives the
    same tags again. *)
Theorem parseTags_idempotent (text : string) :
  parseTags (JS.join " " (parseTags text)) = parseTags text.
Proof.
  apply parseTags_join; [apply parseTags_NoDup|].
  intros n. apply parseTags_canonical.
Qed.









(** ** [ensureTagIds] and [attachTagsToPost] *)

Lemma find_name_unique (ts : list tag_row) (t : tag_row) :
  NoDup (map t_name ts) -> In t ts ->
  find (fun u => String.eqb (t_name u) (t_name t)) ts = Some t.
Proof.
  induction ts as [|u ts IH]; simpl; intros Hnd Hin; [contradiction|].
  inversion Hnd; subst. destruct Hin as [->|Hin].
  - now rewrite String.eqb_refl.
  - destruct (String.eqb_spec (t_name u) (t_name t)) as [E|E]; [|auto].
    exfalso. apply H1. rewrite E. apply in_map, Hin.
Qed.

Lemma Forall2_nth {A B} (P : A -> B -> Prop) (l : list A) (l' : list B) :
  Forall2 P l l' ->
  forall i a b, nth_error l i = Some a -> nth_error l' i = Some b -> P a b.
Proof.
  induction 1 as [|x y l l' Hxy Hl IH]; intros [|i] a b; simpl;
    try discriminate.
  - intros [= <-] [= <-]. exact Hxy.
  - apply IH.
Qed.

(** X4.  On a vocabulary with its two keys, [ensureTagIds] resolves to one
    identifier per name, in order; looking a name up afterwards gives the
    identifier returned for it; no row is removed or changed, and a row is
    added only for a name that had none. *)
Theorem ensureTagIds_lookup (names : list string) (w : World) :
  NoDup (map t_id (tags (w_db w))) ->
  NoDup (map t_name (tags (w_db w))) ->
  exists ids w',
    ensureTagIds names w = Resolved (ids, w') /\
    List.length ids = List.length names /\
    (forall i n id, nth_error names i = Some n -> nth_error ids i = Some id ->
       Sql.q_select_tag_id_by_name (w_db w') n = Some id) /\
    (exists new,
       tags (w_db w') = tags (w_db w) ++ new /\
       forall t, In t new ->
         In (t_name t) names /\ in_vocabulary (w_db w) (t_name t) = false) /\
    posts (w_db w') = posts (w_db w) /\
    post_tags (w_db w') = post_tags (w_db w).
Proof.
  intros Hid Hname.
  destruct (ensureTagIds_spec names w Hid Hname)
    as [ids [w' [E [Hid' [Hname' [[new [Hnew Hin]] [Hf [_ [Hp Hpt]]]]]]]]].
  exists ids, w'. split; [exact E|]. split; [|split; [|split]].
  - symmetry. eapply Forall2_length, Hf.
  - intros i n id Hn Hi.
    pose proof (Forall2_nth _ _ _ Hf i n id Hn Hi) as Hrow.
    unfold Sql.q_select_tag_id_by_name.
    pose proof (find_name_unique _ (mk_tag id n) Hname' Hrow) as F.
    simpl in F. now rewrite F.
  - exists new. split; [exact Hnew|]. intros t Ht.
    split; [apply Hin, Ht|]. apply inb_false. intros Hold.
    rewrite Hnew, map_app in Hname'.
    apply NoDup_app_remove_l in Hname' as Hn2.
    rewrite Hnew, map_app in Hid'.
    revert Hname' Hold Ht. clear. intros Hnd Hold Ht.
    induction (map t_name (tags (w_db w))) as [|x l IH]; [contradiction|].
    simpl in Hnd. inversion Hnd; subst. destruct Hold as [->|Hold]; [|auto].
    apply H1, in_or_app. right. apply in_map, Ht.
  - auto.
Qed.

Lemma ensureTagIds_lookup_witness :
  exists ids w',
    ensureTagIds ["#x"; "#cat"; "#x"] (world db_cats []) = Resolved (ids, w') /\
    List.length ids = 3%nat.
Proof.
  destruct (ensureTagIds_lookup ["#x"; "#cat"; "#x"] (world db_cats []))
    as [ids [w' [E [Hl _]]]].
  - apply (nodupb_NoDup Z.eqb Z.eqb_eq). reflexivity.
  - apply (nodupb_NoDup String.eqb String.eqb_eq). reflexivity.
  - exists ids, w'. auto.
Defined.

Lemma attach_present (pid : Z) (ids : list Z) (w : World) :
  (forall tid, In tid ids -> has_post_tag (w_db w) pid tid = true) ->
  exists w', attachTagsToPost pid ids w = Resolved (tt, w') /\
             w_db w' = w_db w.
Proof.
  revert w. induction ids as [|tid rest IH]; intros w H.
  - exists w. split; reflexivity.
  - simpl. unfold bind, insert_or_ignore_post_tag.
    rewrite (H tid (or_introl eq_refl)).
    destruct (IH (logged (InsertOrIgnorePostTag pid tid) w (w_db w)))
      as [w' [E Hdb]].
    + intros x Hx. apply H. now right.
    + exists w'. split; [exact E | exact Hdb].
Qed.

(** X5.  [attachTagsToPost] resolves and attaches every given identifier;
    it keeps the pairs distinct, and attaching the same identifiers again
    changes nothing. *)
Theorem attachTagsToPost_idempotent (pid : Z) (ids : list Z) (w : World) :
  exists w1 w2,
    attachTagsToPost pid ids w = Resolved (tt, w1) /\
    (forall tid, In tid ids -> has_post_tag (w_db w1) pid tid = true) /\
    (NoDup (post_tags (w_db w)) -> NoDup (post_tags (w_db w1))) /\
    attachTagsToPost pid ids w1 = Resolved (tt, w2) /\
    w_db w2 = w_db w1.
Proof.
  destruct (attachTagsToPost_spec pid ids w)
    as [w1 [E1 [_ [_ [_ [Hnd Hin]]]]]].
  assert (H : forall tid, In tid ids ->
                has_post_tag (w_db w1) pid tid = true).
  { intros tid Ht. apply has_post_tag_In, Hin. right. simpl. auto. }
  destruct (attach_present pid ids w1 H) as [w2 [E2 Hdb]].
  exists w1, w2. auto.
Qed.

(** * Further properties of the home page *)

Lemma with_tags_form (ps : list post_result) (w : World) :
  exists w', with_tags ps w = Resolved (tags_of_posts (w_db w) ps, w') /\
             w_db w' = w_db w.
Proof.
  revert w. induction ps as [|p ps IH]; intros w.
  - exists w. split; reflexivity.
  - simpl. unfold bind at 1, select at 1.
    destruct (IH (logged (SelectTagNamesOfPost (p_id (r_post p))) w (w_db w)))
      as [w' [E Hdb]].
    unfold bind at 1. rewrite E. unfold ret. exists w'.
    split; [reflexivity | exact Hdb].
Qed.

(** What the home route renders, whenever it renders. *)
Lemma get_home_inv (db : DB) (q : query) (log : list stmt) (r : response)
    (w' : World) :
  get_home q (world db log) = Resolved (r, w') ->
  exists total,
    r = RenderIndex
          {| v_posts :=
               tags_of_posts db
                 (Sql.limit_offset limit (offset_of q) (full_result db q));
             v_page := page_of q;
             v_totalPages := Z.max 1 ((total + limit - 1) / limit);
             v_queryTags := tagsQuery_of q;
             v_sort := or_else (q_sort q) "recent";
             v_popularTags := Sql.q_select_popular_tags db |} /\
    (integrity db -> total = Sql.zlen (full_result db q)).
Proof.
  unfold get_home. unfold bind at 1.
  destruct (search q (world db log)) as [[[ps total] w0]|e] eqn:E;
    [|discriminate].
  apply search_resolved_inv in E. destruct E as [-> [Hdb Ht]].
  destruct (with_tags_form
              (Sql.limit_offset limit (offset_of q) (full_result db q)) w0)
    as [w1 [E1 Hdb1]].
  cbn [fst snd]. unfold bind at 1. rewrite E1. unfold bind, select, ret.
  rewrite Hdb1, Hdb. intros [= <- _]. exists total. auto.
Qed.

(** The home route renders when the engine takes the offset. *)
Lemma get_home_form (db : DB) (q : query) (log : list stmt) :
  offset_of q < 2 ^ 63 ->
  exists total w',
    get_home q (world db log) =
    Resolved
      (RenderIndex
         {| v_posts :=
              tags_of_posts db
                (Sql.limit_offset limit (offset_of q) (full_result db q));
            v_page := page_of q;
            v_totalPages := Z.max 1 ((total + limit - 1) / limit);
            v_queryTags := tagsQuery_of q;
            v_sort := or_else (q_sort q) "recent";
            v_popularTags := Sql.q_select_popular_tags db |}, w') /\
    (integrity db -> total = Sql.zlen (full_result db q)).
Proof.
  intros Ho.
  destruct (search_form db q log Ho) as [total [w0 [E [Hdb Ht]]]].
  destruct (with_tags_form
              (Sql.limit_offset limit (offset_of q) (full_result db q)) w0)
    as [w1 [E1 Hdb1]].
  exists total. eexists. split; [|exact Ht].
  unfold get_home. unfold bind at 1. rewrite E. cbn [fst snd].
  unfold bind at 1. rewrite E1. unfold bind, select, ret.
  rewrite Hdb1, Hdb. reflexivity.
Qed.

Lemma get_home_renders (db : DB) (q : query) (log : list stmt) :
  page_of q <= max_page ->
  exists v w', get_home q (world db log) = Resolved (RenderIndex v, w').
Proof.
  intros H.
  destruct (get_home_form db q log (proj2 (offset_exact q H)))
    as [total [w' [E _]]].
  eauto.
Qed.

Lemma pages_enough (n : Z) :
  0 <= n -> n <= 12 * Z.max 1 ((n + 12 - 1) / 12).
Proof.
  intros Hn. pose proof (Z.mul_succ_div_gt (n + 12 - 1) 12). lia.
Qed.

(** X6.  On a sound database, for a page up to [max_page], the home page
    shows the page number raised to 1 at least and at most 12 posts; the
    number of pages it announces depends on the search alone, is 1 at
    least, covers the full result, and a page after the last has no
    post. *)
Theorem home_pages (db : DB) (q : query) (log : list stmt) (page : Z) :
  wf_db db = true ->
  page <= max_page ->
  exists v w',
    get_home (at_page q page) (world db log) = Resolved (RenderIndex v, w') /\
    v_page v = Z.max 1 page /\
    (List.length (v_posts v) <= 12)%nat /\
    v_totalPages v
    = Z.max 1 ((Sql.zlen (full_result db q) + 12 - 1) / 12) /\
    Sql.zlen (full_result db q) <= 12 * v_totalPages v /\
    (v_totalPages v < page -> v_posts v = []).
Proof.
  intros Hwf Hpage. apply wf_db_integrity in Hwf.
  destruct (get_home_form db (at_page q page) log) as [total [w' [E Ht]]].
  { apply (offset_exact _ (at_page_exact q page Hpage)). }
  rewrite (Ht Hwf), limit_offset_page, matching_at_page in E by exact Hpage.
  do 2 eexists. split; [exact E|]. cbn [v_page v_posts v_totalPages].
  assert (Hn : 0 <= Sql.zlen (full_result db q)) by (unfold Sql.zlen; lia).
  pose proof (pages_enough _ Hn) as Hen.
  split; [reflexivity|]. split; [|split; [reflexivity|split; [exact Hen|]]].
  - unfold tags_of_posts, page_slice. rewrite length_map.
    apply firstn_length_le.
  - unfold limit in *. intros Hlt. unfold tags_of_posts, page_slice.
    rewrite skipn_all2; [now rewrite firstn_nil|].
    unfold Sql.zlen in *. lia.
Qed.

Lemma home_pages_witness :
  exists v w',
    get_home (at_page q_cat 2) (world db_many []) = Resolved (RenderIndex v, w') /\
    v_page v = Z.max 1 2 /\
    (List.length (v_posts v) <= 12)%nat /\
    v_totalPages v = 2.
Proof.
  destruct (home_pages db_many q_cat [] 2) as [v [w' [E [Hp [Hl [Ht _]]]]]];
    [reflexivity | vm_compute; discriminate |].
  exists v, w'. repeat split; auto.
Defined.

(** X7.  On a sound database, for distinct requested names that all
    resolve, the home page renders for a page up to [max_page]; and
    whenever it renders, every post it shows carries each of its own tag
    names once and no other name, and every requested name is among
    them. *)
Theorem home_posts_carry_requested_tags (db : DB) (q : query)
    (log : list stmt) :
  wf_db db = true ->
  normTags_of q <> [] ->
  NoDup (normTags_of q) ->
  (forall n, In n (normTags_of q) -> in_vocabulary db n = true) ->
  (page_of q <= max_page ->
   exists v w', get_home q (world db log) = Resolved (RenderIndex v, w')) /\
  forall v w',
    get_home q (world db log) = Resolved (RenderIndex v, w') ->
    forall p names, In (p, names) (v_posts v) ->
      NoDup names /\
      (forall n, In n names <-> tagged db (p_id (r_post p)) n = true) /\
      forall n, In n (normTags_of q) -> In n names.
Proof.
  intros Hwf Hne Hnd Hvoc. apply wf_db_integrity in Hwf.
  split; [apply get_home_renders|].
  intros v w' E. apply get_home_inv in E. destruct E as [total [[= ->] _]].
  cbn [v_posts].
  intros p names Hin. unfold tags_of_posts in Hin.
  apply in_map_iff in Hin. destruct Hin as [r [[= <- <-] Hr]].
  split; [|split].
  - apply tag_names_of_post_NoDup;
      [apply (tags_key _ Hwf) | apply (tags_name_unique _ Hwf)
       | apply (post_tags_key _ Hwf)].
  - intros n. symmetry. apply tagged_names.
  - intros n Hn. apply tagged_names.
    assert (Hfull : In r (full_result db q)).
    { unfold Sql.limit_offset, limit in Hr. simpl (12 <? 0) in Hr.
      cbv zeta in Hr. eapply skipn_In, firstn_In, Hr. }
    apply (in_map r_post) in Hfull.
    apply (full_result_posts db q _ Hwf Hne Hnd Hvoc) in Hfull.
    now apply Hfull.
Qed.

Lemma home_posts_carry_requested_tags_witness :
  exists v w',
    get_home q_cat_dog (world db_cats []) = Resolved (RenderIndex v, w') /\
    List.length (v_posts v) = 1%nat /\
    forall p names, In (p, names) (v_posts v) ->
      NoDup names /\
      (forall n, In n names <-> tagged db_cats (p_id (r_post p)) n = true) /\
      forall n, In n (normTags_of q_cat_dog) -> In n names.
Proof.
  destruct (home_posts_carry_requested_tags db_cats q_cat_dog [])
    as [Hres Hall].
  - reflexivity.
  - discriminate.
  - apply (nodupb_NoDup String.eqb String.eqb_eq). reflexivity.
  - intros n [<-|[<-|[]]]; reflexivity.
  - destruct Hres as [v [w' E]]; [vm_compute; discriminate|].
    exists v, w'. split; [exact E|]. split; [|exact (Hall v w' E)].
    vm_compute in E. injection E as <- _. reflexivity.
Defined.

(** X8.  The home page renders for a page up to [max_page]; and whenever
    it renders, whatever the search, it lists at most 40 popular tags,
    the most used first, each a vocabulary name with the number of posts
    attached to it; a vocabulary of at most 40 names is listed in full,
    unused names included. *)
Theorem home_popular_tags (db : DB) (q : query) (log : list stmt) :
  (page_of q <= max_page ->
   exists v w', get_home q (world db log) = Resolved (RenderIndex v, w')) /\
  forall v w',
    get_home q (world db log) = Resolved (RenderIndex v, w') ->
    (List.length (v_popularTags v) <= 40)%nat /\
    StronglySorted (fun a b => snd b <= snd a) (v_popularTags v) /\
    (forall r, In r (v_popularTags v) ->
       exists t, In t (tags db) /\
                 r = (t_name t, Sql.usage_count db (t_id t))) /\
    ((List.length (tags db) <= 40)%nat ->
     forall t, In t (tags db) ->
       In (t_name t, Sql.usage_count db (t_id t)) (v_popularTags v)).
Proof.
  split; [apply get_home_renders|].
  intros v w' E. apply get_home_inv in E. destruct E as [total [[= ->] _]].
  cbn [v_popularTags].
  unfold Sql.q_select_popular_tags.
  change (Sql.limit_offset 40 0) with (@firstn (string * Z) 40).
  set (rows := map (fun t => (t_name t, Sql.usage_count db (t_id t)))
                 (tags db)).
  split; [apply firstn_length_le|]. split; [|split].
  - apply StronglySorted_firstn.
    eapply StronglySorted_impl;
      [|apply sort_by_sorted; [apply cnt_le_total | apply cnt_le_trans]].
    intros a b. apply Z.leb_le.
  - intros r Hr. apply firstn_In, sort_by_In, in_map_iff in Hr.
    destruct Hr as [t [<- Ht]]. eauto.
  - intros Hlen t Ht. rewrite firstn_all2.
    + apply sort_by_In. subst rows.
      apply (in_map (fun t => (t_name t, Sql.usage_count db (t_id t)))), Ht.
    + rewrite sort_by_length. subst rows. now rewrite length_map.
Qed.

Lemma home_popular_tags_witness :
  exists v w',
    get_home q_cat (world db_cats []) = Resolved (RenderIndex v, w') /\
    v_popularTags v = [("#cat", 2); ("#dog", 1)].
Proof.
  destruct (home_popular_tags db_cats q_cat []) as [Hres _].
  destruct Hres as [v [w' E]]; [vm_compute; discriminate|].
  exists v, w'. split; [exact E|].
  vm_compute in E. injection E as <- _. reflexivity.
Defined.

(** * Further properties of autocomplete *)

(** X9.  Autocomplete does not depend on the case of the prefix, nor on a
    marker in front of it. *)
Theorem autocomplete_ignores_case_and_marker (q : query) (s : string)
    (w : World) :
  get_autocomplete (with_q q (JS.toLowerCase s)) w
  = get_autocomplete (with_q q s) w /\
  (JS.truthy s = true -> JS.startsWith_hash s = false ->
   get_autocomplete (with_q q ("#" ++ s)) w = get_autocomplete (with_q q s) w).
Proof.
  unfold get_autocomplete. cbn [q_q with_q]. rewrite !or_else_some. split.
  - now rewrite toLowerCase_idem.
  - intros Ht Hh. cbn [append JS.toLowerCase JS.truthy negb JS.startsWith_hash].
    replace (JS.is_hash (JS.lower_char "#")) with true by reflexivity.
    replace (JS.lower_char "#") with "#"%char by reflexivity.
    rewrite toLowerCase_head, Hh.
    replace (JS.truthy (JS.toLowerCase s)) with true
      by (destruct s; [discriminate | reflexivity]).
    reflexivity.
Qed.

Lemma autocomplete_ignores_case_and_marker_witness :
  get_autocomplete (with_q q_empty "#Ca") (world db_cats [])
  = get_autocomplete (with_q q_empty "Ca") (world db_cats []).
Proof.
  apply (autocomplete_ignores_case_and_marker q_empty "Ca" (world db_cats []));
    reflexivity.
Defined.

(** X10.  The autocomplete route changes nothing and answers with no
    entry for an empty prefix, and otherwise with at most ten entries,
    the most used first, each a vocabulary name with the number of its
    post-tag pairs. *)
Theorem autocomplete_ranked (db : DB) (q : query) (log : list stmt) :
  exists rows w',
    get_autocomplete q (world db log) = Resolved (Json rows, w') /\
    w_db w' = db /\
    (JS.truthy (or_else (q_q q) "") = false -> rows = []) /\
    (List.length rows <= 10)%nat /\
    StronglySorted (fun a b => snd b <= snd a) rows /\
    forall r, In r rows ->
      exists t, In t (tags db) /\
                r = (t_name t, Sql.usage_count db (t_id t)).
Proof.
  destruct (autocomplete_shape db q log)
    as [rows [w' [E [Hdb [He [Hl [Hs Hr]]]]]]].
  exists rows, w'. repeat split; auto.
  intros r Hin. destruct (Hr r Hin) as [t [Ht [_ ->]]]. eauto.
Qed.

Lemma like_percent (s : string) : Sql.like "%" s = true.
Proof.
  induction s as [|c s IH]; [reflexivity|].
  simpl in *. exact IH.
Qed.

(** A name that starts with [p] matches the pattern [p%]. *)
Lemma startsWith_like (p s : string) :
  JS.startsWith s p = true ->
  Sql.like (Sql.c_str (p ++ "%")) (Sql.c_str s) = true.
Proof.
  revert s. induction p as [|c p IH]; intros s.
  - intros _. apply like_percent.
  - destruct s as [|d s]; [discriminate|]. cbn [JS.startsWith].
    rewrite andb_true_iff. intros [E H]. apply Ascii.eqb_eq in E. subst d.
    specialize (IH s H). cbn [append Sql.c_str].
    destruct (JS.code c =? 0)%N; [reflexivity|]. cbn [Sql.like].
    destruct (JS.code c =? 37)%N.
    + destruct (Sql.like (Sql.c_str (p ++ "%")) (String c (Sql.c_str s)));
        [reflexivity|].
      cbn [orb]. revert IH. generalize (Sql.c_str (p ++ "%")).
      intros P IH. destruct (Sql.c_str s); simpl in *; now rewrite IH.
    + rewrite Ascii.eqb_refl, orb_true_r. exact IH.
Qed.

(** X11.  On a sound database, for a prefix without the characters [%]
    and [_] and without U+0000, every entry the autocomplete route
    returns starts with the normalized prefix; and, whatever the prefix,
    a vocabulary of at most ten names has every name that starts with the
    normalized prefix among the entries. *)
Theorem autocomplete_prefix_match (db : DB) (q : query) (log : list stmt) :
  wf_db db = true ->
  JS.truthy (or_else (q_q q) "") = true ->
  exists rows w',
    get_autocomplete q (world db log) = Resolved (Json rows, w') /\
    (all_chars (fun c => negb (is_wildcard c)) (or_else (q_q q) "") = true ->
     no_nul (or_else (q_q q) "") = true ->
     forall r, In r rows ->
       JS.startsWith (fst r) (normalized_prefix q) = true) /\
    ((List.length (tags db) <= 10)%nat ->
     forall t, In t (tags db) ->
       JS.startsWith (t_name t) (normalized_prefix q) = true ->
       In (t_name t, Sql.usage_count db (t_id t)) rows).
Proof.
  intros Hwf Ht. apply wf_db_integrity in Hwf.
  destruct (autocomplete_shape db q log) as [rows [w' [E _]]].
  exists rows, w'. split; [exact E|]. split.
  - intros Hw Hz.
    apply (autocomplete_prefix_without_wildcards db q log rows w');
      assumption.
  - intros Hlen t Hin Hs. revert E. unfold get_autocomplete.
    replace (JS.truthy (JS.toLowerCase (or_else (q_q q) ""))) with true
      by (destruct (or_else (q_q q) ""); [discriminate | reflexivity]).
    cbn [negb]. unfold bind, select, ret. cbn [w_db world].
    fold (normalized_prefix q). intros [= <- _].
    unfold Sql.q_select_tags_like.
    change (Sql.limit_offset 10 0) with (@firstn (string * Z) 10).
    rewrite firstn_all2.
    + apply sort_by_In.
      apply (in_map (fun t => (t_name t, Sql.usage_count db (t_id t)))).
      apply filter_In. split; [exact Hin | apply startsWith_like, Hs].
    + rewrite sort_by_length, length_map.
      eapply Nat.le_trans; [apply filter_length_le | exact Hlen].
Qed.

Lemma autocomplete_prefix_match_witness :
  exists rows w',
    get_autocomplete (with_q q_empty "Ca") (world db_cats [])
    = Resolved (Json rows, w') /\
    In ("#cat", 2) rows /\
    forall r, In r rows -> JS.startsWith (fst r) "#ca" = true.
Proof.
  destruct (autocomplete_prefix_match db_cats (with_q q_empty "Ca") [])
    as [rows [w' [E [H1 H2]]]]; [reflexivity | reflexivity|].
  exists rows, w'. split; [exact E|]. split.
  - apply (H2 ltac:(simpl; lia) (mk_tag 1 "#cat")); [now left | reflexivity].
  - exact (H1 eq_refl eq_refl).
Defined.

(** * Further properties of upload, edit and delete *)

Lemma ensureTagIds_frame (names : list string) (w : World) (ids : list Z)
    (w' : World) :
  ensureTagIds names w = Resolved (ids, w') ->
  likes (w_db w') = likes (w_db w) /\ seq_posts (w_db w') = seq_posts (w_db w).
Proof.
  revert w ids w'. induction names as [|n rest IH]; intros w ids w' H.
  - injection H as _ <-. auto.
  - destruct (find (fun t => String.eqb (t_name t) n) (tags (w_db w)))
      as [t|] eqn:F.
    + rewrite (ensureTagIds_known n rest w t F) in H. unfold bind in H.
      destruct (ensureTagIds rest _) as [[ids0 w0]|] eqn:E; [|discriminate].
      injection H as _ <-. apply (IH _ _ _ E).
    + apply find_name_none in F. rewrite (ensureTagIds_new n rest w F) in H.
      unfold bind in H.
      destruct (ensureTagIds rest _) as [[ids0 w0]|] eqn:E; [|discriminate].
      injection H as _ <-. apply (IH _ _ _ E).
Qed.

Lemma attach_appends (pid : Z) (ids : list Z) (w w' : World) :
  attachTagsToPost pid ids w = Resolved (tt, w') ->
  exists extra,
    post_tags (w_db w') = post_tags (w_db w) ++ extra /\
    (forall pt, In pt extra -> pt_post_id pt = pid /\ In (pt_tag_id pt) ids) /\
    likes (w_db w') = likes (w_db w) /\
    seq_posts (w_db w') = seq_posts (w_db w) /\
    seq_tags (w_db w') = seq_tags (w_db w).
Proof.
  revert w. induction ids as [|tid rest IH]; intros w H.
  - injection H as <-. exists []. rewrite app_nil_r. repeat split; auto.
    contradiction.
  - simpl in H. unfold bind at 1, insert_or_ignore_post_tag in H.
    apply IH in H. destruct H as [extra [Hpt [Hex [Hl [Hs1 Hs2]]]]].
    simpl w_db in *.
    destruct (has_post_tag (w_db w) pid tid).
    + exists extra. repeat split; auto; apply Hex in H; simpl; tauto.
    + exists (mk_pt pid tid :: extra). simpl in *.
      rewrite Hpt, <- app_assoc. repeat split; auto;
        destruct H as [<-|H]; simpl; auto; apply Hex in H; tauto.
Qed.

(** Resolve-or-create, then attach: the tail of the upload route and,
    after the delete, of the edit route. *)
Lemma attach_names_spec (pid : Z) (names : list string) (r : response)
    (w : World) :
  NoDup (map t_id (tags (w_db w))) ->
  NoDup (map t_name (tags (w_db w))) ->
  NoDup (post_tags (w_db w)) ->
  NoDup names ->
  (forall pt, In pt (post_tags (w_db w)) -> pt_post_id pt <> pid) ->
  exists w' new extra,
    (tagIds <- ensureTagIds names ;;
     attachTagsToPost pid tagIds ;;;
     ret r) w = Resolved (r, w') /\
    tags (w_db w') = tags (w_db w) ++ new /\
    NoDup (map t_id (tags (w_db w'))) /\
    post_tags (w_db w') = post_tags (w_db w) ++ extra /\
    (forall pt, In pt extra ->
       pt_post_id pt = pid /\ In (pt_tag_id pt) (map t_id (tags (w_db w')))) /\
    Permutation (Sql.q_select_tag_names_of_post (w_db w') pid) names /\
    users (w_db w') = users (w_db w) /\
    posts (w_db w') = posts (w_db w) /\
    likes (w_db w') = likes (w_db w) /\
    seq_posts (w_db w') = seq_posts (w_db w).
Proof.
  intros Hid Hname Hpts Hnd Hnone.
  destruct (ensureTagIds_spec names w Hid Hname)
    as [ids [w2 [E2 [Hid2 [Hname2 [[new [Hnew Hin]] [Hf [Hu2 [Hp2 Hpt2]]]]]]]]].
  destruct (ensureTagIds_frame _ _ _ _ E2) as [Hl2 Hs2].
  unfold bind at 1. rewrite E2.
  destruct (attachTagsToPost_spec pid ids w2)
    as [w3 [E3 [Ht3 [Hu3 [Hp3 [Hnd3 Hin3]]]]]].
  destruct (attach_appends _ _ _ _ E3) as [extra [Hex [Hexin [Hl3 [Hs3 _]]]]].
  unfold bind at 1. rewrite E3. unfold ret.
  exists w3, new, extra.
  assert (Hmine : forall tid,
             In (mk_pt pid tid) (post_tags (w_db w3)) <-> In tid ids).
  { intros tid. rewrite Hin3, Hpt2. simpl. split; [|auto].
    intros [H|[_ H]]; [|exact H]. exfalso. now apply (Hnone _ H). }
  split; [reflexivity|]. split; [now rewrite Ht3|].
  split; [now rewrite Ht3|]. split; [now rewrite Hex, Hpt2|].
  split; [|split; [|repeat split; congruence]].
  - intros pt Hpt. destruct (Hexin pt Hpt) as [H1 H2]. split; [exact H1|].
    destruct (Forall2_In_r _ _ _ _ Hf H2) as [n [_ Hrow]].
    rewrite Ht3. apply (in_map t_id) in Hrow. exact Hrow.
  - apply NoDup_Permutation.
    + apply tag_names_of_post_NoDup;
        [rewrite Ht3; assumption | rewrite Ht3; assumption|].
      apply Hnd3. now rewrite Hpt2.
    + exact Hnd.
    + intros n. rewrite tag_names_of_post_In. split.
      * intros [t [Ht [<- Hpt]]]. apply Hmine in Hpt.
        destruct (Forall2_In_r _ _ _ _ Hf Hpt) as [n' [Hn' Hrow]].
        rewrite Ht3 in Ht.
        assert (E : mk_tag (t_id t) n' = t)
          by (apply (NoDup_map_inj t_id (tags (w_db w2))); auto).
        rewrite <- E. exact Hn'.
      * intros Hn. destruct (Forall2_In_l _ _ _ _ Hf Hn) as [id [Hi Hrow]].
        exists (mk_tag id n). rewrite Ht3.
        split; [exact Hrow|]. split; [reflexivity|]. now apply Hmine.
Qed.

Lemma filter_none {A} (f : A -> bool) (l : list A) :
  (forall x, In x l -> f x = false) -> filter f l = [].
Proof.
  induction l as [|x l IH]; simpl; intros H; [reflexivity|].
  rewrite (H x (or_introl eq_refl)). apply IH. auto.
Qed.

(** The tag query of a post is not affected by rows appended for another
    post, nor by new vocabulary rows, when its pairs refer to existing
    tags. *)
Lemma tag_names_frame (db db' : DB) (pid pid' : Z) (new : list tag_row)
    (extra : list post_tag_row) :
  tags db' = tags db ++ new ->
  NoDup (map t_id (tags db')) ->
  post_tags db' = post_tags db ++ extra ->
  (forall pt, In pt extra -> pt_post_id pt = pid) ->
  pid' <> pid ->
  (forall pt, In pt (post_tags db) -> pt_post_id pt = pid' ->
              In (pt_tag_id pt) (map t_id (tags db))) ->
  Sql.q_select_tag_names_of_post db' pid'
  = Sql.q_select_tag_names_of_post db pid'.
Proof.
  intros Ht Hnd Hpt Hex Hne Href.
  unfold Sql.q_select_tag_names_of_post, Sql.pairs_of_post.
  rewrite Hpt, filter_app.
  replace (filter (fun pt => pt_post_id pt =? pid') extra) with
    (@nil post_tag_row).
  2:{ symmetry. apply filter_none. intros pt Hin.
      rewrite (Hex pt Hin). now apply Z.eqb_neq. }
  rewrite app_nil_r.
  assert (H : forall pt,
            In pt (Sql.sort_by (fun a b => pt_tag_id a <=? pt_tag_id b)
                     (filter (fun pt => pt_post_id pt =? pid')
                        (post_tags db))) ->
            In (pt_tag_id pt) (map t_id (tags db))).
  { intros pt Hin. apply sort_by_In, filter_In in Hin.
    destruct Hin as [Hin E]. apply Z.eqb_eq in E. auto. }
  revert H. generalize (Sql.sort_by (fun a b => pt_tag_id a <=? pt_tag_id b)
                          (filter (fun pt => pt_post_id pt =? pid')
                             (post_tags db))). intros l H.
  induction l as [|pt l IH]; [reflexivity|]. simpl.
  rewrite IH by (intros x Hx; apply H; now right). f_equal.
  rewrite Ht, filter_app.
  replace (filter (fun t => t_id t =? pt_tag_id pt) new) with (@nil tag_row);
    [now rewrite app_nil_r|].
  symmetry. apply filter_none. intros t Hin.
  apply Z.eqb_neq. intros E.
  rewrite Ht, map_app in Hnd.
  pose proof (H pt (or_introl eq_refl)) as Hold. rewrite <- E in Hold.
  revert Hnd Hold Hin. clear. intros Hnd Hold Hin.
  induction (map t_id (tags db)) as [|x l IH]; [contradiction|].
  simpl in Hnd. inversion Hnd; subst. destruct Hold as [->|Hold]; [|auto].
  apply H1, in_or_app. right. apply in_map, Hin.
Qed.

Lemma refs_ok_spec (db : DB) :
  refs_ok db = true <->
  forall pt, In pt (post_tags db) ->
    In (pt_post_id pt) (map p_id (posts db)) /\
    In (pt_tag_id pt) (map t_id (tags db)).
Proof.
  unfold refs_ok. rewrite forallb_forall.
  split; intros H pt Hpt; specialize (H pt Hpt).
  - apply andb_true_iff in H. now rewrite <- !mem_In.
  - apply andb_true_iff. now rewrite !mem_In.
Qed.

Lemma filter_filter_other (pid pid' : Z) (l : list post_tag_row) :
  pid' <> pid ->
  filter (fun pt => pt_post_id pt =? pid')
    (filter (fun pt => negb (pt_post_id pt =? pid)) l)
  = filter (fun pt => pt_post_id pt =? pid') l.
Proof.
  intros Hne. induction l as [|pt l IH]; simpl; [reflexivity|].
  destruct (Z.eqb_spec (pt_post_id pt) pid) as [E|E]; simpl.
  - rewrite IH. destruct (Z.eqb_spec (pt_post_id pt) pid'); [congruence|].
    reflexivity.
  - now rewrite IH.
Qed.

(** The tail of the edit route leaves the other posts as they are. *)
Lemma retag_frame (pid : Z) (names : list string) (w : World) :
  integrity (w_db w) -> refs_ok (w_db w) = true ->
  In pid (map p_id (posts (w_db w))) -> NoDup names ->
  exists w',
    (delete_post_tags pid ;;;
     tagIds <- ensureTagIds names ;;
     attachTagsToPost pid tagIds ;;;
     ret (RedirectToPost pid)) w = Resolved (RedirectToPost pid, w') /\
    (forall pid', pid' <> pid ->
       Sql.q_select_tag_names_of_post (w_db w') pid'
       = Sql.q_select_tag_names_of_post (w_db w) pid') /\
    posts (w_db w') = posts (w_db w) /\
    users (w_db w') = users (w_db w) /\
    likes (w_db w') = likes (w_db w) /\
    refs_ok (w_db w') = true.
Proof.
  intros I Hrefs Hpid Hnd. unfold bind at 1, delete_post_tags.
  set (db1 := set_post_tags (w_db w)
                (filter (fun pt => negb (pt_post_id pt =? pid))
                   (post_tags (w_db w)))).
  set (w1 := logged (DeletePostTags pid) w db1).
  pose proof (proj1 (refs_ok_spec _) Hrefs) as Hr.
  destruct (attach_names_spec pid names (RedirectToPost pid) w1)
    as [w' [new [extra [E [Ht [Hid [Hpt [Hex [_ [Hu [Hp [Hl _]]]]]]]]]]]].
  - apply (tags_key _ I).
  - apply (tags_name_unique _ I).
  - simpl. apply NoDup_filter, (post_tags_key _ I).
  - exact Hnd.
  - simpl. intros pt Hin. apply filter_In in Hin. destruct Hin as [_ Hin].
    apply negb_true_iff, Z.eqb_neq in Hin. exact Hin.
  - exists w'. split; [exact E|]. simpl w_db in *. split; [|repeat split; auto].
    + intros pid' Hne.
      rewrite (tag_names_frame db1 (w_db w') pid pid' new extra Ht Hid Hpt);
        auto.
      * unfold Sql.q_select_tag_names_of_post, Sql.pairs_of_post. simpl.
        now rewrite filter_filter_other.
      * intros pt Hin. now apply Hex.
      * simpl. intros pt Hin _. apply filter_In in Hin. now apply Hr.
    + apply refs_ok_spec. intros pt Hin. rewrite Hpt in Hin.
      apply in_app_or in Hin. rewrite Hp. destruct Hin as [Hin|Hin].
      * simpl in Hin. apply filter_In in Hin. destruct Hin as [Hin _].
        destruct (Hr pt Hin) as [H1 H2]. split; [exact H1|].
        rewrite Ht. simpl. rewrite map_app. apply in_or_app. now left.
      * destruct (Hex pt Hin) as [-> H2]. auto.
Qed.

(** X12.  On a sound database whose pairs refer to existing posts and
    tags, an edit by the owner leaves every other post with the tag names
    it had, and leaves the posts, the users and the likes as they are. *)
Theorem edit_leaves_other_posts (db : DB) (log : list stmt)
    (user : session_user) (id : Z) (post : post_row)
    (body_tags : option string) :
  wf_db db = true ->
  refs_ok db = true ->
  Sql.q_select_post_by_id db id = Some post ->
  p_user_id post = s_id user ->
  exists w',
    post_edit (Some user) id body_tags (world db log)
    = Resolved (RedirectToPost id, w') /\
    (forall pid, pid <> id ->
       Sql.q_select_tag_names_of_post (w_db w') pid
       = Sql.q_select_tag_names_of_post db pid) /\
    posts (w_db w') = posts db /\
    users (w_db w') = users db /\
    likes (w_db w') = likes db /\
    refs_ok (w_db w') = true.
Proof.
  intros Hwf Hrefs F Ho. apply wf_db_integrity in Hwf.
  rewrite (post_edit_owner db log user id post body_tags F Ho).
  assert (Hin : In id (map p_id (posts db))).
  { destruct (select_post_by_id_spec db id post F) as [Hp <-].
    apply in_map, Hp. }
  destruct (blank body_tags).
  - apply (retag_frame id _
             (logged (SelectTagNamesOfPost id)
                (logged (SelectPostById id) (world db log) db) db));
      auto using parseTags_NoDup.
  - apply (retag_frame id _ (logged (SelectPostById id) (world db log) db));
      auto using parseTags_NoDup.
Qed.

Lemma edit_leaves_other_posts_witness :
  exists w',
    post_edit (Some session_alice) 1 (Some "#bird") (world db_cats [])
    = Resolved (RedirectToPost 1, w') /\
    Sql.q_select_tag_names_of_post (w_db w') 2 = ["#cat"].
Proof.
  destruct (edit_leaves_other_posts db_cats [] session_alice 1
              (mk_post 1 100) (Some "#bird"))
    as [w' [E [H _]]]; try reflexivity.
  exists w'. split; [exact E|]. rewrite (H 2) by discriminate. reflexivity.
Defined.

(** X13.  On a sound database whose pairs refer to existing posts and
    tags, an upload by a signed-in user with a file adds one post, with
    an identifier no post has, owned by the user; the post is tagged with
    exactly the names [parseTags] yields for the tag text; every other
    post keeps its tag names, and every vocabulary row, user and like is
    kept. *)
Theorem upload_creates_post (db : DB) (log : list stmt)
    (user : session_user) (body_tags : option string) (filename : string)
    (now : Z) :
  wf_db db = true ->
  refs_ok db = true ->
  exists id w',
    post_upload (Some user) true body_tags filename now (world db log)
    = Resolved (RedirectToPost id, w') /\
    ~ In id (map p_id (posts db)) /\
    posts (w_db w')
    = posts db ++ [{| p_id := id; p_user_id := s_id user;
                      p_filename := filename; p_created_at := now |}] /\
    Permutation (Sql.q_select_tag_names_of_post (w_db w') id)
      (parseTags (or_else body_tags "")) /\
    (forall pid, pid <> id ->
       Sql.q_select_tag_names_of_post (w_db w') pid
       = Sql.q_select_tag_names_of_post db pid) /\
    (forall t, In t (tags db) -> In t (tags (w_db w'))) /\
    users (w_db w') = users db /\
    likes (w_db w') = likes db /\
    refs_ok (w_db w') = true.
Proof.
  intros Hwf Hrefs. apply wf_db_integrity in Hwf.
  pose proof (proj1 (refs_ok_spec _) Hrefs) as Hr.
  unfold post_upload. cbn [negb]. unfold bind at 1, insert_post.
  cbn [w_db world].
  set (id := Sql.next_rowid (seq_posts db) (map p_id (posts db))).
  set (w1 := logged _ _ _).
  assert (Hfresh : ~ In id (map p_id (posts db))) by apply next_rowid_fresh.
  destruct (attach_names_spec id (parseTags (or_else body_tags ""))
              (RedirectToPost id) w1)
    as [w' [new [extra [E [Ht [Hid [Hpt [Hex [Hperm [Hu [Hp [Hl _]]]]]]]]]]]].
  - apply (tags_key _ Hwf).
  - apply (tags_name_unique _ Hwf).
  - apply (post_tags_key _ Hwf).
  - apply parseTags_NoDup.
  - simpl. intros pt Hin E. apply Hfresh. rewrite <- E. now apply Hr.
  - exists id, w'. split; [exact E|]. simpl w_db in *.
    split; [exact Hfresh|]. split; [exact Hp|]. split; [exact Hperm|].
    split; [|split; [|split; [exact Hu|split; [exact Hl|]]]].
    + intros pid Hne.
      apply (tag_names_frame _ (w_db w') id pid new extra Ht Hid Hpt); auto.
      * intros pt Hin. now apply Hex.
      * simpl. intros pt Hin _. now apply Hr.
    + intros t Hin. rewrite Ht. simpl. apply in_or_app. now left.
    + apply refs_ok_spec. intros pt Hin. rewrite Hpt in Hin.
      apply in_app_or in Hin. rewrite Hp. simpl. rewrite map_app.
      destruct Hin as [Hin|Hin].
      * simpl in Hin. destruct (Hr pt Hin) as [H1 H2].
        split; [apply in_or_app; now left|].
        rewrite Ht. simpl. rewrite map_app. apply in_or_app. now left.
      * destruct (Hex pt Hin) as [-> H2]. split; [|exact H2].
        apply in_or_app. right. now left.
Qed.

Lemma upload_creates_post_witness :
  exists id w',
    post_upload (Some session_alice) true (Some "#Cat #new") "https://img/x"
      300 (world db_cats [])
    = Resolved (RedirectToPost id, w') /\
    Permutation (Sql.q_select_tag_names_of_post (w_db w') id)
      ["#cat"; "#new"].
Proof.
  destruct (upload_creates_post db_cats [] session_alice (Some "#Cat #new")
              "https://img/x" 300)
    as [id [w' [E [_ [_ [H _]]]]]]; try reflexivity.
  exists id, w'. split; [exact E | exact H].
Defined.

Lemma find_filtered_out {A} (f g : A -> bool) (l : list A) :
  (forall x, f x = true -> g x = false) -> find f (filter g l) = None.
Proof.
  intros H. induction l as [|x l IH]; simpl; [reflexivity|].
  destruct (g x) eqn:G; [|exact IH]. simpl.
  destruct (f x) eqn:F; [|exact IH]. rewrite (H x F) in G. discriminate.
Qed.

(** What the delete route does for the owner of an existing post. *)
Lemma post_delete_owner (db : DB) (log : list stmt) (user : session_user)
    (id : Z) (post : post_row) :
  Sql.q_select_post_by_id db id = Some post ->
  p_user_id post = s_id user ->
  post_delete (Some user) id (world db log) =
  Resolved
    (RedirectToMyPosts,
     logged (DeletePost id)
       (logged (DeletePostTags id)
          (logged (SelectPostById id) (world db log) db)
          (set_post_tags db
             (filter (fun pt => negb (pt_post_id pt =? id)) (post_tags db))))
       (set_posts
          (set_post_tags db
             (filter (fun pt => negb (pt_post_id pt =? id)) (post_tags db)))
          (filter (fun p => negb (p_id p =? id)) (posts db))
          (seq_posts db))).
Proof.
  intros F Ho. unfold post_delete. unfold bind at 1, select at 1.
  cbn [w_db world]. rewrite F.
  destruct (select_post_by_id_spec db id post F) as [_ Hid].
  rewrite Hid, Ho, Z.eqb_refl. reflexivity.
Qed.

(** X14.  A delete by the owner removes the post and its post-tag pairs
    and nothing else: other posts keep their rows and tag names, the
    vocabulary keeps every row, and the likes stay as they are, those of
    the deleted post included. *)
Theorem delete_removes_post (db : DB) (log : list stmt) (user : session_user)
    (id : Z) (post : post_row) :
  Sql.q_select_post_by_id db id = Some post ->
  p_user_id post = s_id user ->
  exists w',
    post_delete (Some user) id (world db log)
    = Resolved (RedirectToMyPosts, w') /\
    Sql.q_select_post_by_id (w_db w') id = None /\
    (forall p, In p (posts (w_db w')) <-> In p (posts db) /\ p_id p <> id) /\
    (forall pt, In pt (post_tags (w_db w')) <->
                In pt (post_tags db) /\ pt_post_id pt <> id) /\
    Sql.q_select_tag_names_of_post (w_db w') id = [] /\
    (forall pid, pid <> id ->
       Sql.q_select_tag_names_of_post (w_db w') pid
       = Sql.q_select_tag_names_of_post db pid) /\
    tags (w_db w') = tags db /\
    likes (w_db w') = likes db /\
    users (w_db w') = users db.
Proof.
  intros F Ho. rewrite (post_delete_owner db log user id post F Ho).
  eexists. split; [reflexivity|]. cbn [w_db logged].
  split; [|split; [|split; [|split; [|split; [|repeat split]]]]].
  - unfold Sql.q_select_post_by_id. simpl. apply find_filtered_out.
    intros p E. now rewrite E.
  - intros p. simpl. rewrite filter_In, negb_true_iff, Z.eqb_neq. tauto.
  - intros pt. simpl. rewrite filter_In, negb_true_iff, Z.eqb_neq. tauto.
  - unfold Sql.q_select_tag_names_of_post, Sql.pairs_of_post. simpl.
    rewrite filter_none; [reflexivity|].
    intros pt Hin. apply filter_In in Hin. destruct Hin as [_ Hin].
    now apply negb_true_iff in Hin.
  - intros pid Hne.
    unfold Sql.q_select_tag_names_of_post, Sql.pairs_of_post. simpl.
    now rewrite filter_filter_other.
Qed.

Lemma delete_removes_post_witness :
  exists w',
    post_delete (Some session_alice) 1 (world db_cats [])
    = Resolved (RedirectToMyPosts, w') /\
    Sql.q_select_post_by_id (w_db w') 1 = None.
Proof.
  destruct (delete_removes_post db_cats [] session_alice 1 (mk_post 1 100))
    as [w' [E [H _]]]; try reflexivity.
  exists w'. auto.
Defined.

Lemma full_result_in_posts (db : DB) (q : query) (r : post_result) :
  In r (full_result db q) -> In (r_post r) (posts db).
Proof.
  unfold full_result. intros H. apply sort_by_In in H. revert H.
  unfold matching. destruct (tagsQuery_of q).
  - unfold Sql.posts_left_join_users. intros H. apply in_flat_map in H.
    destruct H as [p [Hp H]].
    destruct (Sql.users_of db (p_user_id p)) as [|u us].
    + destruct H as [<-|[]]. exact Hp.
    + apply in_map_iff in H. destruct H as [x [<- _]]. exact Hp.
  - destruct (_ =? _)%nat; [|contradiction].
    unfold Sql.posts_tagged_rows. intros H. apply in_flat_map in H.
    destruct H as [p [Hp H]].
    destruct (Sql.having_all _ _ _ p); [|contradiction].
    destruct (Sql.users_of db (p_user_id p)); [contradiction|].
    destruct H as [<-|[]]. exact Hp.
Qed.

(** X15.  After a delete by its owner, a search, with or without tags,
    resolves on every page up to [max_page]; and whenever a search
    resolves, on any page, it does not return the deleted post. *)
Theorem deleted_post_is_not_found (db : DB) (log : list stmt)
    (user : session_user) (id : Z) (post : post_row) :
  Sql.q_select_post_by_id db id = Some post ->
  p_user_id post = s_id user ->
  exists w',
    post_delete (Some user) id (world db log)
    = Resolved (RedirectToMyPosts, w') /\
    (forall q log', page_of q <= max_page ->
       exists ps total w'',
         search q (world (w_db w') log') = Resolved ((ps, total), w'')) /\
    forall q log' ps total w'',
      search q (world (w_db w') log') = Resolved ((ps, total), w'') ->
      forall r, In r ps -> p_id (r_post r) <> id.
Proof.
  intros F Ho. rewrite (post_delete_owner db log user id post F Ho).
  eexists. split; [reflexivity|]. cbn [w_db logged].
  match goal with |- context [world ?d _] => set (db' := d) end.
  split.
  - intros q log' Hpage.
    destruct (search_form db' q log' (proj2 (offset_exact q Hpage)))
      as [total [w'' [E _]]].
    eauto.
  - intros q log' ps total w'' E r Hin.
    apply search_resolved_inv in E. destruct E as [-> _].
    unfold Sql.limit_offset, limit in Hin.
    simpl (12 <? 0) in Hin. cbv zeta in Hin.
    apply firstn_In, skipn_In, full_result_in_posts in Hin.
    subst db'. simpl in Hin. apply filter_In in Hin.
    destruct Hin as [_ Hin]. now apply negb_true_iff, Z.eqb_neq in Hin.
Qed.

Lemma deleted_post_is_not_found_witness :
  exists w',
    post_delete (Some session_alice) 1 (world db_cats [])
    = Resolved (RedirectToMyPosts, w') /\
    (exists ps total w'',
       search q_cat (world (w_db w') []) = Resolved ((ps, total), w'') /\
       map (fun r => p_id (r_post r)) ps = [2]) /\
    forall q log' ps total w'',
      search q (world (w_db w') log') = Resolved ((ps, total), w'') ->
      forall r, In r ps -> p_id (r_post r) <> 1.
Proof.
  destruct (deleted_post_is_not_found db_cats [] session_alice 1
              (mk_post 1 100)) as [w' [E [Hres Hnot]]]; try reflexivity.
  exists w'. split; [exact E|]. split; [|exact Hnot].
  destruct (Hres q_cat []) as [ps [total [w'' E2]]];
    [vm_compute; discriminate|].
  exists ps, total, w''. split; [exact E2|].
  vm_compute in E. injection E as <-.
  vm_compute in E2. injection E2 as <- _ _. reflexivity.
Defined.

(** X16.  Without the session of the owner of an existing post, the edit
    form, the edit and the delete are refused - 401 (or the login page)
    without a session, 404 for a missing post, 403 for another user's
    post - and the database stays as it is. *)
Theorem only_the_owner_edits_and_deletes (db : DB) (log : list stmt)
    (session : option session_user) (id : Z) (body_tags : option string) :
  (forall user post, session = Some user ->
     Sql.q_select_post_by_id db id = Some post ->
     p_user_id post <> s_id user) ->
  let code :=
    match session, Sql.q_select_post_by_id db id with
    | None, _ => 401
    | Some _, None => 404
    | Some _, Some _ => 403
    end in
  (exists text w',
      post_edit session id body_tags (world db log)
      = Resolved (Status code text, w') /\ w_db w' = db) /\
  (exists text w',
      post_delete session id (world db log)
      = Resolved (Status code text, w') /\ w_db w' = db) /\
  (exists r w',
      get_edit session id (world db log) = Resolved (r, w') /\
      w_db w' = db /\
      r = match session, Sql.q_select_post_by_id db id with
          | None, _ => Redirect "/login"
          | Some _, None => Send 404 "Post not found"
          | Some _, Some _ => Send 403 "not allowed"
          end).
Proof.
  intros H code. subst code.
  unfold post_edit, post_delete, get_edit, bind, select, ret, world.
  destruct session as [user|]; cbv beta iota.
  - change (w_db {| w_db := db; w_log := log |}) with db.
    destruct (Sql.q_select_post_by_id db id) as [post|] eqn:F; cbv beta iota.
    + specialize (H user post eq_refl eq_refl). apply Z.eqb_neq in H.
      rewrite H. cbn [negb].
      (split; [|split]); do 2 eexists; repeat split.
    + (split; [|split]); do 2 eexists; repeat split.
  - (split; [|split]); do 2 eexists; repeat split.
Qed.

Lemma only_the_owner_edits_and_deletes_witness :
  exists text w',
    post_delete (Some {| s_id := 7; s_username := "bob" |}) 1
      (world db_cats [])
    = Resolved (Status 403 text, w') /\ w_db w' = db_cats.
Proof.
  apply (only_the_owner_edits_and_deletes db_cats []
           (Some {| s_id := 7; s_username := "bob" |}) 1 None).
  intros user post [= <-] [= <-]. discriminate.
Defined.

(** * Likes *)

Lemma is_like_spec (uid pid : Z) (l : like_row) :
  is_like uid pid l = true <-> l = mk_like uid pid.
Proof.
  unfold is_like. rewrite andb_true_iff, !Z.eqb_eq. destruct l; simpl.
  split; [intros [-> ->]; reflexivity | intros [= -> ->]; auto].
Qed.

Lemma like_eqb_spec (a b : like_row) : like_eqb a b = true <-> a = b.
Proof.
  unfold like_eqb. rewrite andb_true_iff, !Z.eqb_eq.
  destruct a, b; simpl. split; [intros [-> ->]; reflexivity|].
  intros [= -> ->]. auto.
Qed.

Lemma likes_ok_spec (db : DB) : likes_ok db = true <-> NoDup (likes db).
Proof. apply (nodupb_NoDup like_eqb like_eqb_spec). Qed.

Lemma like_exists_In (db : DB) (uid pid : Z) :
  q_like_exists db uid pid = true <-> In (mk_like uid pid) (likes db).
Proof.
  unfold q_like_exists. rewrite existsb_exists. split.
  - intros [l [Hl E]]. apply is_like_spec in E. now subst.
  - intros H. exists (mk_like uid pid). split; [exact H|].
    now apply is_like_spec.
Qed.

(** The like route, for a signed-in user, whatever the post identifier. *)
Lemma post_like_form (db : DB) (user : session_user) (pid : Z) :
  post_like (Some user) pid db =
  Resolved (JsonLikes (q_count_likes (toggled db (s_id user) pid) pid),
            toggled db (s_id user) pid).
Proof.
  unfold post_like, toggled, dbind, dselect, dret, delete_like, insert_like.
  destruct (q_like_exists db (s_id user) pid) eqn:E; [reflexivity|].
  rewrite E. reflexivity.
Qed.

Lemma filter_absent_like (uid pid : Z) (ls : list like_row) :
  ~ In (mk_like uid pid) ls ->
  filter (fun l => negb (is_like uid pid l)) ls = ls.
Proof.
  intros H. apply filter_all. intros l Hl. apply negb_true_iff.
  destruct (is_like uid pid l) eqn:E; [|reflexivity].
  apply is_like_spec in E. subst. contradiction.
Qed.

Lemma count_without_like (uid pid : Z) (ls : list like_row) :
  NoDup ls -> In (mk_like uid pid) ls ->
  Sql.zlen (filter (fun l => l_post_id l =? pid)
              (filter (fun l => negb (is_like uid pid l)) ls))
  = Sql.zlen (filter (fun l => l_post_id l =? pid) ls) - 1.
Proof.
  unfold Sql.zlen. induction 1 as [|x ls Hx Hnd IH]; [contradiction|].
  intros [->|Hin].
  - cbn [filter]. rewrite (proj2 (is_like_spec _ _ _) eq_refl).
    cbn [negb mk_like l_post_id]. rewrite Z.eqb_refl.
    rewrite (filter_absent_like uid pid ls Hx).
    cbn [List.length]. lia.
  - specialize (IH Hin). cbn [filter].
    destruct (is_like uid pid x) eqn:E.
    + apply is_like_spec in E. subst. contradiction.
    + cbn [negb filter].
      destruct (l_post_id x =? pid); cbn [List.length]; lia.
Qed.

(** X17.  With the pairs of [likes] distinct, a request to the like route
    by a signed-in user - whether or not a post has that identifier -
    flips that user's like of the post, answers with the post's new
    count, which differs by one from the old, and touches no other like
    and no other table. *)
Theorem like_toggles (db : DB) (user : session_user) (pid : Z) :
  likes_ok db = true ->
  exists db',
    post_like (Some user) pid db
    = Resolved (JsonLikes (q_count_likes db' pid), db') /\
    q_like_exists db' (s_id user) pid
    = negb (q_like_exists db (s_id user) pid) /\
    q_count_likes db' pid
    = q_count_likes db pid
      + (if q_like_exists db (s_id user) pid then -1 else 1) /\
    (forall l, l <> mk_like (s_id user) pid ->
               (In l (likes db') <-> In l (likes db))) /\
    likes_ok db' = true /\
    users db' = users db /\ posts db' = posts db /\
    tags db' = tags db /\ post_tags db' = post_tags db.
Proof.
  intros Hok. apply likes_ok_spec in Hok.
  exists (toggled db (s_id user) pid).
  split; [apply post_like_form|]. unfold toggled.
  destruct (q_like_exists db (s_id user) pid) eqn:E.
  - apply like_exists_In in E as Hin. simpl.
    split; [|split; [|split; [|split; [|repeat split]]]].
    + apply not_true_iff_false. rewrite like_exists_In. simpl.
      rewrite filter_In. intros [_ F].
      now rewrite (proj2 (is_like_spec _ _ _) eq_refl) in F.
    + unfold q_count_likes, Sql.likes_count. simpl.
      rewrite (count_without_like _ _ _ Hok Hin). lia.
    + intros l Hl. rewrite filter_In, negb_true_iff. split; [tauto|].
      intros H. split; [exact H|].
      destruct (is_like (s_id user) pid l) eqn:F; [|reflexivity].
      apply is_like_spec in F. contradiction.
    + apply likes_ok_spec. simpl. now apply NoDup_filter.
  - assert (Hin : ~ In (mk_like (s_id user) pid) (likes db)).
    { rewrite <- like_exists_In. congruence. }
    simpl. split; [|split; [|split; [|split; [|repeat split]]]].
    + apply like_exists_In. simpl. apply in_or_app. right. now left.
    + unfold q_count_likes, Sql.likes_count, Sql.zlen. simpl.
      rewrite filter_app, length_app. simpl. rewrite Z.eqb_refl. simpl. lia.
    + intros l Hl. rewrite in_app_iff. simpl. split; [|auto].
      intros [H|[H|[]]]; [exact H | congruence].
    + apply likes_ok_spec. simpl. now apply NoDup_snoc.
Qed.

Lemma like_toggles_witness :
  exists db',
    post_like (Some session_alice) 1 db_liked
    = Resolved (JsonLikes (q_count_likes db' 1), db') /\
    q_count_likes db' 1 = 1.
Proof.
  destruct (like_toggles db_liked session_alice 1) as [db' [E [_ [H _]]]];
    [reflexivity|].
  exists db'. split; [exact E|]. rewrite H. reflexivity.
Defined.

Lemma perm_without_like (x : like_row) (ls : list like_row) :
  NoDup ls -> In x ls ->
  Permutation
    (filter (fun l => negb (is_like (l_user_id x) (l_post_id x) l)) ls ++ [x])
    ls.
Proof.
  induction 1 as [|y ls Hy Hnd IH]; [contradiction|].
  assert (Hx : mk_like (l_user_id x) (l_post_id x) = x) by (now destruct x).
  intros [->|Hin]; simpl.
  - rewrite (proj2 (is_like_spec _ _ _) (eq_sym Hx)). simpl.
    rewrite filter_absent_like by (now rewrite Hx).
    rewrite Permutation_app_comm. reflexivity.
  - destruct (is_like (l_user_id x) (l_post_id x) y) eqn:E.
    + apply is_like_spec in E. rewrite Hx in E. subst. contradiction.
    + simpl. constructor. apply IH, Hin.
Qed.

Lemma filter_length_perm {A} (f : A -> bool) (l l' : list A) :
  Permutation l l' ->
  List.length (filter f l) = List.length (filter f l').
Proof.
  induction 1 as [|x l l' Hp IH|x y l|l l' l'' H1 IH1 H2 IH2]; simpl.
  - reflexivity.
  - destruct (f x); simpl; congruence.
  - destruct (f x), (f y); reflexivity.
  - congruence.
Qed.

(** X18.  With the pairs of [likes] distinct, two requests in a row to
    the like route by the same user for the same post leave the same
    likes (and the very same table when the user had not liked the post);
    the second answer is the count the post had at first. *)
Theorem like_twice_restores (db : DB) (user : session_user) (pid : Z) :
  likes_ok db = true ->
  exists c1 db1 db2,
    post_like (Some user) pid db = Resolved (JsonLikes c1, db1) /\
    post_like (Some user) pid db1
    = Resolved (JsonLikes (q_count_likes db pid), db2) /\
    Permutation (likes db2) (likes db) /\
    (q_like_exists db (s_id user) pid = false -> db2 = db).
Proof.
  intros Hok. apply likes_ok_spec in Hok.
  rewrite !post_like_form. do 3 eexists. split; [reflexivity|].
  rewrite post_like_form.
  set (uid := s_id user).
  assert (Hperm : Permutation (likes (toggled (toggled db uid pid) uid pid))
                    (likes db) /\
                  (q_like_exists db uid pid = false ->
                   toggled (toggled db uid pid) uid pid = db)).
  { unfold toggled. destruct (q_like_exists db uid pid) eqn:E.
    - split; [|discriminate]. apply like_exists_In in E as Hin.
      replace (q_like_exists _ uid pid) with false.
      + cbn [likes set_likes].
        apply (perm_without_like (mk_like uid pid) _ Hok Hin).
      + symmetry. apply not_true_iff_false. rewrite like_exists_In.
        cbn [likes set_likes]. rewrite filter_In. intros [_ F].
        now rewrite (proj2 (is_like_spec _ _ _) eq_refl) in F.
    - assert (Hin : ~ In (mk_like uid pid) (likes db)).
      { rewrite <- like_exists_In. congruence. }
      replace (q_like_exists _ uid pid) with true.
      + cbn [likes set_likes].
        assert (Hf : filter (fun l => negb (is_like uid pid l))
                       (likes db ++ [mk_like uid pid]) = likes db).
        { rewrite filter_app. cbn [filter].
          rewrite (proj2 (is_like_spec _ _ _) eq_refl). cbn [negb].
          now rewrite app_nil_r, (filter_absent_like _ _ _ Hin). }
        rewrite Hf. split; [reflexivity|]. intros _.
        destruct db; reflexivity.
      + symmetry. apply like_exists_In. cbn [likes set_likes].
        apply in_or_app. right. now left. }
  destruct Hperm as [Hperm Hsame]. split; [|split; [exact Hperm | exact Hsame]].
  assert (Hc : q_count_likes (toggled (toggled db uid pid) uid pid) pid
               = q_count_likes db pid).
  { unfold q_count_likes, Sql.likes_count, Sql.zlen.
    apply (f_equal Z.of_nat). apply filter_length_perm, Hperm. }
  now rewrite Hc.
Qed.

Lemma like_twice_restores_witness :
  exists c1 db1 db2,
    post_like (Some session_alice) 2 db_liked = Resolved (JsonLikes c1, db1) /\
    post_like (Some session_alice) 2 db1
    = Resolved (JsonLikes (q_count_likes db_liked 2), db2) /\
    db2 = db_liked.
Proof.
  destruct (like_twice_restores db_liked session_alice 2)
    as [c1 [db1 [db2 [E1 [E2 [_ H]]]]]]; [reflexivity|].
  exists c1, db1, db2. repeat split; auto.
Defined.

(** * Accounts *)

Lemma find_past_misses (us more : list user_row) (name : string) :
  existsb (fun u => String.eqb (u_username u) name) us = false ->
  find (fun u => String.eqb (u_username u) name) (us ++ more) =
  find (fun u => String.eqb (u_username u) name) more.
Proof.
  induction us as [|u us IH]; simpl; [reflexivity|].
  destruct (String.eqb (u_username u) name); [discriminate | exact IH].
Qed.

Lemma taken_spec (us : list user_row) (name : string) :
  existsb (fun u => String.eqb (u_username u) name) us = true <->
  In name (map u_username us).
Proof.
  rewrite existsb_exists, in_map_iff. split.
  - intros [u [Hu E]]. apply String.eqb_eq in E. eauto.
  - intros [u [E Hu]]. exists u. split; [exact Hu | now apply String.eqb_eq].
Qed.

Lemma accounts_ok_spec (db : DB) :
  accounts_ok db = true <-> NoDup (map u_username (users db)).
Proof. apply (nodupb_NoDup String.eqb String.eqb_eq). Qed.

(** The register route, with the [catch] resolved. *)
Lemma post_register_form (body_username body_password : option string)
    (hashed : string) (db : DB) :
  let username := JS.trim (or_else body_username "") in
  let password := or_else body_password "" in
  post_register body_username body_password hashed db =
  if negb (JS.truthy username) || negb (JS.truthy password) then
    Resolved (RenderForm "register" "fill both", db)
  else if existsb (fun u => String.eqb (u_username u) username) (users db)
  then Resolved (RenderForm "register" "username taken", db)
  else
    let id := Sql.next_rowid 0 (map u_id (users db)) in
    Resolved
      (SignedIn {| s_id := id; s_username := username |},
       set_users db
         (users db ++ [{| u_id := id; u_username := username;
                          u_password := hashed |}])).
Proof.
  intros username password. unfold post_register. fold username password.
  destruct (negb (JS.truthy username) || negb (JS.truthy password));
    [reflexivity|].
  unfold dcatch, dbind, insert_user, dret.
  destruct (existsb _ (users db)); reflexivity.
Qed.



Lemma find_user_unique (us : list user_row) (u : user_row) :
  NoDup (map u_username us) -> In u us ->
  find (fun x => String.eqb (u_username x) (u_username u)) us = Some u.
Proof.
  induction us as [|x us IH]; simpl; intros Hnd Hin; [contradiction|].
  inversion Hnd; subst. destruct Hin as [->|Hin].
  - now rewrite String.eqb_refl.
  - destruct (String.eqb_spec (u_username x) (u_username u)) as [E|E];
      [|auto].
    exfalso. apply H1. rewrite E. apply in_map, Hin.
Qed.

(** X20.  The login route changes nothing.  It signs in only a user of
    the table, found under the trimmed name, whose stored hash the
    password compares to; and with the names of the users distinct it
    signs in every such user. *)
Theorem login_signs_in_registered_users
    (compare : string -> string -> bool)
    (body_username body_password : option string) (db : DB) :
  let username := JS.trim (or_else body_username "") in
  let password := or_else body_password "" in
  exists r,
    post_login compare body_username body_password db = Resolved (r, db) /\
    (forall s, r = SignedIn s ->
       exists u, In u (users db) /\ u_username u = username /\
                 compare password (u_password u) = true /\
                 s = {| s_id := u_id u; s_username := u_username u |}) /\
    (accounts_ok db = true ->
     forall u, In u (users db) -> u_username u = username ->
       compare password (u_password u) = true ->
       r = SignedIn {| s_id := u_id u; s_username := u_username u |}).
Proof.
  intros username password. unfold post_login, dbind, dselect, dret.
  fold username password. unfold q_select_user_by_name.
  destruct (find _ (users db)) as [u|] eqn:F.
  - apply find_some in F as Hu. destruct Hu as [Hin Hn].
    apply String.eqb_eq in Hn.
    destruct (compare password (u_password u)) eqn:C; cbn [negb];
      eexists; (split; [reflexivity|]); split.
    + intros s [= <-]. exists u. auto.
    + intros Hacc v Hv Hvn Hc. apply accounts_ok_spec in Hacc.
      rewrite <- Hvn, (find_user_unique _ v Hacc Hv) in F.
      now injection F as ->.
    + discriminate.
    + intros Hacc v Hv Hvn Hc. apply accounts_ok_spec in Hacc.
      rewrite <- Hvn, (find_user_unique _ v Hacc Hv) in F.
      injection F as ->. congruence.
  - eexists. split; [reflexivity|]. split; [discriminate|].
    intros _ v Hv Hvn _. exfalso.
    apply (find_none _ _ F) in Hv. rewrite Hvn, String.eqb_refl in Hv.
    discriminate.
Qed.

(** X21.  After a registration that signed a user in, a login under the
    same name and password signs the same user in when the password
    compares to the hash stored, and is answered "invalid" when it does
    not. *)
Theorem register_then_login (compare : string -> string -> bool)
    (body_username body_password : option string) (hashed : string)
    (db db1 : DB) (s : session_user) :
  post_register body_username body_password hashed db
  = Resolved (SignedIn s, db1) ->
  post_login compare body_username body_password db1 =
  Resolved
    (if compare (or_else body_password "") hashed then SignedIn s
     else RenderForm "login" "invalid", db1).
Proof.
  rewrite post_register_form.
  destruct (negb _ || negb _); [discriminate|].
  destruct (existsb _ (users db)) eqn:Et; [discriminate|].
  intros [= <- <-]. unfold post_login, dbind, dselect, dret.
  unfold q_select_user_by_name. cbn [users set_users].
  rewrite (find_past_misses _ _ _ Et). cbn [find u_username].
  rewrite String.eqb_refl. cbn [u_password u_id u_username].
  destruct (compare (or_else body_password "") hashed); reflexivity.
Qed.

Lemma register_then_login_witness :
  exists s db1,
    post_register (Some "bob") (Some "pw") "pw" db_cats
    = Resolved (SignedIn s, db1) /\
    post_login String.eqb (Some "bob") (Some "pw") db1
    = Resolved (SignedIn s, db1).
Proof.
  do 2 eexists. split; [reflexivity|].
  apply (register_then_login String.eqb (Some "bob") (Some "pw") "pw" db_cats).
  reflexivity.
Defined.

(** * User pages *)

Lemma posts_of_user_listed (db : DB) (uid : Z) :
  lists_posts_of db uid (tags_of_posts db (q_select_posts_of_user db uid)).
Proof.
  unfold lists_posts_of, tags_of_posts, q_select_posts_of_user.
  set (own := filter (fun p => p_user_id p =? uid) (posts db)).
  set (rows := map (fun p => Sql.result_of db p None) own).
  split; [|split].
  - rewrite map_map. cbn [fst].
    transitivity (map r_post rows).
    + apply Permutation_map, sort_by_perm.
    + unfold rows. rewrite map_map. cbn [r_post Sql.result_of].
      now rewrite map_id.
  - assert (Hs : StronglySorted
                   (fun a b => Sql.row_le CreatedDesc a b = true)
                   (Sql.sort_by (Sql.row_le CreatedDesc) rows)).
    { apply sort_by_sorted; [apply row_le_total | apply row_le_trans]. }
    induction Hs as [|r l Hs IH Hr]; cbn [map]; constructor; [exact IH|].
    apply Forall_forall. intros x Hx. apply in_map_iff in Hx.
    destruct x as [r' names]. destruct Hx as [y [[= <- <-] Hy]].
    rewrite Forall_forall in Hr. specialize (Hr _ Hy).
    cbn [fst]. unfold created. simpl in Hr. lia.
  - intros r names Hin. apply in_map_iff in Hin.
    destruct Hin as [y [[= <- <-] Hy]]. split; [|split].
    + apply sort_by_In in Hy. unfold rows in Hy. apply in_map_iff in Hy.
      destruct Hy as [p [<- _]]. reflexivity.
    + intros n. symmetry. apply tagged_names.
    + intros W. apply wf_db_integrity in W.
      apply tag_names_of_post_NoDup;
        [apply (tags_key _ W) | apply (tags_name_unique _ W)
         | apply (post_tags_key _ W)].
Qed.

(** X22.  The pages of a user.  Without a session /myposts redirects to
    the login page; with one it lists the posts of the user of the
    session: each once, the newest first, each with its like count and
    with the names of its tags and no other name.  /user/:id answers 404
    when no user has the identifier, and otherwise shows that user and
    lists their posts in the same way.  Neither page changes the
    database. *)
Theorem user_pages_list_own_posts (db : DB) :
  get_myposts None db = Resolved (Redirect "/login", db) /\
  (forall user, exists rows,
     get_myposts (Some user) db = Resolved (RenderPosts "myposts" rows, db) /\
     lists_posts_of db (s_id user) rows) /\
  (forall uid,
     ~ In uid (map u_id (users db)) ->
     get_user uid db = Resolved (Send 404 "no user", db)) /\
  (forall uid,
     In uid (map u_id (users db)) ->
     exists u rows,
       In u (users db) /\ u_id u = uid /\
       get_user uid db
       = Resolved (RenderUser (uid, u_username u) rows, db) /\
       lists_posts_of db uid rows).
Proof.
  split; [reflexivity|]. split; [|split].
  - intros user. eexists. split; [reflexivity|]. apply posts_of_user_listed.
  - intros uid Hno. unfold get_user, dbind, dselect, dret.
    destruct (find _ (users db)) as [u|] eqn:F; [|reflexivity].
    exfalso. apply Hno. apply find_some in F. destruct F as [Hu E].
    apply Z.eqb_eq in E. rewrite <- E. apply in_map, Hu.
  - intros uid Hin. unfold get_user, dbind, dselect, dret.
    destruct (find _ (users db)) as [u|] eqn:F.
    + apply find_some in F. destruct F as [Hu E]. apply Z.eqb_eq in E.
      exists u. eexists. split; [exact Hu|]. split; [exact E|].
      rewrite E. split; [reflexivity|]. apply posts_of_user_listed.
    + exfalso. apply in_map_iff in Hin. destruct Hin as [u [E Hu]].
      apply (find_none _ _ F) in Hu. rewrite E, Z.eqb_refl in Hu.
      discriminate.
Qed.

(** * The tag link and the search box *)

Lemma split_comma_whole (s : string) :
  all_chars (fun c => negb (is_comma c)) s = true -> JS.split_comma s = [s].
Proof.
  induction s as [|c s IH]; simpl; [reflexivity|].
  rewrite andb_true_iff, negb_true_iff. unfold is_comma.
  intros [-> Hs]. now rewrite (IH Hs).
Qed.

Lemma split_comma_app (x rest : string) :
  all_chars (fun c => negb (is_comma c)) x = true ->
  JS.split_comma (x ++ "," ++ rest)%string = x :: JS.split_comma rest.
Proof.
  induction x as [|c x IH]; simpl; [reflexivity|].
  rewrite andb_true_iff, negb_true_iff. unfold is_comma.
  intros [-> Hx]. simpl in IH. now rewrite (IH Hx).
Qed.

Lemma split_comma_join (x : string) (l : list string) :
  Forall (fun t => all_chars (fun c => negb (is_comma c)) t = true) (x :: l) ->
  JS.split_comma (JS.join "," (x :: l)) = x :: l.
Proof.
  revert x. induction l as [|y l IH]; intros x H.
  - apply split_comma_whole. now inversion H.
  - inversion H as [|? ? Hx Hl]; subst.
    change (JS.join "," (x :: y :: l))
      with (x ++ "," ++ JS.join "," (y :: l))%string.
    rewrite (split_comma_app _ _ Hx). f_equal. apply IH, Hl.
Qed.

(** What the home route reads back from a [tags] parameter made of
    non-empty tokens without whitespace and commas, joined by commas. *)
Lemma tagsQuery_join (q : query) (l : list string) :
  Forall (fun t => JS.truthy t = true /\ no_ws t = true /\
                   all_chars (fun c => negb (is_comma c)) t = true) l ->
  tagsQuery_of (with_tags_param q (JS.join "," l)) = l.
Proof.
  intros H. unfold tagsQuery_of, with_tags_param. cbn [q_tags].
  rewrite or_else_some. destruct l as [|x l]; [reflexivity|].
  rewrite split_comma_join.
  - induction H as [|t ts [Ht [Hw _]] _ IH]; [reflexivity|].
    cbn [map filter]. rewrite (trim_no_ws t Hw), Ht. f_equal.
    exact IH.
  - eapply Forall_impl; [|exact H]. intros t Ht. apply Ht.
Qed.

Lemma all_chars_split_ws (f : ascii -> bool) (s : string) (b : bool)
    (t : string) :
  all_chars f s = true -> In t (JS.split_ws_from b s) ->
  all_chars f t = true.
Proof.
  revert b t. induction s as [|c s IH]; intros b t; simpl.
  - intros _ [<-|[]]. reflexivity.
  - rewrite andb_true_iff. intros [Hc Hs]. destruct (JS.is_ws c).
    + destruct b; [now apply IH|].
      intros [<-|H]; [reflexivity | now apply (IH true)].
    + destruct (JS.split_ws_from false s) as [|u rest] eqn:E.
      * intros [<-|[]]. simpl. now rewrite Hc.
      * intros [<-|H].
        -- simpl. rewrite Hc. apply (IH false); [exact Hs|].
           rewrite E. now left.
        -- apply (IH false); [exact Hs|]. rewrite E. now right.
Qed.

Lemma box_tokens_spec (value t : string) :
  In t (box_tokens value) ->
  JS.truthy t = true /\ no_ws t = true /\ In t (JS.split_ws value).
Proof.
  unfold box_tokens. rewrite filter_In, in_map_iff.
  intros [[u [E Hu]] Ht].
  pose proof (split_ws_no_ws _ _ _ Hu) as Hw.
  rewrite (trim_no_ws u Hw) in E. subst u. auto.
Qed.

Lemma with_marker_chars (f : ascii -> bool) (t : string) :
  f "#"%char = true -> all_chars f t = true ->
  all_chars f (with_marker t) = true.
Proof.
  intros Hf Ht. unfold with_marker.
  destruct (JS.startsWith_hash t); [exact Ht|]. simpl. now rewrite Hf.
Qed.

Lemma with_marker_truthy (t : string) : JS.truthy (with_marker t) = true.
Proof.
  unfold with_marker. destruct t as [|c t]; [reflexivity|].
  destruct (JS.startsWith_hash (String c t)); reflexivity.
Qed.

Lemma normTag_with_marker (t : string) : normTag (with_marker t) = normTag t.
Proof.
  unfold with_marker, normTag.
  destruct (JS.startsWith_hash t) eqn:E; [now rewrite E|]. reflexivity.
Qed.

(** X23.  Pressing Enter in the search box and loading the address it
    goes to: when the text has no comma, the home route searches exactly
    the tokens of the box, in their order, each lower-cased under one
    marker added where the token has none; whatever the other parameters
    of the address are. *)
Theorem enter_searches_the_typed_tokens (value : string) (q : query) :
  all_chars (fun c => negb (is_comma c)) value = true ->
  tagsQuery_of (with_tags_param q (on_enter value))
  = map with_marker (box_tokens value) /\
  normTags_of (with_tags_param q (on_enter value))
  = map normTag (box_tokens value) /\
  Forall (fun t => JS.truthy t = true /\ no_ws t = true) (box_tokens value).
Proof.
  intros Hc.
  assert (Hq : tagsQuery_of (with_tags_param q (on_enter value))
               = map with_marker (box_tokens value)).
  { change (on_enter value)
      with (JS.join "," (map with_marker (box_tokens value))).
    apply tagsQuery_join. apply Forall_forall. intros m Hm.
    apply in_map_iff in Hm. destruct Hm as [t [<- Ht]].
    apply box_tokens_spec in Ht. destruct Ht as [_ [Hw Hin]].
    split; [apply with_marker_truthy|]. split.
    - now apply with_marker_chars.
    - apply with_marker_chars; [reflexivity|].
      now apply (all_chars_split_ws _ value false). }
  split; [exact Hq|]. split.
  - unfold normTags_of. rewrite Hq, map_map.
    apply map_ext, normTag_with_marker.
  - apply Forall_forall. intros t Ht. apply box_tokens_spec in Ht. tauto.
Qed.

Lemma enter_searches_the_typed_tokens_witness :
  normTags_of (with_tags_param q_empty (on_enter " Cat  #dog "))
  = ["#cat"; "#dog"].
Proof.
  destruct (enter_searches_the_typed_tokens " Cat  #dog " q_empty)
    as [_ [H _]]; [reflexivity|].
  exact H.
Defined.

Lemma get_tag_names (name : string) :
  all_chars (fun c => negb (is_comma c)) name = true -> no_ws name = true ->
  normTags_of (get_tag name) = [normTag name].
Proof.
  intros Hc Hw. unfold normTags_of, tagsQuery_of, get_tag. cbn [q_tags].
  change (if JS.startsWith_hash name then name else ("#" ++ name)%string)
    with (with_marker name).
  rewrite or_else_some, split_comma_whole
    by (now apply with_marker_chars).
  cbn [map filter]. rewrite trim_no_ws by (now apply with_marker_chars).
  rewrite with_marker_truthy. cbn [map].
  now rewrite normTag_with_marker.
Qed.

(** X24.  The tag link.  For a name of the vocabulary that has no comma,
    the address /tag/:name redirects to searches that one name, given with
    or without its marker, and the search lists exactly the posts tagged
    with it. *)
Theorem tag_link_lists_tagged_posts (db : DB) (t : tag_row) :
  wf_db db = true -> In t (tags db) ->
  all_chars (fun c => negb (is_comma c)) (t_name t) = true ->
  normTags_of (get_tag (t_name t)) = [t_name t] /\
  normTags_of (get_tag (JS.drop_hashes (t_name t))) = [t_name t] /\
  forall p,
    In p (map r_post (full_result db (get_tag (t_name t)))) <->
    In p (posts db) /\ tagged db (p_id p) (t_name t) = true.
Proof.
  intros W Ht Hc. apply wf_db_integrity in W.
  pose proof (names_canonical db W t Ht) as Hcan.
  pose proof (canonical_no_ws _ Hcan) as Hws.
  destruct (canonical_parts _ Hcan) as [rest [En [Hh [Hw Hl]]]].
  assert (Hn : normTags_of (get_tag (t_name t)) = [t_name t]).
  { rewrite (get_tag_names _ Hc Hws). rewrite En. unfold normTag.
    change (JS.startsWith_hash (String "#" rest)) with true. cbv iota.
    simpl. now rewrite Hl. }
  split; [exact Hn|]. split.
  - rewrite get_tag_names.
    + rewrite En. cbn [JS.drop_hashes]. change (JS.is_hash "#") with true.
      cbv iota. rewrite (drop_hashes_id _ Hh). unfold normTag.
      rewrite Hh, Hl. reflexivity.
    + now apply all_chars_drop_hashes.
    + now apply all_chars_drop_hashes.
  - intros p. rewrite (full_result_posts db _ p W); rewrite Hn.
    + split.
      * intros [Hp H]. split; [exact Hp|]. apply H. now left.
      * intros [Hp H]. split; [exact Hp|]. intros n [<-|[]]. exact H.
    + discriminate.
    + repeat constructor. intros [].
    + intros n [<-|[]]. unfold in_vocabulary, JS.inb.
      apply existsb_exists. exists (t_name t).
      split; [now apply in_map | apply String.eqb_refl].
Qed.

Lemma tag_link_lists_tagged_posts_witness :
  normTags_of (get_tag "#cat") = ["#cat"].
Proof.
  destruct (tag_link_lists_tagged_posts db_cats (mk_tag 1 "#cat"))
    as [H _]; [reflexivity | now left | reflexivity | exact H].
Defined.

Lemma last_elt_In (a : list string) (t : string) :
  JS.last_elt a = Some t -> In t a.
Proof.
  unfold JS.last_elt. induction a as [|x a IH]; [discriminate|].
  destruct a as [|y a].
  - intros [= <-]. now left.
  - intros H. right. apply IH. exact H.
Qed.

(** X25.  The suggestions of the search box.  A prefix the input handler
    requests is never empty and never the one requested last; it is the
    last token of the text without its leading markers, in lower case,
    and has no whitespace.  The autocomplete route then reads it under
    one marker and answers with the rows of the one LIKE statement for
    that marked prefix followed by the wildcard. *)
Theorem input_requests_marked_prefix (lastQ value p : string)
    (db : DB) (log : list stmt) (q : query) :
  on_input lastQ value = Fetch p ->
  JS.truthy p = true /\ p <> lastQ /\
  JS.startsWith_hash p = false /\ JS.toLowerCase p = p /\
  no_ws p = true /\
  (exists token,
     JS.last_elt (JS.split_ws (JS.trim value)) = Some token /\
     p = JS.toLowerCase (JS.drop_hashes token)) /\
  normalized_prefix (with_q q p) = ("#" ++ p)%string /\
  get_autocomplete (with_q q p) (world db log)
  = Resolved
      (Json (Sql.q_select_tags_like db ("#" ++ p ++ "%")%string),
       world db (log ++ [SelectTagsLike ("#" ++ p ++ "%")%string])).
Proof.
  unfold on_input. destruct (negb (JS.truthy (JS.trim value))); [discriminate|].
  destruct (JS.last_elt _) as [token|] eqn:El; [|discriminate].
  assert (Er : JS.replace_leading_hashes "" token = JS.drop_hashes token).
  { unfold JS.replace_leading_hashes.
    destruct (JS.startsWith_hash token) eqn:E; [reflexivity|].
    symmetry. now apply drop_hashes_id. }
  rewrite Er. set (p0 := JS.toLowerCase (JS.drop_hashes token)).
  destruct (String.length p0 =? 0)%nat eqn:En; [discriminate|].
  destruct (String.eqb_spec p0 lastQ) as [E|E]; [discriminate|].
  intros [= <-].
  assert (Ht : JS.truthy p0 = true).
  { destruct p0; [discriminate | reflexivity]. }
  assert (Hh : JS.startsWith_hash p0 = false).
  { unfold p0. rewrite toLowerCase_head. apply drop_hashes_head. }
  assert (Hl : JS.toLowerCase p0 = p0) by apply toLowerCase_idem.
  split; [exact Ht|]. split; [exact E|]. split; [exact Hh|].
  split; [exact Hl|]. split.
  { apply toLowerCase_no_ws. apply all_chars_drop_hashes.
    apply last_elt_In in El. exact (split_ws_no_ws _ _ _ El). }
  split; [now exists token|].
  unfold normalized_prefix, get_autocomplete, with_q. cbn [q_q].
  rewrite or_else_some, Hl, Hh, Ht. split; reflexivity.
Qed.

Lemma input_requests_marked_prefix_witness :
  normalized_prefix (with_q q_empty "ca") = "#ca".
Proof.
  destruct (input_requests_marked_prefix "" "#dog ##Ca" "ca" db_cats []
              q_empty) as [_ [_ [_ [_ [_ [_ [H _]]]]]]]; [reflexivity|].
  exact H.
Defined.

(** * The site as a whole *)

Lemma sound_spec (db : DB) :
  sound db = true <->
  integrity db /\ refs_ok db = true /\ likes_ok db = true /\
  accounts_ok db = true.
Proof.
  unfold sound. rewrite !andb_true_iff, wf_db_integrity. tauto.
Qed.

Lemma post_edit_cases (db : DB) (log : list stmt)
    (session : option session_user) (id : Z) (body_tags : option string) :
  (exists code text w',
     post_edit session id body_tags (world db log)
     = Resolved (Status code text, w') /\ w_db w' = db) \/
  (exists user post,
     session = Some user /\ Sql.q_select_post_by_id db id = Some post /\
     p_user_id post = s_id user).
Proof.
  destruct session as [user|].
  - destruct (Sql.q_select_post_by_id db id) as [post|] eqn:F.
    + destruct (p_user_id post =? s_id user) eqn:E.
      * right. exists user, post. apply Z.eqb_eq in E. auto.
      * left. unfold post_edit, bind, select, ret, world. cbv beta iota.
        change (w_db {| w_db := db; w_log := log |}) with db.
        rewrite F. cbv beta iota. rewrite E. cbn [negb].
        do 3 eexists. split; reflexivity.
    + left. unfold post_edit, bind, select, ret, world. cbv beta iota.
      change (w_db {| w_db := db; w_log := log |}) with db.
      rewrite F. do 3 eexists. split; reflexivity.
  - left. do 3 eexists. split; reflexivity.
Qed.

Lemma post_delete_cases (db : DB) (log : list stmt)
    (session : option session_user) (id : Z) :
  (exists code text w',
     post_delete session id (world db log)
     = Resolved (Status code text, w') /\ w_db w' = db) \/
  (exists user post,
     session = Some user /\ Sql.q_select_post_by_id db id = Some post /\
     p_user_id post = s_id user).
Proof.
  destruct session as [user|].
  - destruct (Sql.q_select_post_by_id db id) as [post|] eqn:F.
    + destruct (p_user_id post =? s_id user) eqn:E.
      * right. exists user, post. apply Z.eqb_eq in E. auto.
      * left. unfold post_delete, bind, select, ret, world. cbv beta iota.
        change (w_db {| w_db := db; w_log := log |}) with db.
        rewrite F. cbv beta iota. rewrite E. cbn [negb].
        do 3 eexists. split; reflexivity.
    + left. unfold post_delete, bind, select, ret, world. cbv beta iota.
      change (w_db {| w_db := db; w_log := log |}) with db.
      rewrite F. do 3 eexists. split; reflexivity.
  - left. do 3 eexists. split; reflexivity.
Qed.

(** What the three routes on posts keep besides [integrity]. *)
Lemma post_upload_keeps (db : DB) (log : list stmt)
    (session : option session_user) (has_file : bool)
    (body_tags : option string) (filename : string) (now : Z)
    (r : response) (w' : World) :
  integrity db -> refs_ok db = true ->
  post_upload session has_file body_tags filename now (world db log)
  = Resolved (r, w') ->
  refs_ok (w_db w') = true /\ users (w_db w') = users db /\
  likes (w_db w') = likes db.
Proof.
  intros I Hrefs.
  pose proof (proj1 (refs_ok_spec _) Hrefs) as Hr.
  destruct session as [user|]; [destruct has_file|].
  - unfold post_upload. cbn [negb]. unfold bind at 1, insert_post.
    cbn [w_db world].
    set (id := Sql.next_rowid (seq_posts db) (map p_id (posts db))).
    set (w1 := logged _ _ _).
    assert (Hfresh : ~ In id (map p_id (posts db)))
      by apply next_rowid_fresh.
    destruct (attach_names_spec id (parseTags (or_else body_tags ""))
                (RedirectToPost id) w1)
      as [w2 [new [extra [E [Ht [_ [Hpt [Hex [_ [Hu [Hp [Hl _]]]]]]]]]]]].
    + apply (tags_key _ I).
    + apply (tags_name_unique _ I).
    + apply (post_tags_key _ I).
    + apply parseTags_NoDup.
    + simpl. intros pt Hin F. apply Hfresh. rewrite <- F. now apply Hr.
    + rewrite E. intros [= <- <-]. simpl w_db in *.
      split; [|split; [exact Hu | exact Hl]].
      apply refs_ok_spec. intros pt Hin. rewrite Hpt in Hin.
      apply in_app_or in Hin. rewrite Hp. simpl. rewrite map_app.
      destruct Hin as [Hin|Hin].
      * simpl in Hin. destruct (Hr pt Hin) as [H1 H2].
        split; [apply in_or_app; now left|].
        rewrite Ht. simpl. rewrite map_app. apply in_or_app. now left.
      * destruct (Hex pt Hin) as [-> H2]. split; [|exact H2].
        apply in_or_app. right. now left.
  - intros [= <- <-]. auto.
  - intros [= <- <-]. auto.
Qed.

Lemma post_edit_keeps (db : DB) (log : list stmt)
    (session : option session_user) (id : Z) (body_tags : option string)
    (r : response) (w' : World) :
  integrity db -> refs_ok db = true ->
  post_edit session id body_tags (world db log) = Resolved (r, w') ->
  refs_ok (w_db w') = true /\ users (w_db w') = users db /\
  likes (w_db w') = likes db.
Proof.
  intros I Hrefs.
  destruct (post_edit_cases db log session id body_tags)
    as [[code [text [w1 [E Hdb]]]] | [user [post [-> [F Ho]]]]].
  - rewrite E. intros [= <- <-]. rewrite Hdb. auto.
  - rewrite (post_edit_owner db log user id post body_tags F Ho).
    assert (Hin : In id (map p_id (posts db))).
    { destruct (select_post_by_id_spec db id post F) as [Hp <-].
      apply in_map, Hp. }
    destruct (blank body_tags).
    + destruct (retag_frame id
                  (parseTags
                     (JS.join " " (Sql.q_select_tag_names_of_post db id)))
                  (logged (SelectTagNamesOfPost id)
                     (logged (SelectPostById id) (world db log) db) db))
        as [w2 [E [_ [_ [Hu [Hl Hr]]]]]]; auto using parseTags_NoDup.
      rewrite E. intros [= <- <-]. auto.
    + destruct (retag_frame id (parseTags (or_else body_tags ""))
                  (logged (SelectPostById id) (world db log) db))
        as [w2 [E [_ [_ [Hu [Hl Hr]]]]]]; auto using parseTags_NoDup.
      rewrite E. intros [= <- <-]. auto.
Qed.

Lemma post_delete_keeps (db : DB) (log : list stmt)
    (session : option session_user) (id : Z) (r : response) (w' : World) :
  refs_ok db = true ->
  post_delete session id (world db log) = Resolved (r, w') ->
  refs_ok (w_db w') = true /\ users (w_db w') = users db /\
  likes (w_db w') = likes db.
Proof.
  intros Hrefs.
  pose proof (proj1 (refs_ok_spec _) Hrefs) as Hr.
  destruct (post_delete_cases db log session id)
    as [[code [text [w1 [E Hdb]]]] | [user [post [-> [F Ho]]]]].
  - rewrite E. intros [= <- <-]. rewrite Hdb. auto.
  - rewrite (post_delete_owner db log user id post F Ho).
    intros [= <- <-]. cbn [w_db logged]. split; [|auto].
    apply refs_ok_spec. cbn [posts tags post_tags set_posts set_post_tags].
    intros pt Hin. apply filter_In in Hin.
    destruct Hin as [Hin Hne]. apply negb_true_iff, Z.eqb_neq in Hne.
    destruct (Hr pt Hin) as [H1 H2]. split; [|exact H2].
    apply in_map_iff in H1. destruct H1 as [p [Ep Hp]].
    apply in_map_iff. exists p. split; [exact Ep|].
    apply filter_In. split; [exact Hp|].
    apply negb_true_iff, Z.eqb_neq. congruence.
Qed.

Lemma toggled_keeps (db : DB) (uid pid : Z) :
  NoDup (likes db) ->
  NoDup (likes (toggled db uid pid)) /\
  users (toggled db uid pid) = users db /\
  posts (toggled db uid pid) = posts db /\
  tags (toggled db uid pid) = tags db /\
  post_tags (toggled db uid pid) = post_tags db.
Proof.
  intros Hok. unfold toggled.
  destruct (q_like_exists db uid pid) eqn:E; cbn; repeat split.
  - now apply NoDup_filter.
  - apply NoDup_snoc; [exact Hok|]. rewrite <- like_exists_In. congruence.
Qed.

Lemma integrity_same_tables (db db' : DB) :
  integrity db ->
  users db' = users db -> posts db' = posts db -> tags db' = tags db ->
  post_tags db' = post_tags db -> integrity db'.
Proof.
  intros [] Hu Hp Ht Hpt.
  constructor; rewrite ?Hu, ?Hp, ?Ht, ?Hpt; assumption.
Qed.

Lemma refs_ok_same_tables (db db' : DB) :
  posts db' = posts db -> tags db' = tags db ->
  post_tags db' = post_tags db -> refs_ok db' = refs_ok db.
Proof. unfold refs_ok. now intros -> -> ->. Qed.

Lemma sessions_kept (s : site) (db' : DB) :
  sessions_ok s -> users db' = users (site_db s) ->
  sessions_ok {| site_db := db'; site_sessions := site_sessions s |}.
Proof. unfold sessions_ok. cbn. now intros H ->. Qed.

(** One request from a sound site: it is answered, and the site it
    leaves is sound. *)
Lemma serve_sound (compare : string -> string -> bool)
    (session : option session_user) (r : request) (s : site) :
  sound (site_db s) = true -> sessions_ok s ->
  (forall u, session = Some u -> In u (site_sessions s)) ->
  exists s', serve compare session r s = Some s' /\
             sound (site_db s') = true /\ sessions_ok s'.
Proof.
  intros Hs Hse Hissued. apply sound_spec in Hs.
  destruct Hs as [I [Hrefs [Hlikes Hacc]]].
  assert (Hreg : forall user, session = Some user ->
                   In (s_id user) (map u_id (users (site_db s)))).
  { intros user E. destruct (Hse user (Hissued user E)) as [row [Hin [<- _]]].
    apply in_map, Hin. }
  destruct r as [u p hashed|u p|has_file t filename now|id t|id|id];
    unfold serve.
  - rewrite post_register_form.
    destruct (negb _ || negb _);
      [eexists; split; [reflexivity|]; split;
       [apply sound_spec; auto | exact Hse]|].
    destruct (existsb _ (users (site_db s))) eqn:Et;
      [eexists; split; [reflexivity|]; split;
       [apply sound_spec; auto | exact Hse]|].
    assert (Hfree : ~ In (JS.trim (or_else u ""))
                      (map u_username (users (site_db s)))).
    { rewrite <- taken_spec. congruence. }
    eexists. split; [reflexivity|]. cbn [site_db site_sessions]. split.
    + apply sound_spec. split; [|split; [exact Hrefs|split; [exact Hlikes|]]].
      * destruct I. constructor; cbn; try assumption.
        -- rewrite map_app. apply NoDup_snoc; [assumption|].
           apply next_rowid_fresh.
        -- intros q Hq. rewrite map_app. apply in_or_app. left. auto.
      * apply accounts_ok_spec. cbn. rewrite map_app.
        apply NoDup_snoc; [now apply accounts_ok_spec | exact Hfree].
    + intros x [<-|Hx].
      * eexists. split; [cbn; apply in_or_app; right; now left|]. auto.
      * destruct (Hse x Hx) as [row [Hin Hrow]]. exists row.
        split; [cbn; apply in_or_app; now left | exact Hrow].
  - unfold post_login, dbind, dselect, dret, q_select_user_by_name.
    destruct (find _ (users (site_db s))) as [row|] eqn:F.
    + destruct (compare (or_else p "") (u_password row)); cbn [negb signed].
      * eexists. split; [reflexivity|]. split; [apply sound_spec; auto|].
        intros x [<-|Hx]; [|exact (Hse x Hx)].
        exists row. apply find_some in F. cbn. tauto.
      * eexists. split; [reflexivity|].
        split; [apply sound_spec; auto | exact Hse].
    + eexists. split; [reflexivity|].
      split; [apply sound_spec; auto | exact Hse].
  - destruct (post_upload_sound (site_db s) [] session has_file t filename
                now I Hreg) as [r [w' [E I']]].
    destruct (post_upload_keeps _ _ _ _ _ _ _ _ _ I Hrefs E)
      as [Hr [Hu Hl]].
    rewrite E. eexists. split; [reflexivity|]. cbn [site_db]. split.
    + apply sound_spec. unfold likes_ok, accounts_ok in *.
      now rewrite Hu, Hl.
    + now apply sessions_kept.
  - destruct (post_edit_sound (site_db s) [] session id t I)
      as [r [w' [E I']]].
    destruct (post_edit_keeps _ _ _ _ _ _ _ I Hrefs E) as [Hr [Hu Hl]].
    rewrite E. eexists. split; [reflexivity|]. cbn [site_db]. split.
    + apply sound_spec. unfold likes_ok, accounts_ok in *.
      now rewrite Hu, Hl.
    + now apply sessions_kept.
  - destruct (post_delete_sound (site_db s) [] session id I)
      as [r [w' [E I']]].
    destruct (post_delete_keeps _ _ _ _ _ _ Hrefs E) as [Hr [Hu Hl]].
    rewrite E. eexists. split; [reflexivity|]. cbn [site_db]. split.
    + apply sound_spec. unfold likes_ok, accounts_ok in *.
      now rewrite Hu, Hl.
    + now apply sessions_kept.
  - destruct session as [user|].
    + rewrite post_like_form.
      destruct (toggled_keeps (site_db s) (s_id user) id)
        as [Hn [Hu [Hp [Ht Hpt]]]]; [now apply likes_ok_spec|].
      eexists. split; [reflexivity|]. cbn [site_db]. split.
      * apply sound_spec. split; [|split; [|split]].
        -- now apply (integrity_same_tables (site_db s)).
        -- now rewrite (refs_ok_same_tables (site_db s)).
        -- now apply likes_ok_spec.
        -- unfold accounts_ok in *. now rewrite Hu.
      * now apply sessions_kept.
    + eexists. split; [reflexivity|].
      split; [apply sound_spec; auto | exact Hse].
Qed.

(** X26.  From the empty database, whatever requests to the writing
    routes come, each without a session or with a session the server
    issued: every constraint of the schema holds (keys, unique names,
    foreign keys of posts and pairs, canonical tag names), every session
    holds the identifier and name of a user of the table, and the next
    request is answered without a failing statement. *)
Theorem site_stays_sound (compare : string -> string -> bool) (s : site) :
  reachable compare s ->
  sound (site_db s) = true /\
  sessions_ok s /\
  forall session r,
    (forall u, session = Some u -> In u (site_sessions s)) ->
    exists s', serve compare session r s = Some s'.
Proof.
  intros H.
  assert (Hinv : sound (site_db s) = true /\ sessions_ok s).
  { induction H as [|s s' session r _ [IH1 IH2] Hiss E].
    - split; [reflexivity | intros u []].
    - destruct (serve_sound compare session r s IH1 IH2 Hiss)
        as [s2 [E2 H2]].
      rewrite E in E2. now injection E2 as ->. }
  destruct Hinv as [H1 H2]. split; [exact H1|]. split; [exact H2|].
  intros session r Hiss.
  destruct (serve_sound compare session r s H1 H2 Hiss) as [s' [E _]].
  eauto.
Qed.

Lemma site_stays_sound_witness :
  reachable String.eqb site_bob /\
  exists s,
    serve String.eqb (Some bob) (Upload true (Some "#Cat") "https://img/x" 5)
      site_bob = Some s /\
    sound (site_db s) = true /\
    sessions_ok s /\
    map p_user_id (posts (site_db s)) = [1] /\
    map t_name (tags (site_db s)) = ["#cat"].
Proof.
  assert (R : reachable String.eqb site_bob).
  { apply (reach_step String.eqb
             {| site_db := db_empty; site_sessions := [] |} site_bob None
             (Register (Some " bob ") (Some "pw") "$2b$10$h")).
    - apply reach_start.
    - discriminate.
    - reflexivity. }
  split; [exact R|].
  destruct (site_stays_sound String.eqb site_bob R) as [_ [_ Hnext]].
  destruct (Hnext (Some bob)
              (Upload true (Some "#Cat") "https://img/x" 5)) as [s E].
  { intros u [= <-]. now left. }
  assert (R2 : reachable String.eqb s).
  { apply (reach_step String.eqb site_bob s (Some bob)
             (Upload true (Some "#Cat") "https://img/x" 5) R);
      [intros u [= <-]; now left | exact E]. }
  destruct (site_stays_sound String.eqb s R2) as [Hs [Hse _]].
  exists s. split; [exact E|]. split; [exact Hs|]. split; [exact Hse|].
  vm_compute in E. injection E as <-. split; reflexivity.
Defined.

(** * Pages past the 64-bit integers *)

Lemma to_double_ge (z : Z) : 2 ^ 53 <= z -> 2 ^ Z.log2 z <= JS.to_double z.
Proof.
  intros H. assert (H0 : 0 < 2 ^ 53) by reflexivity.
  unfold JS.to_double. rewrite (Z.abs_eq z) by lia.
  destruct (Z.ltb_spec z (2 ^ 53)) as [F|_]; [lia|].
  assert (Hk : 53 <= Z.log2 z).
  { replace 53 with (Z.log2 (2 ^ 53)) by reflexivity.
    apply Z.log2_le_mono. exact H. }
  destruct (Z.log2_spec z ltac:(lia)) as [Hlo _].
  set (k := Z.log2 z) in *. cbv zeta. set (ulp := 2 ^ (k - 52)).
  assert (Hu : 0 < ulp) by (apply Z.pow_pos_nonneg; lia).
  assert (Hp : 2 ^ k = 2 ^ 52 * ulp).
  { unfold ulp. rewrite <- Z.pow_add_r by lia. f_equal. lia. }
  assert (Hq : 2 ^ 52 <= z / ulp).
  { apply Z.div_le_lower_bound; lia. }
  rewrite (Z.sgn_pos z) by lia. rewrite Hp.
  set (c := 2 ^ 52) in *. set (d := z / ulp) in *.
  destruct (2 * (z mod ulp) <? ulp); [nia|].
  destruct (ulp <? 2 * (z mod ulp)); [nia|].
  destruct (Z.even d); nia.
Qed.

Lemma to_double_ge_pow (z n : Z) :
  53 <= n -> 2 ^ n <= z -> 2 ^ n <= JS.to_double z.
Proof.
  intros Hn Hz.
  assert (H53 : 2 ^ 53 <= 2 ^ n) by (apply Z.pow_le_mono_r; lia).
  etransitivity; [|apply to_double_ge; lia].
  apply Z.pow_le_mono_r; [lia|].
  rewrite <- (Z.log2_pow2 n) by lia. apply Z.log2_le_mono. exact Hz.
Qed.

(** X27.  A page past 2^60 makes the home route fail: the offset, a
    double, is no 64-bit integer, the statement with [LIMIT ? OFFSET ?]
    is refused with SQLITE_MISMATCH and the promise of the handler is
    rejected - unless a requested name is unknown, in which case that
    statement is never issued. *)
Theorem search_rejects_huge_pages (db : DB) (q : query) (log : list stmt) :
  (tagsQuery_of q <> [] ->
   List.length (Sql.q_select_tag_ids_in db (normTags_of q))
   = List.length (normTags_of q)) ->
  2 ^ 60 < page_of q ->
  2 ^ 63 <= offset_of q /\
  search q (world db log) = Rejected "SQLITE_MISMATCH: datatype mismatch" /\
  get_home q (world db log) = Rejected "SQLITE_MISMATCH: datatype mismatch".
Proof.
  intros Hlen Hpage.
  assert (Ho : 2 ^ 63 <= offset_of q).
  { unfold offset_of, limit.
    assert (H1 : 2 ^ 60 <= JS.to_double (page_of q - 1))
      by (apply to_double_ge_pow; lia).
    apply to_double_ge_pow; [lia|].
    change (2 ^ 63) with (2 ^ 60 * 8). lia. }
  pose proof (search_rejected q db log Ho Hlen) as E.
  split; [exact Ho|]. split; [exact E|].
  unfold get_home. unfold bind at 1. now rewrite E.
Qed.

Lemma search_rejects_huge_pages_witness :
  offset_of (at_page q_empty 100000000000000000000) = 1200000000000000000000 /\
  get_home (at_page q_empty 100000000000000000000) (world db_cats [])
  = Rejected "SQLITE_MISMATCH: datatype mismatch".
Proof.
  split; [reflexivity|].
  apply (search_rejects_huge_pages db_cats
           (at_page q_empty 100000000000000000000) []).
  - intros F. now contradiction F.
  - reflexivity.
Defined.
